(** * ai-web-factory-v3: the scroll-driven rendering engine

    A shallow embedding of [src/js/experience.js] (class [Experience]) and of
    [src/js/main.js] (the loader and the [DOMContentLoaded] handler that
    constructs the engine).

    - JavaScript and GLSL numbers are modelled as exact rationals [Q]:
      rounding is not represented there, and decimal literals stand for the
      value they spell.  A quotient whose divisor is zero (NaN or an infinity
      in JavaScript) has no counterpart in [Q], where it evaluates to 0; none
      of the properties below depends on the value of such a quotient.
    - The particle loop is modelled with its rounding: its Numbers are
      binary64 values, the elements of its [Float32Array]s binary32 values,
      every operation and store rounding to nearest-even (modules [Float]
      and [Particles], over the reals [R]).
    - The engine object [this] is a record; properties the code reads but no
      method assigns are kept as [option] fields that start out [None]
      ([undefined]).
    - The browser (window listeners, animation-frame queue, timers), the GSAP
      ScrollTrigger registry, the console and the calls made to the GPU side
      are explicit state, threaded through every method. *)

From Stdlib Require Import QArith Qround Qabs Qpower Lqa ZArith NArith Lia List String Bool Arith.
From Stdlib Require Reals Lra.
Import ListNotations.

Open Scope Q_scope.

(* ================================================================== *)
(** * Numbers and vectors *)
(* ================================================================== *)

(** [Math.PI] is the binary64 number nearest to pi, an exact rational. *)
Definition Math_PI : Q := 884279719003555 # 281474976710656.

Definition Math_max (a b : Q) : Q := if Qlt_le_dec a b then b else a.
Definition Math_min (a b : Q) : Q := if Qlt_le_dec b a then b else a.
Definition Math_abs (a : Q) : Q := Qabs a.
Definition Math_floor (a : Q) : Z := Qfloor a.

(** JavaScript's [v || d] on a number that may be [undefined]: the default is
    taken for [undefined] and for zero. *)
Definition or_default (v : option Q) (d : Q) : Q :=
  match v with
  | Some q => if Qeq_bool q 0 then d else q
  | None => d
  end.

Record Vector2 := vector2 { x2 : Q; y2 : Q }.
Record Vector3 := vector3 { x3 : Q; y3 : Q; z3 : Q }.

Definition set_x3 (v : Vector3) (q : Q) : Vector3 := vector3 q (y3 v) (z3 v).
Definition set_y3 (v : Vector3) (q : Q) : Vector3 := vector3 (x3 v) q (z3 v).
Definition set_z3 (v : Vector3) (q : Q) : Vector3 := vector3 (x3 v) (y3 v) q.

(* ================================================================== *)
(** * The noise kernel of the particle vertex shader *)
(* ================================================================== *)

(** The GLSL source of [_getParticleVertexShader], lines 506-572, over exact
    rationals.  Component-wise GLSL operators are spelled with [map3], [map4],
    [zip3] and [zip4]; these and the dot products keep every fraction in lowest
    terms with [Qred], which does not change its value.  Literals are the
    decimals they spell: [0.142857142857] is below 1/7 here, where the
    binary32 number the shader uses is above it. *)
Module Glsl.

Record vec4 := V4 { x4 : Q; y4 : Q; z4 : Q; w4 : Q }.
Definition vec3 := Vector3.
Definition V3 := vector3.

Definition floor (q : Q) : Q := inject_Z (Qfloor q).
(** [step(edge, x)] is 0.0 when [x < edge] and 1.0 otherwise. *)
Definition step (edge x : Q) : Q := if Qlt_le_dec x edge then 0 else 1.
Definition max := Math_max.
Definition min := Math_min.
Definition abs := Qabs.

Definition map3 (f : Q -> Q) (v : vec3) : vec3 :=
  V3 (Qred (f (x3 v))) (Qred (f (y3 v))) (Qred (f (z3 v))).
Definition map4 (f : Q -> Q) (v : vec4) : vec4 :=
  V4 (Qred (f (x4 v))) (Qred (f (y4 v))) (Qred (f (z4 v))) (Qred (f (w4 v))).
Definition zip3 (f : Q -> Q -> Q) (a b : vec3) : vec3 :=
  V3 (Qred (f (x3 a) (x3 b))) (Qred (f (y3 a) (y3 b))) (Qred (f (z3 a) (z3 b))).
Definition zip4 (f : Q -> Q -> Q) (a b : vec4) : vec4 :=
  V4 (Qred (f (x4 a) (x4 b))) (Qred (f (y4 a) (y4 b)))
     (Qred (f (z4 a) (z4 b))) (Qred (f (w4 a) (w4 b))).
Definition dot3 (a b : vec3) : Q :=
  Qred (x3 a * x3 b + y3 a * y3 b + z3 a * z3 b).
Definition dot4 (a b : vec4) : Q :=
  Qred (x4 a * x4 b + y4 a * y4 b + z4 a * z4 b + w4 a * w4 b).

Definition mod289v3 (x : vec3) : vec3 :=
  map3 (fun c => c - floor (c * (1 / 289)) * 289) x.
Definition mod289v4 (x : vec4) : vec4 :=
  map4 (fun c => c - floor (c * (1 / 289)) * 289) x.
Definition permute4 (x : vec4) : vec4 :=
  mod289v4 (map4 (fun c => (c * 34 + 1) * c) x).
Definition taylorInvSqrt4 (r : vec4) : vec4 :=
  map4 (fun c => 1.79284291400159 - 0.85373472095314 * c) r.

Definition snoise3 (v : vec3) : Q :=
  let Cx := 1 / 6 in
  let Cy := 1 / 3 in
  (* D = vec4(0.0, 0.5, 1.0, 2.0) *)
  let Dx := 0 in let Dy := 0.5 in let Dz := 1 in let Dw := 2 in
  let i := let s := dot3 v (V3 Cy Cy Cy) in map3 (fun c => floor (c + s)) v in
  let x0 := let t := dot3 i (V3 Cx Cx Cx) in
            map3 (fun c => c + t) (zip3 Qminus v i) in
  (* g = step(x0.yzx, x0.xyz) *)
  let g := V3 (step (y3 x0) (x3 x0)) (step (z3 x0) (y3 x0)) (step (x3 x0) (z3 x0)) in
  let l := map3 (fun c => 1 - c) g in
  let l_zxy := V3 (z3 l) (x3 l) (y3 l) in
  let i1 := zip3 min g l_zxy in
  let i2 := zip3 max g l_zxy in
  let x1 := map3 (fun c => c + Cx) (zip3 Qminus x0 i1) in
  let x2 := map3 (fun c => c + Cy) (zip3 Qminus x0 i2) in
  let x3' := map3 (fun c => c - Dy) x0 in
  let i := mod289v3 i in
  let p :=
    permute4 (map4 (fun c => c + x3 i)
      (zip4 Qplus
        (permute4 (map4 (fun c => c + y3 i)
          (zip4 Qplus
            (permute4 (map4 (fun c => z3 i + c) (V4 0 (z3 i1) (z3 i2) 1)))
            (V4 0 (y3 i1) (y3 i2) 1))))
        (V4 0 (x3 i1) (x3 i2) 1))) in
  let n_ := 0.142857142857 in
  (* ns = n_ * D.wyz - D.xzx *)
  let ns := V3 (n_ * Dw - Dx) (n_ * Dy - Dz) (n_ * Dz - Dx) in
  let j := map4 (fun c => c - 49 * floor (c * z3 ns * z3 ns)) p in
  let x_ := map4 (fun c => floor (c * z3 ns)) j in
  let y_ := zip4 (fun c d => floor (c - 7 * d)) j x_ in
  let x := map4 (fun c => c * x3 ns + y3 ns) x_ in
  let y := map4 (fun c => c * x3 ns + y3 ns) y_ in
  let h := zip4 (fun a b => 1 - abs a - abs b) x y in
  let b0 := V4 (x4 x) (y4 x) (x4 y) (y4 y) in
  let b1 := V4 (z4 x) (w4 x) (z4 y) (w4 y) in
  let s0 := map4 (fun c => floor c * 2 + 1) b0 in
  let s1 := map4 (fun c => floor c * 2 + 1) b1 in
  (* sh = -step(h, vec4(0.0)) *)
  let sh := map4 (fun c => - step c 0) h in
  (* a0 = b0.xzyw + s0.xzyw * sh.xxyy;  a1 = b1.xzyw + s1.xzyw * sh.zzww *)
  let a0 := V4 (x4 b0 + x4 s0 * x4 sh) (z4 b0 + z4 s0 * x4 sh)
               (y4 b0 + y4 s0 * y4 sh) (w4 b0 + w4 s0 * y4 sh) in
  let a1 := V4 (x4 b1 + x4 s1 * z4 sh) (z4 b1 + z4 s1 * z4 sh)
               (y4 b1 + y4 s1 * w4 sh) (w4 b1 + w4 s1 * w4 sh) in
  let p0 := V3 (x4 a0) (y4 a0) (x4 h) in
  let p1 := V3 (z4 a0) (w4 a0) (y4 h) in
  let p2 := V3 (x4 a1) (y4 a1) (z4 h) in
  let p3 := V3 (z4 a1) (w4 a1) (w4 h) in
  let norm :=
    taylorInvSqrt4 (V4 (dot3 p0 p0) (dot3 p1 p1) (dot3 p2 p2) (dot3 p3 p3)) in
  let p0 := map3 (fun c => c * x4 norm) p0 in
  let p1 := map3 (fun c => c * y4 norm) p1 in
  let p2 := map3 (fun c => c * z4 norm) p2 in
  let p3 := map3 (fun c => c * w4 norm) p3 in
  let m := map4 (fun c => max (0.6 - c) 0)
             (V4 (dot3 x0 x0) (dot3 x1 x1) (dot3 x2 x2) (dot3 x3' x3')) in
  let m := zip4 Qmult m m in
  42 * dot4 (zip4 Qmult m m)
            (V4 (dot3 p0 x0) (dot3 p1 x1) (dot3 p2 x2) (dot3 p3 x3')).

Definition add3 (a b : vec3) : vec3 := zip3 Qplus a b.
Definition sub3 (a b : vec3) : vec3 := zip3 Qminus a b.

(** [curlNoise] over an arbitrary scalar field [noise]; the shader's
    function is its instance at [snoise3]. *)
Definition curlNoise_of (noise : vec3 -> Q) (p : vec3) : vec3 :=
  let eps := 0.01 in
  let curl_x :=
    let n1 := noise (add3 p (V3 0 eps 0)) in
    let n2 := noise (sub3 p (V3 0 eps 0)) in
    (n1 - n2) / (2 * eps) in
  let curl_y :=
    let n1 := noise (add3 p (V3 0 0 eps)) in
    let n2 := noise (sub3 p (V3 0 0 eps)) in
    (n1 - n2) / (2 * eps) in
  let curl_z :=
    let n1 := noise (add3 p (V3 eps 0 0)) in
    let n2 := noise (sub3 p (V3 eps 0 0)) in
    (n1 - n2) / (2 * eps) in
  V3 (Qred curl_x) (Qred curl_y) (Qred curl_z).

Definition curlNoise : vec3 -> vec3 := curlNoise_of snoise3.

(** The finite-difference estimate of the divergence of a vector field [F]
    at [p] with step [h]: the sum over the three axes of the central
    difference of the matching component. *)
Definition divergence_fd (F : vec3 -> vec3) (h : Q) (p : vec3) : Q :=
  (  (x3 (F (add3 p (V3 h 0 0))) - x3 (F (sub3 p (V3 h 0 0))))
   + (y3 (F (add3 p (V3 0 h 0))) - y3 (F (sub3 p (V3 0 h 0))))
   + (z3 (F (add3 p (V3 0 0 h))) - z3 (F (sub3 p (V3 0 0 h))))) / (2 * h).

(** The property of the spec: on every point of a sampled grid the estimate
    stays within the tolerance. *)
Definition divergence_free_on (F : vec3 -> vec3) (h tol : Q) (grid : list vec3) : Prop :=
  forall p, In p grid -> Qabs (divergence_fd F h p) <= tol.

End Glsl.

(* ================================================================== *)
(** * Data model *)
(* ================================================================== *)

(** ** Scene objects (three.js)

    Meshes and groups live in a store indexed by references, so that two
    properties can name the same object.  The camera, the mouse light and the
    particle system are reached through one property each and are kept by
    value.  The three fixed lights of [_initLights] (ambient, warm, cool) are
    never read again and are left out. *)

Inductive Shader := TorusShader | WaveShader | ParticleShader.

Inductive Material :=
| MeshStandardMaterial (color : Z) (wireframe : bool)
| PointsMaterial (color : Z)
| ShaderMaterial (program : Shader).

Inductive Geometry :=
| TorusKnotGeometry
| IcosahedronGeometry
| PlaneGeometry
| BoxGeometry (height : Q)
| SphereGeometry (radius : Q).

Record Object3D := object3D {
  position : Vector3;
  rotation : Vector3;
  scale : Vector3;
  geometry : option Geometry;
  material : option Material
}.

Definition set_position (o : Object3D) (v : Vector3) : Object3D :=
  object3D v (rotation o) (scale o) (geometry o) (material o).
Definition set_rotation (o : Object3D) (v : Vector3) : Object3D :=
  object3D (position o) v (scale o) (geometry o) (material o).
Definition set_scale (o : Object3D) (v : Vector3) : Object3D :=
  object3D (position o) (rotation o) v (geometry o) (material o).
Definition set_material (o : Object3D) (m : Material) : Object3D :=
  object3D (position o) (rotation o) (scale o) (geometry o) (Some m).

Definition origin : Vector3 := vector3 0 0 0.
Definition ones : Vector3 := vector3 1 1 1.

Definition Group (y : Q) : Object3D :=
  object3D (vector3 0 y 0) origin ones None None.
Definition Mesh (g : Geometry) (m : Material) : Object3D :=
  object3D origin origin ones (Some g) (Some m).

Definition ref := nat.
Definition Store := list Object3D.

Definition alloc (o : Object3D) (h : Store) : ref * Store :=
  (List.length h, h ++ [o]).
Definition deref (h : Store) (r : ref) : option Object3D := nth_error h r.

(** In-place mutation of the object behind a reference. *)
Fixpoint modify (r : ref) (f : Object3D -> Object3D) (h : Store) : Store :=
  match h, r with
  | [], _ => []
  | o :: h', O => f o :: h'
  | o :: h', S r' => o :: modify r' f h'
  end.

Record Camera := camera_at { camera_position : Vector3; aspect : Q }.
Record PointLight := light_at { light_position : Vector3 }.
Record Points := points {
  points_position : Vector3;
  points_rotation : Vector3;
  points_count : N
}.

(** ** Uniforms and the compositing pipeline *)

Record Uniforms := uniforms {
  uTime : option Q;
  uScrollProgress : option Q;
  uAmplitude : option Q;
  uMouse : option Vector2;
  uSize : option Q
}.

(** The value held by a uniform of a pass: a number or a [Vector2].  Only a
    [Vector2] has a [set] method. *)
Inductive UniformValue := UNumber (q : Q) | UVector2 (v : Vector2).

Record ShaderPass := shaderPass { uOffset : option UniformValue }.

Inductive Pass :=
| RenderPass
| UnrealBloomPass (resolution : Vector2) (strength radius threshold : Q)
| ChromaticAberrationPass.

Record EffectComposer := effectComposer {
  passes : list Pass;
  composer_size : Q * Q
}.

Record WebGLRenderer := webGLRenderer {
  renderer_size : Q * Q;
  pixelRatio : Q
}.

(** ** three.js [Clock] *)

Record Clock := clock_state { running : bool; oldTime : Q }.

(** [getDelta]: the first call starts the clock and returns 0; later calls
    return the seconds since the previous call ([now] is in milliseconds). *)
Definition getDelta (now : Q) (c : Clock) : Q * Clock :=
  if running c
  then ((now - oldTime c) / 1000, clock_state true now)
  else (0, clock_state true now).

(** ** The engine object *)

Record Dimensions := dims { width : Q; height : Q }.

Record ScrollState := scrollState {
  scrollProgress : Q;
  currentSection : Z;
  scrollY : Q;
  barHeights : list Q;
  waveAmplitude : Q;
  contactSphereScale : Q;
  _prevScrollY : option Q;
  _scrollVelocity : option Q
}.

(** [this.meshes]: filled by [_initGeometries]. *)
Record Meshes := meshes_dict {
  hero : option ref;
  features : list ref;
  showcase : option ref;
  bars : list ref;
  contactPoints : option ref;
  contactSphere : option ref
}.

(** Properties assigned by the [_init...] methods. *)
Record Graphics := graphics {
  renderer : option WebGLRenderer;
  scene : bool;
  camera : option Camera;
  mouseLight : option PointLight;
  heroGroup : option ref;
  featuresGroup : option ref;
  showcaseGroup : option ref;
  statsGroup : option ref;
  contactGroup : option ref;
  torusUniforms : option Uniforms;
  waveUniforms : option Uniforms;
  particleUniforms : option Uniforms;
  particleSystem : option Points;
  composer : option EffectComposer;
  chromaticAberrationPass : option ShaderPass
}.

Inductive Callback :=
| ResizeArrow        (* the arrow function of line 269 *)
| MouseMoveArrow     (* the arrow function of line 288 *)
| ScrollArrow        (* the arrow function of line 295 *)
| Bound_onResize (serial : nat).  (* a function made by [this._onResize.bind(this)] *)

(** Properties that methods read and that no method of the class assigns.
    [this_contactSphere] is [this.contactSphere], not [this.meshes.contactSphere]. *)
Record Unassigned := unassigned {
  torusKnot : option ref;
  showcasePlane : option ref;
  heroMesh : option ref;
  featuresMeshes : option (list ref);
  waveMesh : option ref;
  statsBars : option (list ref);
  this_contactSphere : option ref;
  particleShaderMaterial : option Uniforms;
  heroShaderMaterial : option Uniforms;
  waveShaderMaterial : option Uniforms;
  parallaxGroups : option (list (option ref));
  _onMouseMove : option Callback
}.

Definition Canvas := nat.

Record Experience := experience {
  canvas : Canvas;
  dimensions : Dimensions;
  mouse : Vector2;
  clock : Clock;
  time : Q;
  scroll : ScrollState;
  meshes : Meshes;
  gfx : Graphics;
  _animFrameId : option nat;
  stale : Unassigned
}.

(** ** The browser, GSAP and the GPU side *)

Record Window := window_state {
  innerWidth : Q;
  innerHeight : Q;
  devicePixelRatio : Q;
  window_scrollY : Q;
  scrollHeight : Q      (* document.documentElement.scrollHeight *)
}.

Inductive EventType := resize | mousemove | scroll_event.

Inductive Timer := CallInitScrollAnimations.

(** The scroll triggers [_initScrollAnimations] can create. *)
Inductive Trigger :=
| CameraTrigger
| FeatureTrigger (i : nat) (mesh : ref) (from : Vector3)
| ShowcaseTrigger
| StatsTimelineTrigger (bar_count : nat)
| ContactTrigger
| ParallaxTrigger (i : nat) (group : ref).

(** Tweens handed to GSAP.  They are recorded; their playback is GSAP's and is
    not simulated. *)
Inductive Tween :=
| HeroScaleIn (mesh : ref)
| FeatureFlyIn (i : nat) (mesh : ref)
| BarGrow (i : nat).

Inductive LogEntry := Warn (msg : string) | Error (msg : string).

(** Calls that reach the renderer, the GPU resources or the canvas element. *)
Inductive GpuCall :=
| ComposerRender (ps : list Pass)
| VerticesUpload (mesh : ref)
| RendererDispose
| CanvasRemoved
| RenderTargetDispose (n : nat)
| GeometryDispose (g : Geometry)
| MaterialDispose (m : Material)
| ParticleGeometryDispose
| ParticleMaterialDispose.

(** Outcome of the four dynamic imports of [_initPostProcessing]: [true] when
    the module was loaded, [false] when the import was rejected and the
    [catch] handler substituted [null]. *)
Record Modules := modules_loaded {
  mod_EffectComposer : bool;
  mod_RenderPass : bool;
  mod_UnrealBloomPass : bool;
  mod_ShaderPass : bool
}.

Record Browser := browser {
  window : Window;
  webgl : bool;                 (* can a WebGL context be created *)
  modules : Modules;
  listeners : list (EventType * Callback);
  raf_pending : list nat;       (* handles of requested animation frames *)
  raf_next : nat;
  timers : list Timer;
  triggers : list Trigger;      (* ScrollTrigger.getAll() *)
  tweens : list Tween;
  console : list LogEntry;
  gpu : list GpuCall;
  fn_next : nat;                (* serial of the next function object *)
  canvas_attached : bool        (* the canvas has a parent node *)
}.

Record World := world {
  this : Experience;
  heap : Store;
  env : Browser
}.

(** How a call ends: normally, or by an exception, with the state reached. *)
Inductive Completion :=
| Normal (w : World)
| Throw (e : string) (w : World).

Definition world_of (c : Completion) : World :=
  match c with Normal w => w | Throw _ w => w end.

Definition completed (c : Completion) : bool :=
  match c with Normal _ => true | Throw _ _ => false end.

(** Sequencing of calls: an exception skips what follows. *)
Definition andThen (c : Completion) (k : World -> Completion) : Completion :=
  match c with
  | Normal w => k w
  | Throw e w => Throw e w
  end.

Notation "c >>= k" := (andThen c k) (at level 50, left associativity).

(* ================================================================== *)
(** * Field updates *)
(* ================================================================== *)

Definition set_dimensions (r : Experience) (v : Dimensions) : Experience :=
  experience (canvas r) v (mouse r) (clock r) (time r) (scroll r) (meshes r) (gfx r) (_animFrameId r) (stale r).
Definition set_mouse (r : Experience) (v : Vector2) : Experience :=
  experience (canvas r) (dimensions r) v (clock r) (time r) (scroll r) (meshes r) (gfx r) (_animFrameId r) (stale r).
Definition set_clock (r : Experience) (v : Clock) : Experience :=
  experience (canvas r) (dimensions r) (mouse r) v (time r) (scroll r) (meshes r) (gfx r) (_animFrameId r) (stale r).
Definition set_time (r : Experience) (v : Q) : Experience :=
  experience (canvas r) (dimensions r) (mouse r) (clock r) v (scroll r) (meshes r) (gfx r) (_animFrameId r) (stale r).
Definition set_scroll (r : Experience) (v : ScrollState) : Experience :=
  experience (canvas r) (dimensions r) (mouse r) (clock r) (time r) v (meshes r) (gfx r) (_animFrameId r) (stale r).
Definition set_meshes (r : Experience) (v : Meshes) : Experience :=
  experience (canvas r) (dimensions r) (mouse r) (clock r) (time r) (scroll r) v (gfx r) (_animFrameId r) (stale r).
Definition set_gfx (r : Experience) (v : Graphics) : Experience :=
  experience (canvas r) (dimensions r) (mouse r) (clock r) (time r) (scroll r) (meshes r) v (_animFrameId r) (stale r).
Definition set_animFrameId (r : Experience) (v : option nat) : Experience :=
  experience (canvas r) (dimensions r) (mouse r) (clock r) (time r) (scroll r) (meshes r) (gfx r) v (stale r).
Definition set_stale (r : Experience) (v : Unassigned) : Experience :=
  experience (canvas r) (dimensions r) (mouse r) (clock r) (time r) (scroll r) (meshes r) (gfx r) (_animFrameId r) v.

Definition set_scrollProgress (r : ScrollState) (v : Q) : ScrollState :=
  scrollState v (currentSection r) (scrollY r) (barHeights r) (waveAmplitude r) (contactSphereScale r) (_prevScrollY r) (_scrollVelocity r).
Definition set_currentSection (r : ScrollState) (v : Z) : ScrollState :=
  scrollState (scrollProgress r) v (scrollY r) (barHeights r) (waveAmplitude r) (contactSphereScale r) (_prevScrollY r) (_scrollVelocity r).
Definition set_scrollY (r : ScrollState) (v : Q) : ScrollState :=
  scrollState (scrollProgress r) (currentSection r) v (barHeights r) (waveAmplitude r) (contactSphereScale r) (_prevScrollY r) (_scrollVelocity r).
Definition set_waveAmplitude (r : ScrollState) (v : Q) : ScrollState :=
  scrollState (scrollProgress r) (currentSection r) (scrollY r) (barHeights r) v (contactSphereScale r) (_prevScrollY r) (_scrollVelocity r).
Definition set_contactSphereScale (r : ScrollState) (v : Q) : ScrollState :=
  scrollState (scrollProgress r) (currentSection r) (scrollY r) (barHeights r) (waveAmplitude r) v (_prevScrollY r) (_scrollVelocity r).
Definition set_prevScrollY (r : ScrollState) (v : option Q) : ScrollState :=
  scrollState (scrollProgress r) (currentSection r) (scrollY r) (barHeights r) (waveAmplitude r) (contactSphereScale r) v (_scrollVelocity r).
Definition set_scrollVelocity (r : ScrollState) (v : option Q) : ScrollState :=
  scrollState (scrollProgress r) (currentSection r) (scrollY r) (barHeights r) (waveAmplitude r) (contactSphereScale r) (_prevScrollY r) v.

Definition set_renderer (r : Graphics) (v : option WebGLRenderer) : Graphics :=
  graphics v (scene r) (camera r) (mouseLight r) (heroGroup r) (featuresGroup r) (showcaseGroup r) (statsGroup r) (contactGroup r) (torusUniforms r) (waveUniforms r) (particleUniforms r) (particleSystem r) (composer r) (chromaticAberrationPass r).
Definition set_scene (r : Graphics) (v : bool) : Graphics :=
  graphics (renderer r) v (camera r) (mouseLight r) (heroGroup r) (featuresGroup r) (showcaseGroup r) (statsGroup r) (contactGroup r) (torusUniforms r) (waveUniforms r) (particleUniforms r) (particleSystem r) (composer r) (chromaticAberrationPass r).
Definition set_camera (r : Graphics) (v : option Camera) : Graphics :=
  graphics (renderer r) (scene r) v (mouseLight r) (heroGroup r) (featuresGroup r) (showcaseGroup r) (statsGroup r) (contactGroup r) (torusUniforms r) (waveUniforms r) (particleUniforms r) (particleSystem r) (composer r) (chromaticAberrationPass r).
Definition set_mouseLight (r : Graphics) (v : option PointLight) : Graphics :=
  graphics (renderer r) (scene r) (camera r) v (heroGroup r) (featuresGroup r) (showcaseGroup r) (statsGroup r) (contactGroup r) (torusUniforms r) (waveUniforms r) (particleUniforms r) (particleSystem r) (composer r) (chromaticAberrationPass r).
Definition set_torusUniforms (r : Graphics) (v : option Uniforms) : Graphics :=
  graphics (renderer r) (scene r) (camera r) (mouseLight r) (heroGroup r) (featuresGroup r) (showcaseGroup r) (statsGroup r) (contactGroup r) v (waveUniforms r) (particleUniforms r) (particleSystem r) (composer r) (chromaticAberrationPass r).
Definition set_waveUniforms (r : Graphics) (v : option Uniforms) : Graphics :=
  graphics (renderer r) (scene r) (camera r) (mouseLight r) (heroGroup r) (featuresGroup r) (showcaseGroup r) (statsGroup r) (contactGroup r) (torusUniforms r) v (particleUniforms r) (particleSystem r) (composer r) (chromaticAberrationPass r).
Definition set_particleUniforms (r : Graphics) (v : option Uniforms) : Graphics :=
  graphics (renderer r) (scene r) (camera r) (mouseLight r) (heroGroup r) (featuresGroup r) (showcaseGroup r) (statsGroup r) (contactGroup r) (torusUniforms r) (waveUniforms r) v (particleSystem r) (composer r) (chromaticAberrationPass r).
Definition set_particleSystem (r : Graphics) (v : option Points) : Graphics :=
  graphics (renderer r) (scene r) (camera r) (mouseLight r) (heroGroup r) (featuresGroup r) (showcaseGroup r) (statsGroup r) (contactGroup r) (torusUniforms r) (waveUniforms r) (particleUniforms r) v (composer r) (chromaticAberrationPass r).
Definition set_composer (r : Graphics) (v : option EffectComposer) : Graphics :=
  graphics (renderer r) (scene r) (camera r) (mouseLight r) (heroGroup r) (featuresGroup r) (showcaseGroup r) (statsGroup r) (contactGroup r) (torusUniforms r) (waveUniforms r) (particleUniforms r) (particleSystem r) v (chromaticAberrationPass r).
Definition set_chromaticAberrationPass (r : Graphics) (v : option ShaderPass) : Graphics :=
  graphics (renderer r) (scene r) (camera r) (mouseLight r) (heroGroup r) (featuresGroup r) (showcaseGroup r) (statsGroup r) (contactGroup r) (torusUniforms r) (waveUniforms r) (particleUniforms r) (particleSystem r) (composer r) v.

Definition set_particleShaderMaterial (r : Unassigned) (v : option Uniforms) : Unassigned :=
  unassigned (torusKnot r) (showcasePlane r) (heroMesh r) (featuresMeshes r) (waveMesh r) (statsBars r) (this_contactSphere r) v (heroShaderMaterial r) (waveShaderMaterial r) (parallaxGroups r) (_onMouseMove r).
Definition set_heroShaderMaterial (r : Unassigned) (v : option Uniforms) : Unassigned :=
  unassigned (torusKnot r) (showcasePlane r) (heroMesh r) (featuresMeshes r) (waveMesh r) (statsBars r) (this_contactSphere r) (particleShaderMaterial r) v (waveShaderMaterial r) (parallaxGroups r) (_onMouseMove r).
Definition set_waveShaderMaterial (r : Unassigned) (v : option Uniforms) : Unassigned :=
  unassigned (torusKnot r) (showcasePlane r) (heroMesh r) (featuresMeshes r) (waveMesh r) (statsBars r) (this_contactSphere r) (particleShaderMaterial r) (heroShaderMaterial r) v (parallaxGroups r) (_onMouseMove r).

Definition set_window (r : Browser) (v : Window) : Browser :=
  browser v (webgl r) (modules r) (listeners r) (raf_pending r) (raf_next r) (timers r) (triggers r) (tweens r) (console r) (gpu r) (fn_next r) (canvas_attached r).
Definition set_listeners (r : Browser) (v : list (EventType * Callback)) : Browser :=
  browser (window r) (webgl r) (modules r) v (raf_pending r) (raf_next r) (timers r) (triggers r) (tweens r) (console r) (gpu r) (fn_next r) (canvas_attached r).
Definition set_raf_pending (r : Browser) (v : list nat) : Browser :=
  browser (window r) (webgl r) (modules r) (listeners r) v (raf_next r) (timers r) (triggers r) (tweens r) (console r) (gpu r) (fn_next r) (canvas_attached r).
Definition set_raf_next (r : Browser) (v : nat) : Browser :=
  browser (window r) (webgl r) (modules r) (listeners r) (raf_pending r) v (timers r) (triggers r) (tweens r) (console r) (gpu r) (fn_next r) (canvas_attached r).
Definition set_timers (r : Browser) (v : list Timer) : Browser :=
  browser (window r) (webgl r) (modules r) (listeners r) (raf_pending r) (raf_next r) v (triggers r) (tweens r) (console r) (gpu r) (fn_next r) (canvas_attached r).
Definition set_triggers (r : Browser) (v : list Trigger) : Browser :=
  browser (window r) (webgl r) (modules r) (listeners r) (raf_pending r) (raf_next r) (timers r) v (tweens r) (console r) (gpu r) (fn_next r) (canvas_attached r).
Definition set_tweens (r : Browser) (v : list Tween) : Browser :=
  browser (window r) (webgl r) (modules r) (listeners r) (raf_pending r) (raf_next r) (timers r) (triggers r) v (console r) (gpu r) (fn_next r) (canvas_attached r).
Definition set_console (r : Browser) (v : list LogEntry) : Browser :=
  browser (window r) (webgl r) (modules r) (listeners r) (raf_pending r) (raf_next r) (timers r) (triggers r) (tweens r) v (gpu r) (fn_next r) (canvas_attached r).
Definition set_gpu (r : Browser) (v : list GpuCall) : Browser :=
  browser (window r) (webgl r) (modules r) (listeners r) (raf_pending r) (raf_next r) (timers r) (triggers r) (tweens r) (console r) v (fn_next r) (canvas_attached r).
Definition set_fn_next (r : Browser) (v : nat) : Browser :=
  browser (window r) (webgl r) (modules r) (listeners r) (raf_pending r) (raf_next r) (timers r) (triggers r) (tweens r) (console r) (gpu r) v (canvas_attached r).
Definition set_canvas_attached (r : Browser) (v : bool) : Browser :=
  browser (window r) (webgl r) (modules r) (listeners r) (raf_pending r) (raf_next r) (timers r) (triggers r) (tweens r) (console r) (gpu r) (fn_next r) v.

Definition set_uTime (r : Uniforms) (v : option Q) : Uniforms :=
  uniforms v (uScrollProgress r) (uAmplitude r) (uMouse r) (uSize r).
Definition set_uScrollProgress (r : Uniforms) (v : option Q) : Uniforms :=
  uniforms (uTime r) v (uAmplitude r) (uMouse r) (uSize r).
Definition set_uAmplitude (r : Uniforms) (v : option Q) : Uniforms :=
  uniforms (uTime r) (uScrollProgress r) v (uMouse r) (uSize r).
Definition set_uMouse (r : Uniforms) (v : option Vector2) : Uniforms :=
  uniforms (uTime r) (uScrollProgress r) (uAmplitude r) v (uSize r).

Definition set_groups (r : Graphics) (g0 g1 g2 g3 g4 : ref) : Graphics :=
  graphics (renderer r) (scene r) (camera r) (mouseLight r)
    (Some g0) (Some g1) (Some g2) (Some g3) (Some g4)
    (torusUniforms r) (waveUniforms r) (particleUniforms r) (particleSystem r)
    (composer r) (chromaticAberrationPass r).

Definition upd_this (f : Experience -> Experience) (w : World) : World :=
  world (f (this w)) (heap w) (env w).
Definition upd_heap (f : Store -> Store) (w : World) : World :=
  world (this w) (f (heap w)) (env w).
Definition upd_env (f : Browser -> Browser) (w : World) : World :=
  world (this w) (heap w) (f (env w)).
Definition upd_gfx (f : Graphics -> Graphics) : World -> World :=
  upd_this (fun e => set_gfx e (f (gfx e))).
Definition upd_scroll (f : ScrollState -> ScrollState) : World -> World :=
  upd_this (fun e => set_scroll e (f (scroll e))).
Definition upd_stale (f : Unassigned -> Unassigned) : World -> World :=
  upd_this (fun e => set_stale e (f (stale e))).

Definition log (entry : LogEntry) : World -> World :=
  upd_env (fun b => set_console b (console b ++ [entry])).
Definition gpu_call (c : GpuCall) : World -> World :=
  upd_env (fun b => set_gpu b (gpu b ++ [c])).

(** [forEach] with the element index. *)
Fixpoint forEach_from {A : Type} (i : nat) (f : A -> nat -> World -> World)
    (l : list A) (w : World) : World :=
  match l with
  | [] => w
  | a :: l' => forEach_from (S i) f l' (f a i w)
  end.
Definition forEach {A : Type} := @forEach_from A 0.

(** A truthy number: JavaScript treats 0 (and [undefined]) as false. *)
Definition truthy_handle (h : option nat) : bool :=
  match h with
  | Some (S _) => true
  | _ => false
  end.

(* ================================================================== *)
(** * Browser and GSAP primitives *)
(* ================================================================== *)

Definition EventType_eqb (a b : EventType) : bool :=
  match a, b with
  | resize, resize | mousemove, mousemove | scroll_event, scroll_event => true
  | _, _ => false
  end.

(** Identity of function objects. *)
Definition Callback_eqb (a b : Callback) : bool :=
  match a, b with
  | ResizeArrow, ResizeArrow
  | MouseMoveArrow, MouseMoveArrow
  | ScrollArrow, ScrollArrow => true
  | Bound_onResize m, Bound_onResize n => Nat.eqb m n
  | _, _ => false
  end.

Definition addEventListener (t : EventType) (cb : Callback) : World -> World :=
  upd_env (fun b => set_listeners b (listeners b ++ [(t, cb)])).

(** Removes the registration of this very function object for this event
    type, if there is one. *)
Fixpoint remove_listener (t : EventType) (cb : Callback)
    (l : list (EventType * Callback)) : list (EventType * Callback) :=
  match l with
  | [] => []
  | (t', cb') :: l' =>
      if EventType_eqb t t' && Callback_eqb cb cb' then l'
      else (t', cb') :: remove_listener t cb l'
  end.

(** [removeEventListener(t, cb)]; with [cb] undefined it does nothing. *)
Definition removeEventListener (t : EventType) (cb : option Callback) : World -> World :=
  match cb with
  | Some f => upd_env (fun b => set_listeners b (remove_listener t f (listeners b)))
  | None => fun w => w
  end.

Definition requestAnimationFrame (w : World) : nat * World :=
  let id := raf_next (env w) in
  (id, upd_env (fun b => set_raf_next (set_raf_pending b (raf_pending b ++ [id])) (S id)) w).

Definition cancelAnimationFrame (id : nat) : World -> World :=
  upd_env (fun b =>
    set_raf_pending b (filter (fun h => negb (Nat.eqb h id)) (raf_pending b))).

Definition setTimeout (t : Timer) : World -> World :=
  upd_env (fun b => set_timers b (timers b ++ [t])).

Definition ScrollTrigger_create (t : Trigger) : World -> World :=
  upd_env (fun b => set_triggers b (triggers b ++ [t])).

Definition gsap_tween (t : Tween) : World -> World :=
  upd_env (fun b => set_tweens b (tweens b ++ [t])).

(** [gsap.utils.interpolate(a, b, t)] on numbers. *)
Definition interpolate (a b t : Q) : Q := a + (b - a) * t.

(* ================================================================== *)
(** * The methods of [Experience] *)
(* ================================================================== *)

Definition _initRenderer (w : World) : Completion :=
  if webgl (env w) then
    let d := dimensions (this w) in
    let r := webGLRenderer (width d, height d)
               (Math_min (devicePixelRatio (window (env w))) 2) in
    Normal (upd_gfx (fun g => set_scene (set_renderer g (Some r)) true) w)
  else Throw "Error creating WebGL context" w.

Definition _initCamera (w : World) : World :=
  let d := dimensions (this w) in
  upd_gfx (fun g =>
    set_camera g (Some (camera_at (vector3 0 0 5) (width d / height d)))) w.

Definition _initLights (w : World) : World :=
  upd_gfx (fun g => set_mouseLight g (Some (light_at origin))) w.

Definition alloc_in (o : Object3D) (w : World) : ref * World :=
  let (r, h) := alloc o (heap w) in (r, world (this w) h (env w)).

Fixpoint alloc_each (os : list Object3D) (w : World) : list ref * World :=
  match os with
  | [] => ([], w)
  | o :: os' =>
      let (r, w1) := alloc_in o w in
      let (rs, w2) := alloc_each os' w1 in
      (r :: rs, w2)
  end.

Definition featureColors : list Z := [0xff6b6b; 0x4ecdc4; 0x45b7d1]%Z.
Definition featureXPositions : list Q := [-2.5; 0; 2.5].
Definition barBaseHeights : list Q := [2; 3; 2.5; 3.5].
Definition barColors : list Z := [0xff6b6b; 0x4ecdc4; 0xffd93d; 0x6c5ce7]%Z.
Definition barXPositions : list Q := [-2.25; -0.75; 0.75; 2.25].

Fixpoint mapi_from {A B : Type} (i : nat) (f : A -> nat -> B) (l : list A) : list B :=
  match l with
  | [] => []
  | a :: l' => f a i :: mapi_from (S i) f l'
  end.

Definition _initGeometries (w : World) : World :=
  (* Section 0 - Hero *)
  let (heroGroup, w) := alloc_in (Group 0) w in
  let (heroMesh, w) :=
    alloc_in (Mesh TorusKnotGeometry (MeshStandardMaterial 0x6633cc true)) w in
  (* Section 1 - Features *)
  let (featuresGroup, w) := alloc_in (Group (-10)) w in
  let (features, w) :=
    alloc_each
      (mapi_from 0 (fun xPos i =>
         let mesh := Mesh IcosahedronGeometry
                       (MeshStandardMaterial (nth i featureColors 0%Z) false) in
         set_position mesh (set_x3 (position mesh) xPos))
         featureXPositions) w in
  (* Section 2 - Showcase *)
  let (showcaseGroup, w) := alloc_in (Group (-20)) w in
  let (showcaseMesh, w) :=
    let m := Mesh PlaneGeometry (MeshStandardMaterial 0x9966ff false) in
    alloc_in (set_rotation m (set_x3 (rotation m) (- Math_PI / 3))) w in
  (* Section 3 - Stats *)
  let (statsGroup, w) := alloc_in (Group (-30)) w in
  let (bars, w) :=
    alloc_each
      (mapi_from 0 (fun xPos i =>
         let bar := Mesh (BoxGeometry (nth i barBaseHeights 0))
                      (MeshStandardMaterial (nth i barColors 0%Z) false) in
         set_position bar (set_x3 (position bar) xPos))
         barXPositions) w in
  (* Section 4 - Contact *)
  let (contactGroup, w) := alloc_in (Group (-40)) w in
  let (contactPoints, w) :=
    alloc_in (Mesh (SphereGeometry 1.5) (PointsMaterial 0xffffff)) w in
  let (innerSphere, w) :=
    alloc_in (Mesh (SphereGeometry 1.0) (MeshStandardMaterial 0x6c5ce7 true)) w in
  upd_this (fun e =>
    set_meshes
      (set_gfx e (set_groups (gfx e) heroGroup featuresGroup showcaseGroup
                             statsGroup contactGroup))
      (meshes_dict (Some heroMesh) features (Some showcaseMesh) bars
                   (Some contactPoints) (Some innerSphere))) w.

Definition _initShaders (w : World) : World :=
  match torusKnot (stale (this w)), showcasePlane (stale (this w)) with
  | Some torus, Some plane =>
      let w := upd_gfx (fun g =>
        set_torusUniforms g (Some (uniforms (Some 0.0) (Some 0.0) None None None))) w in
      let w := upd_heap (modify torus (fun o =>
        set_material o (ShaderMaterial TorusShader))) w in
      let w := upd_gfx (fun g =>
        set_waveUniforms g (Some (uniforms (Some 0.0) (Some 0.0) (Some 0.5) None None))) w in
      upd_heap (modify plane (fun o => set_material o (ShaderMaterial WaveShader))) w
  | _, _ => w
  end.

Definition particle_count : N := 80000%N.

(** The attribute buffers themselves are modelled in [Particles] below; the
    engine state keeps the [Points] object built from them. *)
Definition _initParticleSystem (w : World) : World :=
  let w := upd_gfx (fun g =>
    set_particleUniforms g
      (Some (uniforms (Some 0.0) (Some 0.0) None (Some (vector2 0 0)) (Some 2.0)))) w in
  upd_gfx (fun g =>
    set_particleSystem g (Some (points (vector3 0 (-20) 0) origin particle_count))) w.

(** The body of [_initPostProcessing] as its statements read, each
    [await import(...).catch(...)] yielding the module or [null] in place.
    The method is not declared [async] ([Syntax] below), so this is a reading
    of the statements in their written order.  Were the method declared
    [async], the statements after the first [await] would run once the
    constructor has returned: the composer and the chromatic pass would then
    be set after the first tick.  The branch taken when a module is missing
    sets nothing, and leaves the same state under both readings. *)
Definition _initPostProcessing (w : World) : World :=
  let m := modules (env w) in
  if negb (mod_EffectComposer m) || negb (mod_RenderPass m)
     || negb (mod_UnrealBloomPass m) || negb (mod_ShaderPass m)
  then log (Warn "Post processing modules not available") w
  else
    let win := window (env w) in
    let d := dimensions (this w) in
    let bloomPass :=
      UnrealBloomPass (vector2 (innerWidth win) (innerHeight win)) 0.8 0.4 0.2 in
    let w := upd_gfx (fun g =>
      set_composer g
        (Some (effectComposer [RenderPass; bloomPass; ChromaticAberrationPass]
                              (width d, height d)))) w in
    upd_gfx (fun g =>
      set_chromaticAberrationPass g (Some (shaderPass (Some (UNumber 0.003))))) w.

Definition _initEventListeners (w : World) : World :=
  let w := addEventListener resize ResizeArrow w in
  let w := addEventListener mousemove MouseMoveArrow w in
  addEventListener scroll_event ScrollArrow w.

(** ** The three window listeners of [_initEventListeners] *)

(** A property access on [undefined] inside a listener is an uncaught
    [TypeError]: the listener stops there and the error is reported. *)
Definition uncaught (msg : string) : World -> World := log (Error msg).

Definition on_resize (w : World) : World :=
  let win := window (env w) in
  let w := upd_this (fun e => set_dimensions e (dims (innerWidth win) (innerHeight win))) w in
  let d := dimensions (this w) in
  match camera (gfx (this w)) with
  | None => uncaught "TypeError: this.camera is undefined" w
  | Some c =>
      let w := upd_gfx (fun g =>
        set_camera g (Some (camera_at (camera_position c) (width d / height d)))) w in
      match renderer (gfx (this w)) with
      | None => uncaught "TypeError: this.renderer is undefined" w
      | Some _ =>
          let w := upd_gfx (fun g =>
            set_renderer g
              (Some (webGLRenderer (width d, height d)
                                   (Math_min (devicePixelRatio win) 2)))) w in
          match composer (gfx (this w)) with
          | Some cp =>
              upd_gfx (fun g =>
                set_composer g (Some (effectComposer (passes cp) (width d, height d)))) w
          | None => w
          end
      end
  end.

Definition on_mousemove (clientX clientY : Q) (w : World) : World :=
  let d := dimensions (this w) in
  upd_this (fun e =>
    set_mouse e (vector2 ((clientX / width d) * 2 - 1)
                         (- (clientY / height d) * 2 + 1))) w.

(** The scroll progress computed by the scroll listener (line 302). *)
Definition scroll_progress_of (scrollY maxScroll : Q) : Q :=
  if Qlt_le_dec 0 maxScroll then scrollY / maxScroll else 0.

Definition on_scroll (w : World) : World :=
  let win := window (env w) in
  let w := upd_scroll (fun s => set_scrollY s (window_scrollY win)) w in
  let maxScroll := scrollHeight win - innerHeight win in
  let w := upd_scroll (fun s =>
    set_scrollProgress s (scroll_progress_of (scrollY s) maxScroll)) w in
  upd_scroll (fun s =>
    set_currentSection s
      (Math_floor (scrollY s / height (dimensions (this w))))) w.

Definition run_listener (cb : Callback) (clientX clientY : Q) (w : World) : World :=
  match cb with
  | ResizeArrow => on_resize w
  | MouseMoveArrow => on_mousemove clientX clientY w
  | ScrollArrow => on_scroll w
  | Bound_onResize _ => w   (* never registered: no [addEventListener] receives one *)
  end.

(** The browser delivers an event to every listener registered for its type,
    in registration order. *)
Definition dispatch (t : EventType) (clientX clientY : Q) (w : World) : World :=
  fold_left
    (fun w' reg => if EventType_eqb t (fst reg)
                   then run_listener (snd reg) clientX clientY w' else w')
    (listeners (env w)) w.

(** ** [_initScrollAnimations] and the callbacks it registers *)

Definition feature_offsets : list Vector3 :=
  [vector3 (-5) 0 0; vector3 0 3 0; vector3 5 0 0].
Definition parallaxRates : list Q := [1.0; 0.95; 0.9; 0.85; 0.8].

Definition add_vec (a b : Vector3) : Vector3 :=
  vector3 (x3 a + x3 b) (y3 a + y3 b) (z3 a + z3 b).

(** One round of the [featuresMeshes.forEach] of line 829.  [offsets[i]] is
    undefined past the third entry and reading [from.x] then throws. *)
Fixpoint features_forEach (i : nat) (ms : list ref) (w : World) : Completion :=
  match ms with
  | [] => Normal w
  | mesh :: ms' =>
      match nth_error feature_offsets i with
      | None => Throw "TypeError: from is undefined" w
      | Some from =>
          let w := upd_heap (modify mesh (fun o =>
            set_position o (add_vec (position o) from))) w in
          let w := ScrollTrigger_create (FeatureTrigger i mesh from) w in
          features_forEach (S i) ms' w
      end
  end.

Definition _initScrollAnimations (w : World) : Completion :=
  (* Hero mesh elastic scale-up on load: [gsap.from] puts the start values in
     place at once *)
  let w :=
    match heroMesh (stale (this w)) with
    | Some r =>
        gsap_tween (HeroScaleIn r)
          (upd_heap (modify r (fun o => set_scale o origin)) w)
    | None => w
    end in
  (* Camera Y driven by full-page scroll *)
  let w := ScrollTrigger_create CameraTrigger w in
  (* Features: fly-in icosahedrons *)
  (match featuresMeshes (stale (this w)) with
   | Some ms =>
       if (3 <=? List.length ms)%nat then features_forEach 0 ms w else Normal w
   | None => Normal w
   end) >>= fun w =>
  (* Showcase: wave amplitude in and out *)
  let w := ScrollTrigger_create ShowcaseTrigger w in
  (* Stats: sequential bar scale Y *)
  let w :=
    match statsBars (stale (this w)) with
    | Some bs =>
        if (0 <? List.length bs)%nat then
          forEach (fun (_ : ref) i => gsap_tween (BarGrow i)) bs
            (ScrollTrigger_create (StatsTimelineTrigger (List.length bs)) w)
        else w
    | None => w
    end in
  (* Contact: sphere scale *)
  let w := upd_scroll (fun s => set_contactSphereScale s 1) w in
  let w := ScrollTrigger_create ContactTrigger w in
  (* Parallax groups at different rates *)
  Normal
    match parallaxGroups (stale (this w)) with
    | Some gs =>
        forEach (fun (group : option ref) i =>
                   match group with
                   | Some g => ScrollTrigger_create (ParallaxTrigger i g)
                   | None => fun w => w
                   end) gs w
    | None => w
    end.

(** The [onUpdate] callback of a trigger, called by ScrollTrigger with the
    progress of that trigger ([self.progress]).  The feature triggers and the
    stats timeline have no [onUpdate]. *)
Definition onUpdate (t : Trigger) (progress : Q) (w : World) : World :=
  match t with
  | CameraTrigger =>
      let w := upd_scroll (fun s => set_scrollProgress s progress) w in
      let prevY := or_default (_prevScrollY (scroll (this w))) 0 in
      let w := upd_scroll (fun s => set_scrollVelocity s (Some (progress - prevY))) w in
      let w := upd_scroll (fun s => set_prevScrollY s (Some progress)) w in
      match camera (gfx (this w)) with
      | Some c =>
          upd_gfx (fun g =>
            set_camera g
              (Some (camera_at (set_y3 (camera_position c) (progress * -40))
                               (aspect c)))) w
      | None => w
      end
  | ShowcaseTrigger =>
      let p := progress in
      if Qlt_le_dec p 0.5
      then upd_scroll (fun s => set_waveAmplitude s (interpolate 0 0.5 (p * 2))) w
      else upd_scroll (fun s => set_waveAmplitude s (interpolate 0.5 0 ((p - 0.5) * 2))) w
  | ContactTrigger =>
      upd_scroll (fun s => set_contactSphereScale s (1 + progress * 1.5)) w
  | ParallaxTrigger i group =>
      (* [parallaxRates[i]] past the fifth entry is undefined in the source;
         the product is then not a number, which [0] stands for here *)
      upd_heap (modify group (fun o =>
        set_position o
          (set_y3 (position o) (- progress * 40 * nth i parallaxRates 0)))) w
  | FeatureTrigger _ _ _ => w
  | StatsTimelineTrigger _ => w
  end.

(** The [onEnter] callback, present on the feature triggers only. *)
Definition onEnter (t : Trigger) (w : World) : World :=
  match t with
  | FeatureTrigger i mesh _ => gsap_tween (FeatureFlyIn i mesh) w
  | _ => w
  end.

Definition Trigger_eqb (a b : Trigger) : bool :=
  match a, b with
  | CameraTrigger, CameraTrigger
  | ShowcaseTrigger, ShowcaseTrigger
  | ContactTrigger, ContactTrigger => true
  | FeatureTrigger i m _, FeatureTrigger j n _ => Nat.eqb i j && Nat.eqb m n
  | StatsTimelineTrigger m, StatsTimelineTrigger n => Nat.eqb m n
  | ParallaxTrigger i g, ParallaxTrigger j h => Nat.eqb i j && Nat.eqb g h
  | _, _ => false
  end.

Definition registered (t : Trigger) (w : World) : bool :=
  existsb (Trigger_eqb t) (triggers (env w)).

(** ** The per-frame updates *)

Definition _updateOnScroll (w : World) : World :=
  (* Update wave plane vertices: the new vertex heights are sines and cosines
     and are not represented; the rewrite of the buffer is recorded *)
  let w :=
    match waveMesh (stale (this w)) with
    | Some r =>
        match deref (heap w) r with
        | Some o => match geometry o with
                    | Some _ => gpu_call (VerticesUpload r) w
                    | None => w
                    end
        | None => w
        end
    | None => w
    end in
  (* Update contact sphere scale *)
  let w :=
    match this_contactSphere (stale (this w)) with
    | Some r =>
        let s := or_default (Some (contactSphereScale (scroll (this w)))) 1 in
        upd_heap (modify r (fun o => set_scale o (vector3 s s s))) w
    | None => w
    end in
  (* Update stats bars scale Y *)
  match statsBars (stale (this w)) with
  | Some bs =>
      forEach (fun bar i w =>
        let h := or_default (nth_error (barHeights (scroll (this w))) i) 0 in
        upd_heap (modify bar (fun o =>
          set_scale o (set_y3 (scale o) (Math_max 0.001 h)))) w) bs w
  | None => w
  end.

Definition _updateParticles (time delta : Q) (w : World) : World :=
  let w :=
    match particleSystem (gfx (this w)) with
    | Some ps =>
        (* Slowly rotate the particle system *)
        let r := points_rotation ps in
        let r := set_y3 r (y3 r + delta * 0.05) in
        let r := set_x3 r (x3 r + delta * 0.02) in
        upd_gfx (fun g =>
          set_particleSystem g (Some (points (points_position ps) r (points_count ps)))) w
    | None => w
    end in
  match particleShaderMaterial (stale (this w)) with
  | Some u =>
      let e := this w in
      let u := match uTime u with Some _ => set_uTime u (Some time) | None => u end in
      let u := match uScrollProgress u with
               | Some _ => set_uScrollProgress u
                             (Some (or_default (Some (scrollProgress (scroll e))) 0))
               | None => u
               end in
      let u := match uMouse u with
               | Some _ => set_uMouse u (Some (vector2 (x2 (mouse e)) (y2 (mouse e))))
               | None => u
               end in
      upd_stale (fun st => set_particleShaderMaterial st (Some u)) w
  | None => w
  end.

Definition _updateCamera (w : World) : World :=
  match camera (gfx (this w)) with
  | None => w
  | Some c =>
      let m := mouse (this w) in
      let p := camera_position c in
      (* Subtle camera sway based on mouse X *)
      let p := set_x3 p (x3 p + (x2 m * 0.5 - x3 p) * 0.05) in
      (* Subtle forward/back based on mouse Y *)
      let p := set_z3 p (z3 p + (10 + y2 m * -0.5 - z3 p) * 0.05) in
      upd_gfx (fun g => set_camera g (Some (camera_at p (aspect c)))) w
  end.

Definition _updateMouseLight (w : World) : World :=
  match mouseLight (gfx (this w)) with
  | None => w
  | Some l =>
      let m := mouse (this w) in
      (* Project mouse into 3D space at a fixed Z depth *)
      let targetX := x2 m * 8 in
      let targetY := y2 m * 8 in
      let targetZ := 5 in
      let p := light_position l in
      let p := set_x3 p (x3 p + (targetX - x3 p) * 0.08) in
      let p := set_y3 p (y3 p + (targetY - y3 p) * 0.08) in
      let p := set_z3 p (z3 p + (targetZ - z3 p) * 0.08) in
      upd_gfx (fun g => set_mouseLight g (Some (light_at p))) w
  end.

(** The blocks of [_tick], one definition per commented block of the source. *)

(* Rotate hero torus knot *)
Definition rotate_hero (t : Q) (w : World) : World :=
  match heroMesh (stale (this w)) with
  | Some r =>
      upd_heap (modify r (fun o =>
        set_rotation o (set_y3 (set_x3 (rotation o) (t * 0.18)) (t * 0.12)))) w
  | None => w
  end.

(* Rotate features icosahedrons *)
Definition rotate_features (delta : Q) (w : World) : World :=
  match featuresMeshes (stale (this w)) with
  | Some ms =>
      forEach (fun mesh i =>
        upd_heap (modify mesh (fun o =>
          let r := rotation o in
          let r := set_x3 r (x3 r + delta * (0.3 + inject_Z (Z.of_nat i) * 0.07)) in
          let r := set_y3 r (y3 r + delta * (0.2 + inject_Z (Z.of_nat i) * 0.05)) in
          set_rotation o r))) ms w
  | None => w
  end.

(* Rotate contact sphere *)
Definition rotate_contactSphere (delta : Q) (w : World) : World :=
  match this_contactSphere (stale (this w)) with
  | Some r =>
      upd_heap (modify r (fun o =>
        let r := rotation o in
        let r := set_y3 r (y3 r + delta * 0.4) in
        let r := set_x3 r (x3 r + delta * 0.15) in
        set_rotation o r)) w
  | None => w
  end.

(* Update hero shader uniforms *)
Definition update_hero_uniforms (t : Q) (w : World) : World :=
  match heroShaderMaterial (stale (this w)) with
  | Some u =>
      match uTime u with
      | Some _ => upd_stale (fun st =>
                    set_heroShaderMaterial st (Some (set_uTime u (Some t)))) w
      | None => w
      end
  | None => w
  end.

(* Update wave shader uniforms *)
Definition update_wave_uniforms (t : Q) (w : World) : World :=
  match waveShaderMaterial (stale (this w)) with
  | Some u =>
      let u := match uTime u with Some _ => set_uTime u (Some t) | None => u end in
      let u := match uAmplitude u with
               | Some _ => set_uAmplitude u (Some (waveAmplitude (scroll (this w))))
               | None => u
               end in
      upd_stale (fun st => set_waveShaderMaterial st (Some u)) w
  | None => w
  end.

(* Chromatic aberration offset based on scroll velocity.  [uOffset.value.set]
   exists when the value is a Vector2; on a number the call is a TypeError. *)
Definition update_chromaticAberration (w : World) : Completion :=
  match chromaticAberrationPass (gfx (this w)) with
  | Some pass =>
      let vel := Math_abs (or_default (_scrollVelocity (scroll (this w))) 0) in
      match uOffset pass with
      | Some (UVector2 _) =>
          Normal (upd_gfx (fun g =>
            set_chromaticAberrationPass g
              (Some (shaderPass (Some (UVector2 (vector2 (vel * 0.01) (vel * 0.01))))))) w)
      | Some (UNumber _) => Throw "TypeError: uOffset.value.set is not a function" w
      | None => Normal w
      end
  | None => Normal w
  end.

(* Render via composer *)
Definition render (w : World) : World :=
  match composer (gfx (this w)) with
  | Some cp => gpu_call (ComposerRender (passes cp)) w
  | None => w
  end.

(** The first statements of [_tick]: request the next frame, keep its handle,
    read the clock and accumulate the elapsed time.  Returns [delta]. *)
Definition begin_tick (now : Q) (w : World) : Q * World :=
  let (id, w) := requestAnimationFrame w in
  let w := upd_this (fun e => set_animFrameId e (Some id)) w in
  let (delta, c) := getDelta now (clock (this w)) in
  let w := upd_this (fun e => set_clock e c) w in
  (delta, upd_this (fun e => set_time e (time e + delta)) w).

(** [_tick], given the reading [now] of the clock's time source. *)
Definition _tick (now : Q) (w : World) : Completion :=
  let (delta, w) := begin_tick now w in
  let t := time (this w) in
  let w := _updateCamera w in
  let w := _updateMouseLight w in
  let w := rotate_hero t w in
  let w := rotate_features delta w in
  let w := rotate_contactSphere delta w in
  let w := _updateOnScroll w in
  let w := _updateParticles t delta w in
  let w := update_hero_uniforms t w in
  let w := update_wave_uniforms t w in
  update_chromaticAberration w >>= fun w =>
  Normal (render w).

(** ** [destroy] *)

(** [scene.traverse] of line 1108 over the objects that carry a geometry or a
    material: the stored meshes, then the particle system. *)
Definition dispose_object (o : Object3D) (w : World) : World :=
  let w := match geometry o with
           | Some g => gpu_call (GeometryDispose g) w
           | None => w
           end in
  match material o with
  | Some m => gpu_call (MaterialDispose m) w
  | None => w
  end.

(** The blocks of [destroy], one definition per commented block. *)

(* Cancel render loop *)
Definition cancel_render_loop (w : World) : World :=
  if truthy_handle (_animFrameId (this w)) then
    match _animFrameId (this w) with
    | Some id => upd_this (fun e => set_animFrameId e None) (cancelAnimationFrame id w)
    | None => w
    end
  else w.

(* Remove event listeners: [this._onResize.bind(this)] is a new function
   object, [this._onMouseMove] is whatever that property holds *)
Definition remove_event_listeners (w : World) : World :=
  let bound := Bound_onResize (fn_next (env w)) in
  let w := upd_env (fun b => set_fn_next b (S (fn_next b))) w in
  let w := removeEventListener resize (Some bound) w in
  removeEventListener mousemove (_onMouseMove (stale (this w))) w.

(* Kill all ScrollTriggers *)
Definition kill_all_ScrollTriggers (w : World) : World :=
  upd_env (fun b => set_triggers b []) w.

(* Dispose renderer *)
Definition dispose_renderer (w : World) : World :=
  match renderer (gfx (this w)) with
  | Some _ =>
      let w := gpu_call RendererDispose w in
      if canvas_attached (env w)
      then gpu_call CanvasRemoved (upd_env (fun b => set_canvas_attached b false) w)
      else w
  | None => w
  end.

(* Dispose composer *)
Definition dispose_composer (w : World) : World :=
  match composer (gfx (this w)) with
  | Some _ => gpu_call (RenderTargetDispose 2) (gpu_call (RenderTargetDispose 1) w)
  | None => w
  end.

(* Dispose scene objects *)
Definition dispose_scene (w : World) : World :=
  if scene (gfx (this w)) then
    let w := fold_left (fun w' o => dispose_object o w') (heap w) w in
    match particleSystem (gfx (this w)) with
    | Some _ => gpu_call ParticleMaterialDispose (gpu_call ParticleGeometryDispose w)
    | None => w
    end
  else w.

Definition destroy (w : World) : World :=
  let w := cancel_render_loop w in
  let w := remove_event_listeners w in
  let w := kill_all_ScrollTriggers w in
  let w := dispose_renderer w in
  let w := dispose_composer w in
  dispose_scene w.

(** ** The constructor *)

Definition no_meshes : Meshes := meshes_dict None [] None [] None None.
Definition no_graphics : Graphics :=
  graphics None false None None None None None None None None None None None None None.
Definition nothing_assigned : Unassigned :=
  unassigned None None None None None None None None None None None None.

(** The object as the first statements of the constructor leave it. *)
Definition new_object (canvas : Canvas) (win : Window) : Experience :=
  experience canvas
    (dims (innerWidth win) (innerHeight win))
    (vector2 0 0)
    (clock_state false 0)
    0
    (scrollState 0 0%Z 0 [0; 0; 0; 0] 0 1 None None)
    no_meshes no_graphics None nothing_assigned.

(** The boot sequence of the constructor, up to the timer that defers
    [_initScrollAnimations], in browser [b] on a fresh store. *)
Definition boot (canvas : Canvas) (b : Browser) : Completion :=
  let w := world (new_object canvas (window b)) [] b in
  _initRenderer w >>= fun w =>
  let w := _initCamera w in
  let w := _initLights w in
  let w := _initGeometries w in
  let w := _initShaders w in
  let w := _initParticleSystem w in
  let w := _initPostProcessing w in
  let w := _initEventListeners w in
  (* Allow DOM / GSAP ScrollTrigger to settle before wiring scroll *)
  Normal (setTimeout CallInitScrollAnimations w).

(** [new Experience(canvas)]: the boot sequence, then the first [_tick], which
    starts the render loop.  [now] is what the clock's time source reads
    during that tick. *)
Definition constructor (canvas : Canvas) (now : Q) (b : Browser) : Completion :=
  boot canvas b >>= _tick now.

(** A page on which nothing has been registered yet. *)
Definition page (win : Window) (gl : bool) (m : Modules) : Browser :=
  browser win gl m [] [] 1 [] [] [] [] [] 0 true.

(* ================================================================== *)
(** * What can happen to a running engine *)
(* ================================================================== *)

Inductive Event :=
| Frame (now : Q)                   (* the browser runs a requested animation frame *)
| Resized (win : Window)            (* the window changes and fires [resize] *)
| MouseMoved (clientX clientY : Q)  (* the pointer moves *)
| Scrolled (win : Window)           (* the page scrolls and fires [scroll] *)
| TimerFired                        (* the 100 ms timer of the constructor elapses *)
| TriggerUpdate (t : Trigger) (progress : Q)  (* ScrollTrigger calls [onUpdate] *)
| TriggerEnter (t : Trigger)        (* ScrollTrigger calls [onEnter] *)
| Destroy                           (* the owner calls [destroy()] *)
| CallTick (now : Q).               (* [_tick()] is called directly *)

(** An exception that escapes a callback is reported and the state it left
    behind stays. *)
Definition settle (c : Completion) : World :=
  match c with
  | Normal w => w
  | Throw e w => log (Error e) w
  end.

Definition step (e : Event) (w : World) : World :=
  match e with
  | Frame now =>
      match raf_pending (env w) with
      | [] => w
      | id :: rest =>
          settle (_tick now (upd_env (fun b => set_raf_pending b rest) w))
      end
  | Resized win =>
      dispatch resize 0 0 (upd_env (fun b => set_window b win) w)
  | MouseMoved clientX clientY => dispatch mousemove clientX clientY w
  | Scrolled win =>
      dispatch scroll_event 0 0 (upd_env (fun b => set_window b win) w)
  | TimerFired =>
      match timers (env w) with
      | [] => w
      | CallInitScrollAnimations :: rest =>
          settle (_initScrollAnimations (upd_env (fun b => set_timers b rest) w))
      end
  | TriggerUpdate t progress =>
      if registered t w then onUpdate t progress w else w
  | TriggerEnter t =>
      if registered t w then onEnter t w else w
  | Destroy => destroy w
  | CallTick now => settle (_tick now w)
  end.

Definition run (es : list Event) (w : World) : World :=
  fold_left (fun w' e => step e w') es w.

(** The worlds an engine can be in: what the constructor leaves on a fresh
    page, and whatever events make of it. *)
Inductive reachable : World -> Prop :=
| reachable_new : forall canvas now win gl m,
    reachable (world_of (constructor canvas now (page win gl m)))
| reachable_step : forall e w, reachable w -> reachable (step e w).

(** The store [_initGeometries] builds: five groups and eleven meshes. *)
Definition scene_store : Store :=
  heap (_initGeometries (world (new_object 0%nat (window_state 0 0 0 0 0)) []
                               (page (window_state 0 0 0 0 0) true
                                     (modules_loaded false false false false)))).

(** The five section groups, in order. *)
Definition section_groups (w : World) : list (option ref) :=
  let g := gfx (this w) in
  [heroGroup g; featuresGroup g; showcaseGroup g; statsGroup g; contactGroup g].

Definition group_y (h : Store) (r : option ref) : option Q :=
  match r with
  | Some r' => option_map (fun o => y3 (position o)) (deref h r')
  | None => None
  end.

(** The references held by [this.meshes]. *)
Definition mesh_refs (m : Meshes) : list ref :=
  let opt (r : option ref) := match r with Some x => [x] | None => [] end in
  opt (hero m) ++ features m ++ opt (showcase m) ++ bars m
  ++ opt (contactPoints m) ++ opt (contactSphere m).

(** The scrubbed targets. *)
Record Targets := targets {
  target_waveAmplitude : Q;
  target_barHeights : list Q;
  target_contactSphereScale : Q
}.

Definition targets_of (w : World) : Targets :=
  let s := scroll (this w) in
  targets (waveAmplitude s) (barHeights s) (contactSphereScale s).

(** ScrollTrigger reporting one scroll position: every registered trigger is
    updated, in registration order, with its own progress [p t] (the position
    of the scroll offset inside that trigger's window). *)
Definition scroll_to (p : Trigger -> Q) (w : World) : World :=
  run (map (fun t => TriggerUpdate t (p t)) (triggers (env w))) w.

(** A scroll position as ScrollTrigger reports it to the triggers: the
    full-document ones are at the end (progress 1) while the contact
    trigger, whose window closes only when the bottom of [.section-contact]
    is 20% down the viewport, is half way. *)
Definition bottom_with_contact_half_way (t : Trigger) : Q :=
  match t with
  | ContactTrigger => 0.5
  | _ => 1
  end.

(** Scrolling through a sequence of positions. *)
Definition drive (ps : list (Trigger -> Q)) (w : World) : World :=
  fold_left (fun w' p => scroll_to p w') ps w.

(** [n] calls of [_tick] in a row, call [k] reading the time [now k]; a call
    that throws leaves the state it reached. *)
Fixpoint ticks (now : nat -> Q) (n : nat) (w : World) : World :=
  match n with
  | O => w
  | S n' => world_of (_tick (now n') (ticks now n' w))
  end.

Fixpoint power (q : Q) (n : nat) : Q :=
  match n with
  | O => 1
  | S n' => q * power q n'
  end.

Definition camera_x (w : World) : option Q :=
  option_map (fun c => x3 (camera_position c)) (camera (gfx (this w))).
Definition camera_y (w : World) : option Q :=
  option_map (fun c => y3 (camera_position c)) (camera (gfx (this w))).
Definition light_x (w : World) : option Q :=
  option_map (fun l => x3 (light_position l)) (mouseLight (gfx (this w))).

Definition renders (w : World) : nat :=
  List.length (filter (fun c => match c with ComposerRender _ => true | _ => false end)
                      (gpu (env w))).

(* ================================================================== *)
(** * Loading the module *)
(* ================================================================== *)

(** What decides whether [experience.js] can be evaluated at all: for each
    method of the class, whether it is declared [async] and how many [await]
    expressions its own body holds.  In module code [await] is a reserved word
    and an [await] expression outside an async function body is an early
    (parse-time) error of the whole module. *)
Module Syntax.

Inductive FunctionKind := Plain | Async.

Record MethodDecl := method {
  method_name : string;
  kind : FunctionKind;
  awaits : nat
}.

Definition Experience_class : list MethodDecl :=
  [ method "constructor" Plain 0;
    method "_initRenderer" Plain 0;
    method "_initCamera" Plain 0;
    method "_initLights" Plain 0;
    method "_initGeometries" Plain 0;
    method "_initEventListeners" Plain 0;
    method "_getTorusVertexShader" Plain 0;
    method "_getTorusFragmentShader" Plain 0;
    method "_getWaveVertexShader" Plain 0;
    method "_getWaveFragmentShader" Plain 0;
    method "_getParticleVertexShader" Plain 0;
    method "_getParticleFragmentShader" Plain 0;
    method "_initShaders" Plain 0;
    method "_initParticleSystem" Plain 0;
    method "_initPostProcessing" Plain 4;
    method "_initScrollAnimations" Plain 0;
    method "_updateOnScroll" Plain 0;
    method "_updateParticles" Plain 0;
    method "_updateCamera" Plain 0;
    method "_updateMouseLight" Plain 0;
    method "_tick" Plain 0;
    method "_onResize" Plain 0;
    method "destroy" Plain 0 ].

Definition early_error (m : MethodDecl) : bool :=
  match kind m with
  | Plain => (0 <? awaits m)%nat
  | Async => false
  end.

Inductive Loaded :=
| Evaluated
| SyntaxError (in_method : string).

Definition load (class : list MethodDecl) : Loaded :=
  match find early_error class with
  | Some m => SyntaxError (method_name m)
  | None => Evaluated
  end.

Definition experience_js : Loaded := load Experience_class.

(** [main.js] imports the class statically: when [experience.js] does not
    load, neither does [main.js], and no [new Experience(canvas)] is ever
    evaluated. *)
Inductive Construction :=
| ModuleNotLoaded (in_method : string)
| Ran (c : Completion).

Definition new_Experience (canvas : Canvas) (now : Q) (b : Browser) : Construction :=
  match experience_js with
  | SyntaxError m => ModuleNotLoaded m
  | Evaluated => Ran (constructor canvas now b)
  end.

Definition completes_normally (c : Construction) : bool :=
  match c with
  | Ran (Normal _) => true
  | _ => false
  end.

End Syntax.

(* ================================================================== *)
(** * Particle buffer generation *)
(* ================================================================== *)

(** Binary floating-point numbers as the reals they denote, with the
    rounding of IEEE 754.  Infinities, NaN and the sign of zero are not
    represented. *)
Module Float.

Import Reals.
Local Open Scope R_scope.

(** [2^e] for an integer exponent. *)
Definition pow2 (e : Z) : R := powerRZ 2 e.

(** The binade of a real [x <> 0]: the integer [m] with
    [2^(m-1) <= |x| < 2^m]. *)
Definition mag (x : R) : Z := up (ln (Rabs x) / ln 2).

(** The nearest integer, a tie going to the even one. *)
Definition rne (t : R) : Z :=
  let f := Zfloor t in
  match total_order_T (t - IZR f) (1 / 2) with
  | inleft (left _) => f
  | inleft (right _) => if Z.even f then f else (f + 1)%Z
  | inright _ => (f + 1)%Z
  end.

(** IEEE 754 roundTiesToEven into the binary format with [prec] significant
    bits and least exponent [emin] (gradual underflow).  Overflow is left
    out: no number of the particle loop reaches 16. *)
Definition round (prec emin : Z) (x : R) : R :=
  let e := Z.max (mag x - prec) emin in
  IZR (rne (x * pow2 (- e))) * pow2 e.

(** The numbers of the format. *)
Definition representable (prec emin : Z) (x : R) : Prop :=
  exists m e : Z, x = IZR m * pow2 e /\ (Z.abs m < 2 ^ prec)%Z /\ (emin <= e)%Z.

(** A JavaScript Number is a binary64; a [Float32Array] element a binary32. *)
Definition binary64 : R -> R := round 53 (-1074).
Definition binary32 : R -> R := round 24 (-149).
Definition is_binary64 : R -> Prop := representable 53 (-1074).
Definition is_binary32 : R -> Prop := representable 24 (-149).

End Float.

(** The loop of [_initParticleSystem] (lines 656-697).  Every arithmetic
    operation rounds its exact result to binary64 and every store into a
    [Float32Array] rounds to binary32.  [Math.random()] is a parameter: the
    [k]-th call of the run returns [random k]; so is the host's [Math.cos]
    and [Math.sin]. *)
Module Particles.

Import Reals Float.
Local Open Scope R_scope.

Definition PI64 : R := Q2R Math_PI.     (* Math.PI *)
Definition floorR (x : R) : Z := Int_part x.   (* Math.floor *)

(** The arithmetic of Numbers: the exact result, rounded to binary64. *)
Definition mul (a b : R) : R := binary64 (a * b).
Definition add (a b : R) : R := binary64 (a + b).
Definition sub (a b : R) : R := binary64 (a - b).
Definition div (a b : R) : R := binary64 (a / b).

Notation "a [*] b" := (mul a b) (at level 40, left associativity).
Notation "a [/] b" := (div a b) (at level 40, left associativity).
Notation "a [+] b" := (add a b) (at level 50, left associativity).
Notation "a [-] b" := (sub a b) (at level 50, left associativity).

(** [Math.sqrt] is the correctly rounded square root. *)
Definition Math_sqrt (x : R) : R := binary64 (sqrt x).

(** [Math.cos] and [Math.sin] are implementation-approximated: what they
    return is the host's choice. *)
Record Host := host { Math_cos : R -> R; Math_sin : R -> R }.

(** A host whose cosine and sine are off by at most [2^-52], which is one
    unit in the last place of a Number between 1 and 2. *)
Definition accurate (h : Host) : Prop :=
  forall x, Rabs (Math_cos h x - cos x) <= pow2 (-52)
            /\ Rabs (Math_sin h x - sin x) <= pow2 (-52).

(** The host with correctly rounded cosine and sine. *)
Definition correctly_rounded : Host :=
  host (fun x => binary64 (cos x)) (fun x => binary64 (sin x)).

Record Color := color { color_r : R; color_g : R; color_b : R }.

(** The literals 0.8 and 0.6 are no binary64 numbers and denote the nearest
    one; the other literals of the method are exact. *)
Definition palette : list Color :=
  [color 0.5 0.0 (binary64 0.8); color 0.0 0.5 1.0;
   color 1.0 0.0 (binary64 0.6); color 1.0 1.0 1.0].

Definition arms : R := 3.

(** A typed array has a fixed length and starts zero-filled; a store past
    its end is ignored. *)
Definition Float32Array (n : nat) : list R := repeat 0 n.

Fixpoint set_nth (k : nat) (v : R) (a : list R) : list R :=
  match a, k with
  | [], _ => []
  | _ :: a', O => v :: a'
  | x :: a', S k' => x :: set_nth k' v a'
  end.

(** [a[k] = v] on a [Float32Array]: the Number is converted to the nearest
    binary32. *)
Definition store (k : nat) (v : R) (a : list R) : list R :=
  set_nth k (binary32 v) a.

Record Buffers := buffers {
  positions : list R;
  scales : list R;
  randomness : list R;
  phases : list R;
  colors : list R
}.

Section Generation.

Variable h : Host.
Variable random : nat -> R.

(** Iteration [i] of the loop; its ten calls of [Math.random] are the
    calls [10 i] to [10 i + 9] of the run, in source order. *)
Definition body (i : nat) (bf : Buffers) : Buffers :=
  let u (k : nat) := random (10 * i + k)%nat in
  let i3 := (i * 3)%nat in
  let r := Math_sqrt (u 0%nat) [*] 5.0 in
  let armIndex := IZR (floorR (u 1%nat [*] arms)) in
  let armOffset := (armIndex [/] arms) [*] PI64 [*] 2.0 in
  let theta := u 2%nat [*] PI64 [*] 2.0 [+] armOffset [+] r [*] 0.5 in
  let y := (u 3%nat [-] 0.5) [*] 2.0 in
  let positions :=
    store (i3 + 2) (Math_sin h theta [*] r)
      (store (i3 + 1) y (store i3 (Math_cos h theta [*] r) (positions bf))) in
  let scales := store i (u 4%nat [*] 1.5 [+] 0.5) (scales bf) in
  let randomness :=
    store (i3 + 2) ((u 7%nat [-] 0.5) [*] 2.0)
      (store (i3 + 1) ((u 6%nat [-] 0.5) [*] 2.0)
        (store i3 ((u 5%nat [-] 0.5) [*] 2.0) (randomness bf))) in
  let phases := store i (u 8%nat [*] PI64 [*] 2.0) (phases bf) in
  (* with [random] a Number below 1 the index is one of 0..3 *)
  let colorChoice :=
    nth (Z.to_nat (floorR (u 9%nat [*] INR (List.length palette)))) palette
        (color 0 0 0) in
  let colors :=
    store (i3 + 2) (color_b colorChoice)
      (store (i3 + 1) (color_g colorChoice)
        (store i3 (color_r colorChoice) (colors bf))) in
  buffers positions scales randomness phases colors.

(** [for (let i = i0; i < i0 + n; i++) body] *)
Fixpoint loop (i n : nat) (bf : Buffers) : Buffers :=
  match n with
  | O => bf
  | S n' => loop (S i) n' (body i bf)
  end.

(** The radius and the angle drawn by iteration [i]. *)
Definition radius (i : nat) : R := Math_sqrt (random (10 * i + 0)) [*] 5.0.
Definition angle (i : nat) : R :=
  random (10 * i + 2) [*] PI64 [*] 2.0
  [+] (IZR (floorR (random (10 * i + 1) [*] arms)) [/] arms) [*] PI64 [*] 2.0
  [+] radius i [*] 0.5.

Definition generate (count : nat) : Buffers :=
  loop 0 count
    (buffers (Float32Array (count * 3)) (Float32Array count)
             (Float32Array (count * 3)) (Float32Array count)
             (Float32Array (count * 3))).

End Generation.

Definition same_lengths (bf bf' : Buffers) : Prop :=
  List.length (positions bf') = List.length (positions bf)
  /\ List.length (scales bf') = List.length (scales bf)
  /\ List.length (randomness bf') = List.length (randomness bf)
  /\ List.length (phases bf') = List.length (phases bf)
  /\ List.length (colors bf') = List.length (colors bf).

Definition count : nat := N.to_nat particle_count.
Definition R_max : R := 5.

(** Particle [i] of a position buffer: its X and Z coordinates. *)
Definition X (bf : Buffers) (i : nat) : R := nth (i * 3) (positions bf) 0.
Definition Z (bf : Buffers) (i : nat) : R := nth (i * 3 + 2) (positions bf) 0.

(** The draws of an iteration that ends outside the disk: [Math.random]
    returns [1 - 2^-30] first and 0 afterwards. *)
Definition edge_stream (k : nat) : R :=
  match k with
  | O => 1 - pow2 (-30)
  | _ => 0
  end.

(** The radius and the angle of its first iteration. *)
Definition edge_radius : R := 10737418235 * / 2 ^ 31.
Definition edge_angle : R := 10737418235 * / 2 ^ 32.

End Particles.

(* ================================================================== *)
(** * Invariants of a running engine *)
(* ================================================================== *)

Definition is_some {A : Type} (o : option A) : bool :=
  match o with Some _ => true | None => false end.

(** The triggers [_initScrollAnimations] registers when the guarded blocks
    are skipped. *)
Definition scrubbed_triggers : list Trigger :=
  [CameraTrigger; ShowcaseTrigger; ContactTrigger].

Definition built_meshes : Meshes :=
  meshes_dict (Some 1%nat) [3; 4; 5]%nat (Some 7%nat) [9; 10; 11; 12]%nat
              (Some 14%nat) (Some 15%nat).

Definition built_groups : list (option ref) :=
  [Some 0; Some 2; Some 6; Some 8; Some 13]%nat.

(** The part of a world that neither a frame nor an input event changes. *)
Definition core (w : World) :=
  (stale (this w), heap w,
   (torusUniforms (gfx (this w)), waveUniforms (gfx (this w))),
   (tweens (env w), barHeights (scroll (this w))),
   (section_groups w, meshes (this w)),
   (is_some (camera (gfx (this w))), is_some (mouseLight (gfx (this w))),
    is_some (particleSystem (gfx (this w))))).

(** The pending timer and the registered triggers. *)
Definition wiring (w : World) := (timers (env w), triggers (env w)).

(** The renderer was created and the scene was built. *)
Definition alive (w : World) : Prop :=
  heap w = scene_store
  /\ section_groups w = built_groups
  /\ meshes (this w) = built_meshes
  /\ is_some (camera (gfx (this w))) = true
  /\ is_some (mouseLight (gfx (this w))) = true
  /\ is_some (particleSystem (gfx (this w))) = true.

Definition invariant (w : World) : Prop :=
  stale (this w) = nothing_assigned
  /\ torusUniforms (gfx (this w)) = None
  /\ waveUniforms (gfx (this w)) = None
  /\ tweens (env w) = []
  /\ barHeights (scroll (this w)) = [0; 0; 0; 0]
  /\ (wiring w = ([CallInitScrollAnimations], [])
      \/ wiring w = ([], [])
      \/ wiring w = ([], scrubbed_triggers))
  /\ (alive w \/ (heap w = [] /\ wiring w = ([], []))).

(** The part of [_updateParticles] that runs while [particleShaderMaterial]
    is unassigned: the slow rotation. *)
Definition spin_particles (delta : Q) (w : World) : World :=
  match particleSystem (gfx (this w)) with
  | Some ps =>
      let r := points_rotation ps in
      let r := set_y3 r (y3 r + delta * 0.05) in
      let r := set_x3 r (x3 r + delta * 0.02) in
      upd_gfx (fun g =>
        set_particleSystem g (Some (points (points_position ps) r (points_count ps)))) w
  | None => w
  end.

(** A world transformer that leaves a projection of the world alone. *)
Definition keeps {A : Type} (proj : World -> A) (f : World -> World) : Prop :=
  forall w, proj (f w) = proj w.

Definition steady (f : World -> World) : Prop :=
  keeps core f /\ keeps wiring f.

(** What a tick leaves alone in the engine object and the scene: everything
    but the camera position, the light position, the rotation of the particle
    system, the clock, the elapsed time, the frame handle and the offset
    uniform of the chromatic pass. *)
Definition outside_tick (w : World) :=
  let e := this w in
  let g := gfx e in
  (heap w, (canvas e, dimensions e, mouse e, scroll e, meshes e, stale e),
   (renderer g, scene g, section_groups w, composer g),
   (torusUniforms g, waveUniforms g, particleUniforms g),
   (option_map aspect (camera g),
    option_map (fun p => (points_position p, points_count p)) (particleSystem g),
    is_some (mouseLight g), is_some (chromaticAberrationPass g))).

(** The frame handle and the clock, which a tick writes first. *)
Definition bookkeeping (w : World) := (_animFrameId (this w), clock (this w)).

(** No stored object carries one of the custom shader materials. *)
Definition no_shader_material (h : Store) : Prop :=
  forall r o p, deref h r = Some o -> material o <> Some (ShaderMaterial p).

(* ================================================================== *)
(** * Example worlds *)
(* ================================================================== *)

(** An 800 x 600 window over a 3000 pixel document. *)
Definition example_window : Window := window_state 800 600 1 0 3000.

Definition no_modules : Modules := modules_loaded false false false false.

(** The engine just constructed on a page where the post-processing modules
    could not be imported. *)
Definition example_world : World :=
  world_of (constructor 1%nat 0 (page example_window true no_modules)).

(** The same engine once the timer has wired the scroll triggers. *)
Definition wired_world : World := step TimerFired example_world.

Definition some_module_missing (m : Modules) : bool :=
  negb (mod_EffectComposer m && mod_RenderPass m
        && mod_UnrealBloomPass m && mod_ShaderPass m).

(** Distance between the first and the last section group. *)
Definition section_span (w : World) : option Q :=
  match group_y (heap w) (heroGroup (gfx (this w))),
        group_y (heap w) (contactGroup (gfx (this w))) with
  | Some top, Some bottom => Some (top - bottom)
  | _, _ => None
  end.

(** The wave amplitude the showcase trigger sets at progress [p]. *)
Definition scrubbed_wave (p : Q) : Q :=
  if Qlt_le_dec p 0.5 then interpolate 0 0.5 (p * 2)
  else interpolate 0.5 0 ((p - 0.5) * 2).

(** The camera, the pointer and the light: what the damped follow reads and
    writes. *)
Definition pose (w : World) :=
  (mouse (this w), camera (gfx (this w)), mouseLight (gfx (this w))).

(** The number of frames rendered, for an engine that has no composer. *)
Definition rendering (w : World) : option nat :=
  match composer (gfx (this w)) with
  | Some _ => None
  | None => Some (renders w)
  end.

Definition is_render (c : GpuCall) : bool :=
  match c with ComposerRender _ => true | _ => false end.

Definition plain_material (o : Object3D) : bool :=
  match material o with
  | Some (ShaderMaterial _) => false
  | _ => true
  end.

(** One damped step of factor [k] towards [target]. *)
Definition approach (target k x : Q) : Q := x + (target - x) * k.

(** The sample point of the divergence check. *)
Definition sample_point : Glsl.vec3 := vector3 2.3 1.1 0.6.

(** The pose after the two damped updates, from the pose before. *)
Definition follow (p : Vector2 * option Camera * option PointLight) :=
  let '(m, c, l) := p in
  (m,
   option_map (fun c =>
     let p := camera_position c in
     let p := set_x3 p (approach (x2 m * 0.5) 0.05 (x3 p)) in
     let p := set_z3 p (approach (10 + y2 m * -0.5) 0.05 (z3 p)) in
     camera_at p (aspect c)) c,
   option_map (fun l =>
     let p := light_position l in
     let p := set_x3 p (approach (x2 m * 8) 0.08 (x3 p)) in
     let p := set_y3 p (approach (y2 m * 8) 0.08 (y3 p)) in
     let p := set_z3 p (approach 5 0.08 (z3 p)) in
     light_at p) l).

(** The wired engine with the pointer moved to the top-right corner. *)
Definition pointer_world : World := step (MouseMoved 800 0) wired_world.
(** The arrow functions of [_initEventListeners], as opposed to the functions
    [bind] makes. *)
Definition is_arrow (cb : Callback) : bool :=
  match cb with Bound_onResize _ => false | _ => true end.

Definition listeners_of (w : World) := listeners (env w).

(* ================================================================== *)
(** * Further notions about a running engine *)
(* ================================================================== *)

(** The three registrations of [_initEventListeners], in order. *)
Definition window_listeners : list (EventType * Callback) :=
  [(resize, ResizeArrow); (mousemove, MouseMoveArrow); (scroll_event, ScrollArrow)].

(** What a tick does before it reaches the chromatic pass, in a world where
    the guarded blocks are skipped: the frame request, the clock, the two
    damped follows and the slow rotation of the particle system. *)
Definition tick_prefix (now : Q) (w : World) : World :=
  let (delta, w1) := begin_tick now w in
  spin_particles delta (_updateMouseLight (_updateCamera w1)).

(** The browser side of a world, apart from the animation-frame queue. *)
Definition env_outside_tick (w : World) :=
  let b := env w in
  (window b, webgl b, modules b, listeners b, (timers b, triggers b, tweens b),
   (console b, gpu b), (fn_next b, canvas_attached b)).

(** What no event changes once the constructor has returned or thrown: the
    registered listeners, which graphics objects exist, the passes of the
    composer and the chromatic pass. *)
Definition fixtures (w : World) :=
  let g := gfx (this w) in
  (listeners (env w), scene g, is_some (renderer g), is_some (camera g),
   option_map passes (composer g), chromaticAberrationPass g).

(** The message of the exception a tick ends with when the chromatic pass
    exists. *)
Definition set_is_not_a_function : string :=
  "TypeError: uOffset.value.set is not a function".

(** The engine either booted ([_initRenderer] got its context and the rest of
    the boot sequence ran) or stopped at [_initRenderer]; the compositing
    pipeline is absent or complete, and when it is complete the offset uniform
    of the chromatic pass holds the number that [ShaderPass] cloned. *)
Definition established (w : World) : Prop :=
  let g := gfx (this w) in
  ((listeners (env w) = window_listeners /\ scene g = true
    /\ is_some (renderer g) = true /\ is_some (camera g) = true)
   \/ (listeners (env w) = [] /\ scene g = false
       /\ is_some (renderer g) = false /\ is_some (camera g) = false))
  /\ ((option_map passes (composer g) = None /\ chromaticAberrationPass g = None)
      \/ (is_some (option_map passes (composer g)) = true
          /\ chromaticAberrationPass g = Some (shaderPass (Some (UNumber 0.003))))).

(** The GPU resources one scene object holds, as [destroy] releases them. *)
Definition disposals_of (o : Object3D) : list GpuCall :=
  match geometry o with Some g => [GeometryDispose g] | None => [] end
  ++ match material o with Some m => [MaterialDispose m] | None => [] end.

(** The calls [destroy] makes on the renderer, the canvas element and the GPU
    resources of a world, in order. *)
Definition released (w : World) : list GpuCall :=
  let g := gfx (this w) in
  match renderer g with
  | Some _ => RendererDispose :: (if canvas_attached (env w) then [CanvasRemoved] else [])
  | None => []
  end
  ++ match composer g with
     | Some _ => [RenderTargetDispose 1; RenderTargetDispose 2]
     | None => []
     end
  ++ (if scene g
      then flat_map disposals_of (heap w)
           ++ match particleSystem g with
              | Some _ => [ParticleGeometryDispose; ParticleMaterialDispose]
              | None => []
              end
      else []).

Definition gpu_of (w : World) := gpu (env w).

(** What only a tick (and, for the frame queue, [destroy]) writes: the
    elapsed time, the clock, the frame handle and the frame queue, the light,
    the particle system, and the X and Z coordinates of the camera. *)
Definition between_frames (w : World) :=
  let e := this w in
  let g := gfx e in
  (time e, clock e, _animFrameId e,
   (particleSystem g, mouseLight g,
    option_map (fun c => (x3 (camera_position c), z3 (camera_position c))) (camera g)),
   (raf_pending (env w), raf_next (env w))).

(** Events the browser and GSAP deliver, as opposed to a direct call of a
    method by the owner of the engine. *)
Definition is_input (e : Event) : bool :=
  match e with
  | Resized _ | MouseMoved _ _ | Scrolled _ | TimerFired
  | TriggerUpdate _ _ | TriggerEnter _ => true
  | Frame _ | Destroy | CallTick _ => false
  end.

(** Everything but a direct call of [_tick]. *)
Definition is_direct_tick (e : Event) : bool :=
  match e with CallTick _ => true | _ => false end.

(** The worlds an engine reaches when [_tick] is only ever called by the
    constructor and by the browser's animation frames. *)
Inductive driven : World -> Prop :=
| driven_new : forall canvas now win gl m,
    driven (world_of (constructor canvas now (page win gl m)))
| driven_step : forall e w,
    driven w -> is_direct_tick e = false -> driven (step e w).

(** At most one animation frame is pending, and the engine holds its
    handle. *)
Definition on_schedule (w : World) : Prop :=
  (1 <= raf_next (env w))%nat
  /\ (raf_pending (env w) = []
      \/ exists id, raf_pending (env w) = [S id] /\ _animFrameId (this w) = Some (S id)).


(** A world in which the render loop is stopped: no frame is pending and the
    engine holds no handle. *)
Definition stopped (w : World) : Prop :=
  raf_pending (env w) = [] /\ truthy_handle (_animFrameId (this w)) = false.

(** The sizes the engine works with: the cached dimensions, and what the
    renderer, the camera and the composer were last given. *)
Definition viewport (w : World) :=
  let g := gfx (this w) in
  (dimensions (this w), renderer g, option_map aspect (camera g),
   option_map composer_size (composer g)).

(** The renderer, the camera and the composer agree with the cached
    dimensions, and the pixel ratio is capped. *)
Definition consistent_viewport (w : World) : Prop :=
  let d := dimensions (this w) in
  let g := gfx (this w) in
  match renderer g with
  | Some r => renderer_size r = (width d, height d) /\ pixelRatio r <= 2
  | None => True
  end
  /\ match option_map aspect (camera g) with
     | Some a => a = width d / height d
     | None => True
     end
  /\ match option_map composer_size (composer g) with
     | Some s => s = (width d, height d)
     | None => True
     end.

(** A reference to a mesh: an object of the store with a geometry and a
    material.  A reference to a group: an object with neither. *)
Definition is_mesh (h : Store) (r : ref) : bool :=
  match deref h r with
  | Some o => is_some (geometry o) && is_some (material o)
  | None => false
  end.

Definition is_group (h : Store) (r : option ref) : bool :=
  match r with
  | Some r' =>
      match deref h r' with
      | Some o => negb (is_some (geometry o)) && negb (is_some (material o))
      | None => false
      end
  | None => false
  end.

(** The references the engine object holds into the store: the section
    groups, then the meshes of [this.meshes]. *)
Definition scene_refs (w : World) : list ref :=
  flat_map (fun r => match r with Some x => [x] | None => [] end) (section_groups w)
  ++ mesh_refs (meshes (this w)).

(** The scene was built by [_initGeometries], or the constructor stopped
    before it. *)
Definition built (w : World) : Prop :=
  (scene (gfx (this w)) = true /\ alive w)
  \/ (scene (gfx (this w)) = false /\ heap w = [] /\ meshes (this w) = no_meshes
      /\ section_groups w = [None; None; None; None; None]).

(** The exception a call ended with, if any. *)
Definition thrown (c : Completion) : option string :=
  match c with
  | Normal _ => None
  | Throw e _ => Some e
  end.

(** The message of the exception [new WebGLRenderer] throws when no WebGL
    context can be created. *)
Definition no_webgl_context : string := "Error creating WebGL context".


(** The range of the hash table of the noise kernel. *)
Definition in_table (c : Q) : Prop := 0 <= c /\ c < 289.

(** ** The guarded blocks, for an owner who assigns their properties *)

(** Two objects that differ in their scale at most. *)
Definition same_but_scale (o o' : Object3D) : Prop :=
  position o' = position o /\ rotation o' = rotation o
  /\ geometry o' = geometry o /\ material o' = material o.

(** The callback of [this.statsBars.forEach] in [_updateOnScroll] (lines
    941-946). *)
Definition grow_bar (bar : ref) (i : nat) (w : World) : World :=
  let h := or_default (nth_error (barHeights (scroll (this w))) i) 0 in
  upd_heap (modify bar (fun o => set_scale o (set_y3 (scale o) (Math_max 0.001 h)))) w.

(** The feature triggers registered for the meshes [ms], numbered from 0. *)
Definition feature_triggers (ms : list ref) : list Trigger :=
  mapi_from 0 (fun mesh i => FeatureTrigger i mesh (nth i feature_offsets origin)) ms.

(** The message of the exception of reading [from.x] past the third entry of
    [offsets]. *)
Definition from_is_undefined : string := "TypeError: from is undefined".

(** A world whose never-assigned properties were set from outside. *)
Definition with_stale (st : Unassigned) (w : World) : World :=
  upd_this (fun e => set_stale e st) w.

(** The wired engine after [statsBars] was pointed at [this.meshes.bars]. *)
Definition bars_assigned : World :=
  with_stale
    (unassigned None None None None None (Some (bars (meshes (this wired_world))))
                None None None None None None)
    wired_world.

(** The booted engine, before the timer, after [featuresMeshes] was given
    four meshes: the three feature meshes and the showcase plane. *)
Definition four_features_assigned : World :=
  with_stale
    (unassigned None None None (Some [3; 4; 5; 7]%nat) None None
                None None None None None None)
    example_world.

(** [_onResize] (lines 1059-1076).  It keeps the window size in the own
    properties [this.width] and [this.height], which no other method reads;
    they are returned beside the world. *)
Definition _onResize (w : World) : Dimensions * World :=
  let win := window (env w) in
  let own := dims (innerWidth win) (innerHeight win) in
  let w :=
    match camera (gfx (this w)) with
    | Some c =>
        upd_gfx (fun g =>
          set_camera g (Some (camera_at (camera_position c) (width own / height own)))) w
    | None => w
    end in
  let w :=
    match renderer (gfx (this w)) with
    | Some _ =>
        upd_gfx (fun g =>
          set_renderer g
            (Some (webGLRenderer (width own, height own)
                                 (Math_min (devicePixelRatio win) 2)))) w
    | None => w
    end in
  let w :=
    match composer (gfx (this w)) with
    | Some cp =>
        upd_gfx (fun g =>
          set_composer g (Some (effectComposer (passes cp) (width own, height own)))) w
    | None => w
    end in
  (own, w).

(** The attributes of particle [i] in the generated buffers. *)
Module ParticleAttributes.

Import Reals Float Particles.
Local Open Scope R_scope.

Definition Y (bf : Buffers) (i : nat) : R := nth (i * 3 + 1) (positions bf) 0.
Definition aScale (bf : Buffers) (i : nat) : R := nth i (scales bf) 0.
Definition aPhase (bf : Buffers) (i : nat) : R := nth i (phases bf) 0.
Definition aRandomness (bf : Buffers) (i k : nat) : R := nth (i * 3 + k) (randomness bf) 0.
Definition aColor (bf : Buffers) (i : nat) : Color :=
  color (nth (i * 3) (colors bf) 0) (nth (i * 3 + 1) (colors bf) 0)
        (nth (i * 3 + 2) (colors bf) 0).

(** The palette entry iteration [j] draws (line 693). *)
Definition colorChoice (random : nat -> R) (j : nat) : Color :=
  nth (Z.to_nat (floorR (random (10 * j + 9)%nat [*] INR (List.length palette)))) palette
      (color 0 0 0).

(** A colour as the three elements of the [colors] buffer hold it. *)
Definition stored (c : Color) : Color :=
  color (binary32 (color_r c)) (binary32 (color_g c)) (binary32 (color_b c)).

(** The binary32 number nearest to [2 * Math.PI]; it lies above it. *)
Definition TAU32 : R := 13176795 * pow2 (-21).

End ParticleAttributes.

(* ================================================================== *)
(** * The page script *)
(* ================================================================== *)

(** [src/js/main.js], as its statements read.  The document is modelled by
    what the script looks up and adds: the element that
    [getElementById('loader')] finds or that [createLoader] makes, the canvas
    with id [webgl-canvas], and the style elements appended to the head.  An
    inline style is an association list whose first entry for a property is
    its current value. *)
Module Main.

Local Open Scope string_scope.

Definition Style := list (string * string).

(** [Object.assign(el.style, props)]: the properties are set in order. *)
Definition Object_assign (s : Style) (props : Style) : Style :=
  fold_left (fun acc kv => kv :: acc) props s.

Fixpoint getProperty (k : string) (s : Style) : option string :=
  match s with
  | [] => None
  | (k', v) :: s' => if String.eqb k k' then Some v else getProperty k s'
  end.

Inductive Tag := DIV | P.

Record Child := child {
  child_tag : Tag;
  child_text : string;
  child_style : Style
}.

(** The loader element.  [transitionend_once] counts the listeners that
    [fadeOutLoader] registered with [{ once: true }] and that have not run. *)
Record Loader := loader_element {
  loader_style : Style;
  loader_children : list Child;
  parentNode : bool;
  transitionend_once : nat
}.

Record Document := document {
  loader : option Loader;
  webgl_canvas : option Canvas;      (* getElementById('webgl-canvas') *)
  head_styles : list string          (* text of the style elements appended to the head *)
}.

(** [document.getElementById('loader')]: an element that is in the
    document. *)
Definition getElementById_loader (d : Document) : option Loader :=
  match loader d with
  | Some l => if parentNode l then Some l else None
  | None => None
  end.

Definition spinner : Child :=
  child DIV EmptyString
    (Object_assign []
       [("width", "48px"); ("height", "48px");
        ("border", "4px solid rgba(255,255,255,0.15)");
        ("borderTop", "4px solid #3498db");
        ("borderRadius", "50%");
        ("animation", "loaderSpin 0.9s linear infinite")]).

Definition label : Child :=
  child P "Loading..."
    (Object_assign []
       [("color", "#ffffff"); ("fontFamily", "system-ui, sans-serif");
        ("fontSize", "14px"); ("letterSpacing", "0.1em");
        ("margin", "0"); ("opacity", "0.7")]).

Definition loader_props : Style :=
  [("position", "fixed"); ("top", "0"); ("left", "0");
   ("width", "100%"); ("height", "100%"); ("background", "#000000");
   ("display", "flex"); ("alignItems", "center"); ("justifyContent", "center");
   ("zIndex", "9999"); ("transition", "opacity 0.8s ease-out");
   ("opacity", "1"); ("flexDirection", "column"); ("gap", "16px")].

Definition keyframes : string :=
  "@keyframes loaderSpin { to { transform: rotate(360deg); } }".

(** [createLoader()]: the loader it returns is the [loader] of the document
    it leaves. *)
Definition createLoader (d : Document) : Document :=
  match getElementById_loader d with
  | Some _ => d
  | None =>
      let l := loader_element (Object_assign [] loader_props) [spinner; label] true 0 in
      document (Some l) (webgl_canvas d) (head_styles d ++ [keyframes])
  end.

(** [fadeOutLoader(loader)], on the loader of the document. *)
Definition fadeOutLoader (d : Document) : Document :=
  match loader d with
  | Some l =>
      document
        (Some (loader_element (("opacity", "0") :: loader_style l) (loader_children l)
                              (parentNode l) (S (transitionend_once l))))
        (webgl_canvas d) (head_styles d)
  | None => d
  end.

(** The browser fires [transitionend] on the loader: every pending listener
    runs once and is dropped; the first one that finds a parent removes the
    element from it. *)
Definition transitionend (d : Document) : Document :=
  match loader d with
  | Some l =>
      match transitionend_once l with
      | O => d
      | S _ =>
          document (Some (loader_element (loader_style l) (loader_children l) false 0))
                   (webgl_canvas d) (head_styles d)
      end
  | None => d
  end.

Inductive Message :=
| DomReady                          (* ' DOM ready — initialising experience...' *)
| NoCanvasFound                     (* '[Experience] No canvas element found with id ...' *)
| CreatedSuccessfully               (* ' Experience created successfully.' *)
| AccessHint                        (* '  Access it via window.experience in the console.' *)
| FailedToInitialise (err : string).  (* '[Experience] Failed to initialise:', err *)

Inductive Line := console_log (m : Message) | console_error (m : Message).

(** The timer of the last statement of the handler (1500 ms). *)
Inductive PageTimer := FadeOut.

Record Page := page_state {
  dom : Document;
  output : list Line;                (* what the handler wrote to the console *)
  construction : option Completion;  (* how [new Experience(canvas)] ended, if it was reached *)
  window_experience : option World;  (* [window.experience] *)
  page_timers : list PageTimer
}.

(** The [DOMContentLoaded] handler, in browser [b]; [now] is what the clock
    of the engine reads during the constructor. *)
Definition on_DOMContentLoaded (now : Q) (d : Document) (b : Browser) : Page :=
  let out := [console_log DomReady] in
  let d := createLoader d in
  match webgl_canvas d with
  | None =>
      page_state (fadeOutLoader d) (out ++ [console_error NoCanvasFound]) None None []
  | Some canvas =>
      let c := constructor canvas now b in
      match c with
      | Normal w =>
          page_state d (out ++ [console_log CreatedSuccessfully; console_log AccessHint])
                     (Some c) (Some w) [FadeOut]
      | Throw err _ =>
          page_state d (out ++ [console_error (FailedToInitialise err)])
                     (Some c) None [FadeOut]
      end
  end.

(** The 1500 ms timer elapses. *)
Definition timer_elapsed (p : Page) : Page :=
  match page_timers p with
  | [] => p
  | FadeOut :: rest =>
      page_state (fadeOutLoader (dom p)) (output p) (construction p)
                 (window_experience p) rest
  end.

(** The browser state after the handler: the one the constructor left, when
    it was called. *)
Definition browser_after (b : Browser) (p : Page) : Browser :=
  match construction p with
  | Some c => env (world_of c)
  | None => b
  end.

(** A document with a canvas and no loader. *)
Definition example_document : Document := document None (Some 1%nat) [].

End Main.

(* ================================================================== *)
(** * Proofs *)
(* ================================================================== *)

Ltac break_match :=
  match goal with
  | |- context [match ?x with _ => _ end] => destruct x eqn:?
  end.

(** Reduction that leaves rational arithmetic folded. *)
Ltac norm :=
  cbn -[Qplus Qmult Qminus Qdiv Qopp Qinv Qabs Qfloor Qlt_le_dec Qeq_bool Qred].

Ltac norm_all :=
  cbn -[Qplus Qmult Qminus Qdiv Qopp Qinv Qabs Qfloor Qlt_le_dec Qeq_bool Qred] in *.

(** Case analysis on the innermost scrutinee first. *)
Ltac break_inner :=
  match goal with
  | |- context [match ?x with _ => _ end] =>
      lazymatch x with
      | context [match _ with _ => _ end] => fail
      | _ => destruct x eqn:?
      end
  end.

Ltac frame_by_cases :=
  let w := fresh "w" in
  intro w; cbv beta; unfold outside_tick, pose, rendering, renders, section_groups;
  norm; repeat (break_inner; norm);
  try discriminate;
  repeat match goal with H : ?x = _ |- context [?x] => rewrite H end;
  reflexivity.

(** ** World transformers that leave a projection alone *)

Lemma keeps_compose {A : Type} (proj : World -> A) f g :
  keeps proj f -> keeps proj g -> keeps proj (fun w => g (f w)).
Proof. intros Hf Hg w. now rewrite Hg, Hf. Qed.

Lemma keeps_fold {A B : Type} (proj : World -> A) (f : World -> B -> World) l :
  (forall b, keeps proj (fun w => f w b)) -> keeps proj (fun w => fold_left f l w).
Proof.
  intros Hf. induction l as [|b l IH]; intro w; simpl; [reflexivity|].
  rewrite IH. apply (Hf b).
Qed.

Lemma keeps_forEach {A B : Type} (proj : World -> A) (f : B -> nat -> World -> World) l :
  (forall b i, keeps proj (f b i)) -> forall i, keeps proj (forEach_from i f l).
Proof.
  intros Hf. induction l as [|b l IH]; intros i w; simpl; [reflexivity|].
  rewrite IH. apply Hf.
Qed.

Ltac keeps_by_cases :=
  let w := fresh "w" in
  intro w; cbv beta; unfold core, wiring, section_groups;
  norm; repeat (break_match; norm);
  repeat match goal with H : ?x = _ |- context [?x] => rewrite H end;
  reflexivity.

(** ** The guarded blocks do nothing while nothing is assigned *)

Lemma rotate_hero_idle t w :
  stale (this w) = nothing_assigned -> rotate_hero t w = w.
Proof. intros H. unfold rotate_hero. now rewrite H. Qed.

Lemma rotate_features_idle d w :
  stale (this w) = nothing_assigned -> rotate_features d w = w.
Proof. intros H. unfold rotate_features. now rewrite H. Qed.

Lemma rotate_contactSphere_idle d w :
  stale (this w) = nothing_assigned -> rotate_contactSphere d w = w.
Proof. intros H. unfold rotate_contactSphere. now rewrite H. Qed.

Lemma _updateOnScroll_idle w :
  stale (this w) = nothing_assigned -> _updateOnScroll w = w.
Proof. intros H. unfold _updateOnScroll. now repeat (rewrite H; simpl). Qed.

Lemma update_hero_uniforms_idle t w :
  stale (this w) = nothing_assigned -> update_hero_uniforms t w = w.
Proof. intros H. unfold update_hero_uniforms. now rewrite H. Qed.

Lemma update_wave_uniforms_idle t w :
  stale (this w) = nothing_assigned -> update_wave_uniforms t w = w.
Proof. intros H. unfold update_wave_uniforms. now rewrite H. Qed.

Lemma _initShaders_idle w :
  stale (this w) = nothing_assigned -> _initShaders w = w.
Proof. intros H. unfold _initShaders. now rewrite H. Qed.

Lemma _updateParticles_idle t d w :
  stale (this w) = nothing_assigned -> _updateParticles t d w = spin_particles d w.
Proof.
  intros H. unfold _updateParticles, spin_particles.
  destruct (particleSystem (gfx (this w))); simpl; now rewrite H.
Qed.

Lemma stale_begin_tick now w : stale (this (snd (begin_tick now w))) = stale (this w).
Proof. unfold begin_tick, requestAnimationFrame, getDelta. simpl. now break_match. Qed.

Lemma stale__updateCamera : keeps (fun w => stale (this w)) _updateCamera.
Proof. unfold _updateCamera. keeps_by_cases. Qed.

Lemma stale__updateMouseLight : keeps (fun w => stale (this w)) _updateMouseLight.
Proof. unfold _updateMouseLight. keeps_by_cases. Qed.

(** A tick in a world where nothing is assigned, reduced to the blocks that
    run. *)
Lemma tick_shape now w :
  stale (this w) = nothing_assigned ->
  _tick now w =
    (let (delta, w1) := begin_tick now w in
     update_chromaticAberration
       (spin_particles delta (_updateMouseLight (_updateCamera w1)))
     >>= fun w2 => Normal (render w2)).
Proof.
  intros H. unfold _tick.
  pose proof (stale_begin_tick now w) as Hb.
  destruct (begin_tick now w) as [delta w1] eqn:E. simpl in Hb. rewrite H in Hb.
  assert (H2 : stale (this (_updateMouseLight (_updateCamera w1))) = nothing_assigned).
  { now rewrite stale__updateMouseLight, stale__updateCamera. }
  rewrite rotate_hero_idle, rotate_features_idle, rotate_contactSphere_idle,
    _updateOnScroll_idle by assumption.
  rewrite _updateParticles_idle by assumption.
  assert (H3 : stale (this (spin_particles delta (_updateMouseLight (_updateCamera w1))))
               = nothing_assigned).
  { rewrite <- H2. unfold spin_particles. now break_match. }
  now rewrite update_hero_uniforms_idle, update_wave_uniforms_idle by assumption.
Qed.

(** ** The core and the wiring under the blocks of a tick and the listeners *)

Lemma steady_compose f g : steady f -> steady g -> steady (fun w => g (f w)).
Proof. intros [? ?] [? ?]. split; now apply keeps_compose. Qed.

Lemma steady_id : steady (fun w => w).
Proof. split; intro; reflexivity. Qed.

Ltac steady_by_cases := split; keeps_by_cases.

Lemma steady_log entry : steady (log entry).
Proof. steady_by_cases. Qed.

Lemma steady_gpu_call c : steady (gpu_call c).
Proof. steady_by_cases. Qed.

Lemma steady_begin_tick now : steady (fun w => snd (begin_tick now w)).
Proof.
  unfold begin_tick, requestAnimationFrame, getDelta. split; intro w; simpl;
    now break_match.
Qed.

Lemma steady__updateCamera : steady _updateCamera.
Proof. unfold _updateCamera. steady_by_cases. Qed.

Lemma steady__updateMouseLight : steady _updateMouseLight.
Proof. unfold _updateMouseLight. steady_by_cases. Qed.

Lemma steady_spin_particles d : steady (spin_particles d).
Proof. unfold spin_particles. steady_by_cases. Qed.

Lemma steady_update_chromaticAberration :
  steady (fun w => world_of (update_chromaticAberration w)).
Proof. unfold update_chromaticAberration. steady_by_cases. Qed.

Lemma steady_render : steady render.
Proof. unfold render. steady_by_cases. Qed.

Lemma world_of_andThen c k : world_of (c >>= k) = match c with
                                                  | Normal w => world_of (k w)
                                                  | Throw _ w => w
                                                  end.
Proof. now destruct c. Qed.

Lemma settle_world_of c :
  settle c = world_of c \/ exists e, settle c = log (Error e) (world_of c).
Proof. destruct c; simpl; eauto. Qed.

Lemma steady_settle c w : 
  core (world_of c) = core w -> wiring (world_of c) = wiring w ->
  core (settle c) = core w /\ wiring (settle c) = wiring w.
Proof.
  intros Hc Hw. destruct c; simpl in *; auto.
Qed.

Lemma tick_steady now w :
  stale (this w) = nothing_assigned ->
  core (world_of (_tick now w)) = core w /\ wiring (world_of (_tick now w)) = wiring w.
Proof.
  intros H. rewrite (tick_shape now w H).
  destruct (steady_begin_tick now) as [B1 B2]. specialize (B1 w). specialize (B2 w).
  cbv beta in B1, B2.
  destruct (begin_tick now w) as [delta w1]. simpl in B1, B2.
  set (w2 := spin_particles delta (_updateMouseLight (_updateCamera w1))).
  assert (S2 : core w2 = core w /\ wiring w2 = wiring w).
  { destruct (steady_spin_particles delta) as [P1 P2].
    destruct steady__updateMouseLight as [L1 L2].
    destruct steady__updateCamera as [C1 C2].
    unfold w2. now rewrite P1, P2, L1, L2, C1, C2. }
  destruct S2 as [S2 S2'].
  destruct steady_update_chromaticAberration as [U1 U2].
  specialize (U1 w2). specialize (U2 w2). simpl in U1, U2.
  rewrite world_of_andThen.
  destruct (update_chromaticAberration w2) as [w3|e w3]; simpl in *.
  - destruct steady_render as [R1 R2]. now rewrite R1, R2, U1, U2.
  - now rewrite U1, U2.
Qed.

Lemma steady_on_resize : steady on_resize.
Proof. unfold on_resize, uncaught. steady_by_cases. Qed.

Lemma steady_on_mousemove x y : steady (on_mousemove x y).
Proof. unfold on_mousemove. steady_by_cases. Qed.

Lemma steady_on_scroll : steady on_scroll.
Proof. unfold on_scroll. steady_by_cases. Qed.

Lemma steady_run_listener cb x y : steady (run_listener cb x y).
Proof.
  destruct cb; simpl.
  - apply steady_on_resize.
  - apply steady_on_mousemove.
  - apply steady_on_scroll.
  - apply steady_id.
Qed.

Lemma steady_dispatch_over t x y l :
  steady (fun w => fold_left
    (fun w' reg => if EventType_eqb t (fst reg)
                   then run_listener (snd reg) x y w' else w') l w).
Proof.
  split; apply keeps_fold; intros reg w; destruct (EventType_eqb t (fst reg));
    try reflexivity; apply steady_run_listener.
Qed.

Lemma dispatch_steady t x y w :
  core (dispatch t x y w) = core w /\ wiring (dispatch t x y w) = wiring w.
Proof.
  unfold dispatch. destruct (steady_dispatch_over t x y (listeners (env w))) as [A B].
  split; [apply A | apply B].
Qed.

(** ** The timer, the triggers and [destroy] *)

(** With nothing assigned, [_initScrollAnimations] registers the three
    scrubbed triggers and resets the contact scale. *)
Lemma _initScrollAnimations_idle w :
  stale (this w) = nothing_assigned ->
  _initScrollAnimations w =
    Normal (ScrollTrigger_create ContactTrigger
             (upd_scroll (fun s => set_contactSphereScale s 1)
               (ScrollTrigger_create ShowcaseTrigger
                 (ScrollTrigger_create CameraTrigger w)))).
Proof.
  intros H. unfold _initScrollAnimations. now repeat (rewrite H; norm).
Qed.

Lemma core_after_timer w :
  core (ScrollTrigger_create ContactTrigger
         (upd_scroll (fun s => set_contactSphereScale s 1)
           (ScrollTrigger_create ShowcaseTrigger
             (ScrollTrigger_create CameraTrigger w)))) = core w.
Proof. reflexivity. Qed.

Lemma registered_scrubbed t w :
  triggers (env w) = [] \/ triggers (env w) = scrubbed_triggers ->
  registered t w = true ->
  t = CameraTrigger \/ t = ShowcaseTrigger \/ t = ContactTrigger.
Proof.
  unfold registered. intros [-> | ->]; simpl; [discriminate|].
  destruct t; simpl; intros; try discriminate; auto.
Qed.

Lemma steady_onUpdate_scrubbed t p :
  t = CameraTrigger \/ t = ShowcaseTrigger \/ t = ContactTrigger ->
  steady (onUpdate t p).
Proof.
  intros [-> | [-> | ->]]; unfold onUpdate; steady_by_cases.
Qed.

Lemma onEnter_scrubbed t w :
  t = CameraTrigger \/ t = ShowcaseTrigger \/ t = ContactTrigger ->
  onEnter t w = w.
Proof. now intros [-> | [-> | ->]]. Qed.

Lemma steady_dispose_all l :
  steady (fun w => fold_left (fun w' o => dispose_object o w') l w).
Proof.
  split; apply keeps_fold; intro o; unfold dispose_object; keeps_by_cases.
Qed.

Lemma steady_cancel_render_loop : steady cancel_render_loop.
Proof. unfold cancel_render_loop, cancelAnimationFrame. steady_by_cases. Qed.

Lemma remove_event_listeners_core w :
  stale (this w) = nothing_assigned ->
  core (remove_event_listeners w) = core w
  /\ wiring (remove_event_listeners w) = wiring w.
Proof.
  intros H. unfold remove_event_listeners, removeEventListener. norm.
  now rewrite H.
Qed.

Lemma steady_dispose_renderer : steady dispose_renderer.
Proof. unfold dispose_renderer. steady_by_cases. Qed.

Lemma steady_dispose_composer : steady dispose_composer.
Proof. unfold dispose_composer. steady_by_cases. Qed.

Lemma steady_dispose_scene : steady dispose_scene.
Proof.
  split; intro w; unfold dispose_scene;
    destruct (steady_dispose_all (heap w)) as [D1 D2];
    specialize (D1 w); specialize (D2 w); cbv beta in D1, D2;
    destruct (scene (gfx (this w))); try reflexivity;
    set (wf := fold_left (fun w' o => dispose_object o w') (heap w) w) in *;
    clearbody wf; cbv zeta;
    destruct (particleSystem (gfx (this wf))); try assumption;
    (rewrite <- D1 || rewrite <- D2); reflexivity.
Qed.

Lemma destroy_core w :
  stale (this w) = nothing_assigned ->
  core (destroy w) = core w
  /\ timers (env (destroy w)) = timers (env w)
  /\ triggers (env (destroy w)) = [].
Proof.
  intros H. unfold destroy. cbv zeta.
  destruct steady_cancel_render_loop as [A1 A2].
  assert (H1 : stale (this (cancel_render_loop w)) = nothing_assigned).
  { pose proof (A1 w) as E. unfold core in E. congruence. }
  destruct (remove_event_listeners_core _ H1) as [B1 B2].
  destruct steady_dispose_renderer as [C1 C2].
  destruct steady_dispose_composer as [D1 D2].
  destruct steady_dispose_scene as [E1 E2].
  split; [|split].
  - rewrite E1, D1, C1. unfold kill_all_ScrollTriggers.
    change (core (upd_env (fun b => set_triggers b [])
                    (remove_event_listeners (cancel_render_loop w))))
      with (core (remove_event_listeners (cancel_render_loop w))).
    now rewrite B1, A1.
  - pose proof (E2 (dispose_composer (dispose_renderer (kill_all_ScrollTriggers
       (remove_event_listeners (cancel_render_loop w)))))) as X1.
    pose proof (D2 (dispose_renderer (kill_all_ScrollTriggers
       (remove_event_listeners (cancel_render_loop w))))) as X2.
    pose proof (C2 (kill_all_ScrollTriggers
       (remove_event_listeners (cancel_render_loop w)))) as X3.
    pose proof (A2 w) as X4.
    unfold wiring in *. unfold kill_all_ScrollTriggers in *. norm_all. congruence.
  - pose proof (E2 (dispose_composer (dispose_renderer (kill_all_ScrollTriggers
       (remove_event_listeners (cancel_render_loop w)))))) as X1.
    pose proof (D2 (dispose_renderer (kill_all_ScrollTriggers
       (remove_event_listeners (cancel_render_loop w))))) as X2.
    pose proof (C2 (kill_all_ScrollTriggers
       (remove_event_listeners (cancel_render_loop w)))) as X3.
    unfold wiring in *. unfold kill_all_ScrollTriggers in *. norm_all. congruence.
Qed.

(** ** The invariant *)

Lemma invariant_transfer w w' :
  core w' = core w -> wiring w' = wiring w -> invariant w -> invariant w'.
Proof.
  unfold invariant, alive, core, wiring, section_groups. intros Hc Hw I.
  injection Hc; intros. injection Hw; intros.
  repeat match goal with E : _ = _ |- _ => rewrite E; clear E end.
  exact I.
Qed.

Lemma invariant_unwired w w' :
  core w' = core w -> timers (env w') = timers (env w) -> triggers (env w') = [] ->
  invariant w -> invariant w'.
Proof.
  unfold invariant, alive, core, wiring, section_groups. intros Hc Ht Hg I.
  injection Hc; intros.
  rewrite Ht, Hg.
  repeat match goal with E : _ = _ |- _ => rewrite E; clear E end.
  destruct I as (I1 & I2 & I3 & I4 & I5 & I6 & I7).
  repeat split; try assumption.
  - destruct I6 as [I6 | [I6 | I6]]; injection I6 as -> _; auto.
  - destruct I7 as [I7 | [I7 I8]]; [left; assumption|right].
    injection I8 as -> _. auto.
Qed.

Lemma boot_invariant canvas win gl m :
  invariant (world_of (boot canvas (page win gl m)))
  /\ (gl = true -> completed (boot canvas (page win gl m)) = true).
Proof.
  unfold boot, _initRenderer. cbn [webgl page env].
  destruct gl.
  - cbn [andThen world_of completed]. split; [|reflexivity].
    destruct m as [[] [] [] []];
      unfold invariant, alive; repeat split; try reflexivity;
      try (left; reflexivity); left; repeat split; reflexivity.
  - split; [|discriminate]. unfold invariant, alive. cbn.
    repeat split; try reflexivity; auto.
Qed.

Lemma invariant_new canvas now win gl m :
  invariant (world_of (constructor canvas now (page win gl m))).
Proof.
  unfold constructor.
  destruct (boot_invariant canvas win gl m) as [I _].
  destruct (boot canvas (page win gl m)) as [w8|e w8]; cbn [andThen world_of] in *.
  - assert (S8 : stale (this w8) = nothing_assigned) by apply I.
    destruct (tick_steady now w8 S8) as [A B].
    exact (invariant_transfer _ _ A B I).
  - exact I.
Qed.

Lemma invariant_step e w : invariant w -> invariant (step e w).
Proof.
  intros I.
  assert (Hs : stale (this w) = nothing_assigned) by apply I.
  destruct e as [now|win|x y|win| |t p|t| |now]; simpl.
  - (* Frame *)
    destruct (raf_pending (env w)) as [|id rest]; [assumption|].
    set (w1 := upd_env _ w).
    destruct (tick_steady now w1 Hs) as [A B].
    destruct (steady_settle (_tick now w1) w1 A B) as [A' B'].
    exact (invariant_transfer w _ A' B' I).
  - (* Resized *)
    destruct (dispatch_steady resize 0 0 (upd_env (fun b => set_window b win) w)) as [A B].
    exact (invariant_transfer w _ A B I).
  - (* MouseMoved *)
    destruct (dispatch_steady mousemove x y w) as [A B].
    exact (invariant_transfer w _ A B I).
  - (* Scrolled *)
    destruct (dispatch_steady scroll_event 0 0 (upd_env (fun b => set_window b win) w))
      as [A B].
    exact (invariant_transfer w _ A B I).
  - (* TimerFired *)
    destruct (timers (env w)) as [|[] rest] eqn:Et; [assumption|].
    rewrite _initScrollAnimations_idle by exact Hs. simpl.
    destruct I as (I1 & I2 & I3 & I4 & I5 & I6 & I7).
    unfold wiring in I6, I7. rewrite Et in I6, I7.
    destruct I6 as [I6 | [I6 | I6]]; try discriminate.
    injection I6 as -> Etr.
    destruct I7 as [I7 | [_ I7]]; [|discriminate].
    unfold invariant, alive, wiring in *. norm. rewrite Etr.
    repeat split; try assumption; try tauto.
  - (* TriggerUpdate *)
    destruct (registered t w) eqn:R; [|assumption].
    assert (T : triggers (env w) = [] \/ triggers (env w) = scrubbed_triggers).
    { destruct I as (_ & _ & _ & _ & _ & I6 & _). unfold wiring in I6.
      destruct I6 as [I6 | [I6 | I6]]; injection I6; auto. }
    destruct (steady_onUpdate_scrubbed t p (registered_scrubbed t w T R)) as [A B].
    exact (invariant_transfer w _ (A w) (B w) I).
  - (* TriggerEnter *)
    destruct (registered t w) eqn:R; [|assumption].
    assert (T : triggers (env w) = [] \/ triggers (env w) = scrubbed_triggers).
    { destruct I as (_ & _ & _ & _ & _ & I6 & _). unfold wiring in I6.
      destruct I6 as [I6 | [I6 | I6]]; injection I6; auto. }
    now rewrite (onEnter_scrubbed t w (registered_scrubbed t w T R)).
  - (* Destroy *)
    destruct (destroy_core w Hs) as (A & B & C).
    exact (invariant_unwired w _ A B C I).
  - (* CallTick *)
    destruct (tick_steady now w Hs) as [A B].
    destruct (steady_settle (_tick now w) w A B) as [A' B'].
    exact (invariant_transfer w _ A' B' I).
Qed.

Lemma reachable_invariant w : reachable w -> invariant w.
Proof.
  induction 1 as [canvas now win gl m | e w _ IH].
  - apply invariant_new.
  - now apply invariant_step.
Qed.

Lemma reachable_run es w : reachable w -> reachable (run es w).
Proof.
  revert w. induction es as [|e es IH]; intros w R; simpl; [assumption|].
  apply IH. now constructor.
Qed.

(* ================================================================== *)
(** * The claims *)
(* ================================================================== *)

(** ** Facts about running engines used by several claims *)

Lemma reachable_triggers w :
  reachable w -> triggers (env w) = [] \/ triggers (env w) = scrubbed_triggers.
Proof.
  intros R. destruct (reachable_invariant w R) as (_ & _ & _ & _ & _ & I6 & _).
  unfold wiring in I6. destruct I6 as [I6 | [I6 | I6]]; injection I6; auto.
Qed.

Lemma reachable_wired_alive w :
  reachable w -> triggers (env w) = scrubbed_triggers -> alive w.
Proof.
  intros R T. destruct (reachable_invariant w R) as (_ & _ & _ & _ & _ & _ & I7).
  destruct I7 as [A | [_ W]]; [exact A|].
  unfold wiring in W. rewrite T in W. discriminate.
Qed.

Lemma registered_wired t w :
  reachable w -> registered t w = true -> triggers (env w) = scrubbed_triggers.
Proof.
  intros R Hr. destruct (reachable_triggers w R) as [E | E]; [|exact E].
  unfold registered in Hr. rewrite E in Hr. discriminate.
Qed.

Lemma reachable_example_world : reachable example_world.
Proof. apply reachable_new. Qed.

Lemma reachable_wired_world : reachable wired_world.
Proof. unfold wired_world, example_world. apply reachable_step, reachable_new. Qed.

(* ------------------------------------------------------------------ *)
(** ** Loading the module *)

(** C1.  [_initPostProcessing] holds four [await] expressions and is not
    declared [async]; this is an early error of the module, so
    [experience.js] is never evaluated and, whatever the canvas, the
    construction [new Experience(canvas)] does not complete normally. *)
Theorem experience_module_is_rejected canvas now b :
  In (Syntax.method "_initPostProcessing" Syntax.Plain 4) Syntax.Experience_class
  /\ Syntax.experience_js = Syntax.SyntaxError "_initPostProcessing"
  /\ Syntax.new_Experience canvas now b = Syntax.ModuleNotLoaded "_initPostProcessing"
  /\ Syntax.completes_normally (Syntax.new_Experience canvas now b) = false.
Proof.
  repeat split; try reflexivity.
  unfold Syntax.Experience_class. simpl. tauto.
Qed.

(* ------------------------------------------------------------------ *)
(** ** The scroll listener *)

(** C2.  The scroll listener leaves a progress of exactly 0 when the scroll
    extent (document height minus viewport height) is not positive, the
    quotient being taken only for a positive extent, and a progress in [0, 1]
    whenever the scroll offset lies between 0 and the extent. *)
Theorem scroll_progress_in_unit_interval w :
  let win := window (env w) in
  let extent := scrollHeight win - innerHeight win in
  let progress := scrollProgress (scroll (this (on_scroll w))) in
  (extent <= 0 -> progress = 0)
  /\ (0 <= window_scrollY win <= extent -> 0 <= progress /\ progress <= 1).
Proof.
  unfold on_scroll, scroll_progress_of. norm.
  set (extent := scrollHeight (window (env w)) - innerHeight (window (env w))).
  set (y := window_scrollY (window (env w))).
  destruct (Qlt_le_dec 0 extent) as [Hpos | Hle]; split.
  - intros H. exfalso. lra.
  - intros [H0 H1]. split.
    + apply Qle_shift_div_l; lra.
    + apply Qle_shift_div_r; lra.
  - reflexivity.
  - intros _. split; lra.
Qed.

Lemma scroll_progress_in_unit_interval_witness :
  let short_page := step (Scrolled (window_state 800 600 1 0 500)) wired_world in
  let long_page := step (Scrolled (window_state 800 600 1 300 3000)) wired_world in
  scrollProgress (scroll (this (on_scroll short_page))) = 0
  /\ 0 <= scrollProgress (scroll (this (on_scroll long_page)))
  /\ scrollProgress (scroll (this (on_scroll long_page))) <= 1.
Proof.
  split.
  - apply (proj1 (scroll_progress_in_unit_interval
                    (step (Scrolled (window_state 800 600 1 0 500)) wired_world))).
    vm_compute. discriminate.
  - apply (proj2 (scroll_progress_in_unit_interval
                    (step (Scrolled (window_state 800 600 1 300 3000)) wired_world))).
    vm_compute. split; discriminate.
Defined.

(** ** What a tick changes *)

Lemma outside_begin_tick now : keeps outside_tick (fun w => snd (begin_tick now w)).
Proof.
  unfold begin_tick, requestAnimationFrame, getDelta. intro w. simpl. now break_match.
Qed.

Lemma outside__updateCamera : keeps outside_tick _updateCamera.
Proof. unfold _updateCamera. frame_by_cases. Qed.

Lemma outside__updateMouseLight : keeps outside_tick _updateMouseLight.
Proof. unfold _updateMouseLight. frame_by_cases. Qed.

Lemma outside_spin_particles d : keeps outside_tick (spin_particles d).
Proof. unfold spin_particles. frame_by_cases. Qed.

Lemma outside_update_chromaticAberration :
  keeps outside_tick (fun w => world_of (update_chromaticAberration w)).
Proof. unfold update_chromaticAberration. frame_by_cases. Qed.

Lemma outside_render : keeps outside_tick render.
Proof. unfold render. frame_by_cases. Qed.

(** Folding a tick, in a world where nothing is assigned, over a projection
    that its running blocks keep. *)
Lemma tick_keeps {A : Type} (proj : World -> A) now w :
  stale (this w) = nothing_assigned ->
  keeps proj (fun w => snd (begin_tick now w)) ->
  keeps proj _updateCamera ->
  keeps proj _updateMouseLight ->
  (forall d, keeps proj (spin_particles d)) ->
  keeps proj (fun w => world_of (update_chromaticAberration w)) ->
  (forall w', (forall w1, update_chromaticAberration w' = Normal w1 ->
               proj (render w1) = proj w1)) ->
  proj (world_of (_tick now w)) = proj w.
Proof.
  intros H B C L P U Rn. rewrite (tick_shape now w H).
  specialize (B w). cbv beta in B.
  destruct (begin_tick now w) as [delta w1]. simpl in B.
  set (w2 := spin_particles delta (_updateMouseLight (_updateCamera w1))).
  assert (S2 : proj w2 = proj w).
  { unfold w2. now rewrite P, L, C. }
  specialize (U w2). cbv beta in U. specialize (Rn w2).
  rewrite world_of_andThen.
  destruct (update_chromaticAberration w2) as [w3|e w3]; simpl in *.
  - rewrite (Rn w3 eq_refl). congruence.
  - congruence.
Qed.

Lemma tick_outside now w :
  stale (this w) = nothing_assigned ->
  outside_tick (world_of (_tick now w)) = outside_tick w.
Proof.
  intros H. apply tick_keeps; try assumption.
  - apply outside_begin_tick.
  - apply outside__updateCamera.
  - apply outside__updateMouseLight.
  - apply outside_spin_particles.
  - apply outside_update_chromaticAberration.
  - intros w' w1 _. apply outside_render.
Qed.

Lemma plain_store_no_shader_material h :
  forallb plain_material h = true -> no_shader_material h.
Proof.
  intros F r o p E. apply nth_error_In in E.
  rewrite forallb_forall in F. specialize (F o E).
  unfold plain_material in F. intros M. rewrite M in F. discriminate.
Qed.

Lemma scene_store_no_shader_material : no_shader_material scene_store.
Proof. apply plain_store_no_shader_material. vm_compute. reflexivity. Qed.

Lemma reachable_no_shader_material w : reachable w -> no_shader_material (heap w).
Proof.
  intros R. destruct (reachable_invariant w R) as (_ & _ & _ & _ & _ & _ & I7).
  destruct I7 as [(-> & _) | [-> _]].
  - apply scene_store_no_shader_material.
  - intros [|r] o p; discriminate.
Qed.

Lemma bookkeeping_begin_tick now w :
  bookkeeping (snd (begin_tick now w)) = (Some (raf_next (env w)), clock_state true now).
Proof.
  unfold begin_tick, requestAnimationFrame, getDelta, bookkeeping. norm.
  now destruct (running (clock (this w))).
Qed.

Lemma tick_bookkeeping now w :
  stale (this w) = nothing_assigned ->
  bookkeeping (world_of (_tick now w)) = (Some (raf_next (env w)), clock_state true now).
Proof.
  intros H. rewrite (tick_shape now w H).
  pose proof (bookkeeping_begin_tick now w) as B.
  destruct (begin_tick now w) as [delta w1]. cbn [snd] in B.
  rewrite world_of_andThen.
  set (w2 := spin_particles delta (_updateMouseLight (_updateCamera w1))).
  assert (S2 : bookkeeping w2 = bookkeeping w1).
  { unfold w2, spin_particles, _updateMouseLight, _updateCamera, bookkeeping.
    repeat (break_inner; norm); reflexivity. }
  assert (U : bookkeeping (world_of (update_chromaticAberration w2)) = bookkeeping w2).
  { unfold update_chromaticAberration, bookkeeping. repeat (break_inner; norm); reflexivity. }
  destruct (update_chromaticAberration w2) as [w3|e w3]; cbn [world_of] in *.
  - rewrite <- B, <- S2, <- U. unfold render, bookkeeping, gpu_call.
    destruct (composer (gfx (this w3))); reflexivity.
  - now rewrite U, S2.
Qed.

(* ------------------------------------------------------------------ *)
(** ** The scroll triggers *)

Lemma scroll_to_unwired p w : triggers (env w) = [] -> scroll_to p w = w.
Proof. unfold scroll_to. now intros ->. Qed.

Lemma step_update_wired t p w :
  triggers (env w) = scrubbed_triggers ->
  t = CameraTrigger \/ t = ShowcaseTrigger \/ t = ContactTrigger ->
  step (TriggerUpdate t p) w = onUpdate t p w
  /\ triggers (env (onUpdate t p w)) = scrubbed_triggers
  /\ barHeights (scroll (this (onUpdate t p w))) = barHeights (scroll (this w)).
Proof.
  intros T Ht.
  assert (Hr : registered t w = true).
  { unfold registered. rewrite T. destruct Ht as [-> | [-> | ->]]; reflexivity. }
  cbn [step]. rewrite Hr. split; [reflexivity|].
  destruct (steady_onUpdate_scrubbed t p Ht) as [A B].
  specialize (A w). specialize (B w). unfold core, wiring in A, B.
  split; [|congruence].
  rewrite <- T. congruence.
Qed.

Lemma scroll_to_wired p w :
  triggers (env w) = scrubbed_triggers ->
  triggers (env (scroll_to p w)) = scrubbed_triggers
  /\ barHeights (scroll (this (scroll_to p w))) = barHeights (scroll (this w))
  /\ waveAmplitude (scroll (this (scroll_to p w))) = scrubbed_wave (p ShowcaseTrigger)
  /\ contactSphereScale (scroll (this (scroll_to p w))) = 1 + p ContactTrigger * 1.5
  /\ camera_y (scroll_to p w)
     = option_map (fun _ => p CameraTrigger * - 40) (camera_y w).
Proof.
  intros T. unfold scroll_to. rewrite T. unfold scrubbed_triggers, run.
  cbn [map fold_left].
  destruct (step_update_wired CameraTrigger (p CameraTrigger) w T) as (E1 & T1 & B1);
    [auto|]. rewrite E1.
  set (w1 := onUpdate CameraTrigger (p CameraTrigger) w) in *.
  destruct (step_update_wired ShowcaseTrigger (p ShowcaseTrigger) w1 T1)
    as (E2 & T2 & B2); [auto|]. rewrite E2.
  assert (W2 : waveAmplitude (scroll (this (onUpdate ShowcaseTrigger (p ShowcaseTrigger) w1)))
               = scrubbed_wave (p ShowcaseTrigger)).
  { unfold onUpdate, scrubbed_wave. now destruct (Qlt_le_dec _ _). }
  set (w2 := onUpdate ShowcaseTrigger (p ShowcaseTrigger) w1) in *.
  destruct (step_update_wired ContactTrigger (p ContactTrigger) w2 T2)
    as (E3 & T3 & B3); [auto|]. rewrite E3.
  split; [exact T3|]. split; [congruence|]. split; [rewrite <- W2; reflexivity|].
  split; [reflexivity|].
  assert (C1 : camera_y w1 = option_map (fun _ => p CameraTrigger * - 40) (camera_y w)).
  { subst w1. unfold camera_y, onUpdate.
    change (camera (gfx (this (upd_scroll _ (upd_scroll _ (upd_scroll _ w))))))
      with (camera (gfx (this w))).
    destruct (camera (gfx (this w))) as [c|] eqn:Ec; [reflexivity|].
    change (camera (gfx (this (upd_scroll _ (upd_scroll _ (upd_scroll _ w))))))
      with (camera (gfx (this w))).
    now rewrite Ec. }
  rewrite <- C1. subst w2. unfold camera_y, onUpdate.
  destruct (Qlt_le_dec (p ShowcaseTrigger) 0.5); reflexivity.
Qed.

Lemma drive_app ps p w : drive (ps ++ [p]) w = scroll_to p (drive ps w).
Proof. unfold drive. now rewrite fold_left_app. Qed.

Lemma drive_unwired ps w : triggers (env w) = [] -> drive ps w = w.
Proof.
  intros T. induction ps as [|p ps IH]; simpl; [reflexivity|].
  unfold drive in *. simpl. now rewrite (scroll_to_unwired p w T).
Qed.

Lemma drive_wired ps w :
  triggers (env w) = scrubbed_triggers ->
  triggers (env (drive ps w)) = scrubbed_triggers
  /\ barHeights (scroll (this (drive ps w))) = barHeights (scroll (this w)).
Proof.
  revert w. induction ps as [|p ps IH]; intros w T; [now split|].
  destruct (scroll_to_wired p w T) as (T1 & B1 & _).
  destruct (IH _ T1) as [T2 B2]. unfold drive in *. simpl.
  split; [exact T2 | now rewrite B2].
Qed.

(* ------------------------------------------------------------------ *)
(** ** The camera trigger *)

(** C4.  In a running engine whose camera trigger is registered, the five
    section groups sit at y = 0, -10, -20, -30, -40, so the total section span
    is 40, and an update of the camera trigger with progress [p] sets the
    camera's Y position to [p * -40], -40 at progress 1, and leaves the
    contact scale alone.  The contact scale is set by the contact trigger
    from its own progress [q], to [1 + q * 1.5], which leaves the camera
    alone.  At a scroll position [pos], which gives every trigger its own
    progress, the camera Y is [p * -40] and the scale [1 + q * 1.5]; the
    scale is 2.5 exactly when [q] is 1, whatever [p] is. *)
Theorem camera_y_follows_scroll_progress w (pos : Trigger -> Q) :
  reachable w -> registered CameraTrigger w = true ->
  0 <= pos CameraTrigger <= 1 ->
  let p := pos CameraTrigger in
  let q := pos ContactTrigger in
  map (group_y (heap w)) (section_groups w)
    = [Some 0; Some (-10); Some (-20); Some (-30); Some (-40)]
  /\ section_span w = Some 40
  /\ camera_y (step (TriggerUpdate CameraTrigger p) w) = Some (p * - 40)
  /\ camera_y (step (TriggerUpdate CameraTrigger 1) w) = Some (-40)
  /\ contactSphereScale (scroll (this (step (TriggerUpdate CameraTrigger p) w)))
     = contactSphereScale (scroll (this w))
  /\ contactSphereScale (scroll (this (step (TriggerUpdate ContactTrigger q) w)))
     = 1 + q * 1.5
  /\ camera_y (step (TriggerUpdate ContactTrigger q) w) = camera_y w
  /\ camera_y (scroll_to pos w) = Some (p * - 40)
  /\ contactSphereScale (scroll (this (scroll_to pos w))) = 1 + q * 1.5
  /\ (contactSphereScale (scroll (this (scroll_to pos w))) == 2.5 <-> q == 1).
Proof.
  intros R Hr _ p q.
  pose proof (registered_wired _ w R Hr) as T.
  destruct (reachable_wired_alive w R T) as (Hh & Hg & _ & Hc & _).
  assert (G : map (group_y (heap w)) (section_groups w)
              = [Some 0; Some (-10); Some (-20); Some (-30); Some (-40)]).
  { rewrite Hg, Hh. reflexivity. }
  split; [exact G|].
  split.
  { unfold section_span. unfold section_groups in Hg. injection Hg as -> _ _ _ ->.
    rewrite Hh. reflexivity. }
  destruct (scroll_to_wired pos w T) as (_ & _ & _ & S1 & S2).
  fold q in S1. fold p in S2.
  rewrite S1, S2.
  unfold step, registered. rewrite T. cbn [existsb Trigger_eqb orb].
  unfold camera_y in *. unfold onUpdate.
  destruct (camera (gfx (this w))) as [c|] eqn:Ec; [|discriminate].
  norm. rewrite Ec. norm.
  repeat split; try reflexivity; intros E; lra.
Qed.

Lemma camera_y_follows_scroll_progress_witness :
  camera_y (scroll_to bottom_with_contact_half_way wired_world) = Some (1 * - 40)
  /\ contactSphereScale (scroll (this (scroll_to bottom_with_contact_half_way wired_world)))
     = 1 + 0.5 * 1.5.
Proof.
  destruct (camera_y_follows_scroll_progress wired_world bottom_with_contact_half_way
              reachable_wired_world eq_refl)
    as (_ & _ & _ & _ & _ & _ & _ & A & B & _).
  - split; discriminate.
  - exact (conj A B).
Defined.

(** C4 as it is worded fails: with the full-document observer at progress
    1 and the contact trigger half way through its window, the camera Y is
    -40 and the contact scale 1.75, not 2.5. *)
Lemma camera_at_the_end_with_the_sphere_half_grown :
  reachable wired_world
  /\ registered CameraTrigger wired_world = true
  /\ registered ContactTrigger wired_world = true
  /\ bottom_with_contact_half_way CameraTrigger = 1
  /\ camera_y (scroll_to bottom_with_contact_half_way wired_world) = Some (-40)
  /\ contactSphereScale (scroll (this (scroll_to bottom_with_contact_half_way wired_world)))
     = 1.75
  /\ 1.75 < 2.5.
Proof.
  split; [exact reachable_wired_world|].
  repeat split; vm_compute; reflexivity.
Qed.

(** ** Rendering without a composer *)

Lemma rendering_gpu_call c :
  is_render c = false -> keeps rendering (gpu_call c).
Proof.
  intros Hc w. unfold rendering, renders, gpu_call. norm.
  destruct (composer (gfx (this w))); [reflexivity|].
  rewrite filter_app. cbn [filter].
  destruct c; try discriminate; cbn; now rewrite app_nil_r.
Qed.

Lemma rendering_log entry : keeps rendering (log entry).
Proof. frame_by_cases. Qed.

Lemma rendering_begin_tick now : keeps rendering (fun w => snd (begin_tick now w)).
Proof.
  unfold begin_tick, requestAnimationFrame, getDelta. intro w. simpl. now break_match.
Qed.

Lemma rendering__updateCamera : keeps rendering _updateCamera.
Proof. unfold _updateCamera. frame_by_cases. Qed.

Lemma rendering__updateMouseLight : keeps rendering _updateMouseLight.
Proof. unfold _updateMouseLight. frame_by_cases. Qed.

Lemma rendering_spin_particles d : keeps rendering (spin_particles d).
Proof. unfold spin_particles. frame_by_cases. Qed.

Lemma rendering_update_chromaticAberration :
  keeps rendering (fun w => world_of (update_chromaticAberration w)).
Proof. unfold update_chromaticAberration. frame_by_cases. Qed.

Lemma rendering_render : keeps rendering render.
Proof.
  intro w. unfold render, rendering.
  destruct (composer (gfx (this w))) eqn:E; [|now rewrite E].
  unfold gpu_call. norm. now rewrite E.
Qed.

Lemma tick_rendering now w :
  stale (this w) = nothing_assigned ->
  rendering (world_of (_tick now w)) = rendering w.
Proof.
  intros H. apply tick_keeps; try assumption.
  - apply rendering_begin_tick.
  - apply rendering__updateCamera.
  - apply rendering__updateMouseLight.
  - apply rendering_spin_particles.
  - apply rendering_update_chromaticAberration.
  - intros w' w1 _. apply rendering_render.
Qed.

Lemma rendering_settle c w :
  rendering (world_of c) = rendering w -> rendering (settle c) = rendering w.
Proof. destruct c; simpl; auto. Qed.

Lemma rendering_on_resize : keeps rendering on_resize.
Proof. unfold on_resize, uncaught. frame_by_cases. Qed.

Lemma rendering_on_mousemove x y : keeps rendering (on_mousemove x y).
Proof. unfold on_mousemove. frame_by_cases. Qed.

Lemma rendering_on_scroll : keeps rendering on_scroll.
Proof. unfold on_scroll. frame_by_cases. Qed.

Lemma rendering_run_listener cb x y : keeps rendering (run_listener cb x y).
Proof.
  destruct cb; intro w; cbn [run_listener].
  - apply rendering_on_resize.
  - apply rendering_on_mousemove.
  - apply rendering_on_scroll.
  - reflexivity.
Qed.

Lemma rendering_dispatch t x y w : rendering (dispatch t x y w) = rendering w.
Proof.
  unfold dispatch.
  apply (keeps_fold rendering
           (fun w' reg => if EventType_eqb t (fst reg)
                          then run_listener (snd reg) x y w' else w')).
  intros reg w'. destruct (EventType_eqb t (fst reg)); [|reflexivity].
  apply rendering_run_listener.
Qed.

Lemma rendering_onUpdate_scrubbed t p :
  t = CameraTrigger \/ t = ShowcaseTrigger \/ t = ContactTrigger ->
  keeps rendering (onUpdate t p).
Proof. intros [-> | [-> | ->]]; unfold onUpdate; frame_by_cases. Qed.

Lemma rendering_dispose_object o : keeps rendering (dispose_object o).
Proof.
  intro w. unfold dispose_object.
  destruct (geometry o), (material o);
    repeat rewrite rendering_gpu_call by reflexivity; reflexivity.
Qed.

Lemma rendering_destroy w :
  stale (this w) = nothing_assigned -> rendering (destroy w) = rendering w.
Proof.
  intros H. unfold destroy. cbv zeta.
  assert (A : keeps rendering cancel_render_loop).
  { unfold cancel_render_loop, cancelAnimationFrame. frame_by_cases. }
  assert (H1 : stale (this (cancel_render_loop w)) = nothing_assigned).
  { pose proof (proj1 steady_cancel_render_loop w) as E. unfold core in E. congruence. }
  assert (B : rendering (remove_event_listeners (cancel_render_loop w))
              = rendering (cancel_render_loop w)).
  { unfold remove_event_listeners, removeEventListener. norm. now rewrite H1. }
  assert (C : keeps rendering dispose_renderer).
  { intro w0. unfold dispose_renderer.
    destruct (renderer (gfx (this w0))); [|reflexivity]. cbv zeta.
    destruct (canvas_attached (env (gpu_call RendererDispose w0)));
      [rewrite rendering_gpu_call by reflexivity|];
      now rewrite <- (rendering_gpu_call RendererDispose eq_refl w0). }
  assert (D : keeps rendering dispose_composer).
  { intro w0. unfold dispose_composer.
    destruct (composer (gfx (this w0))); [|reflexivity].
    now rewrite !rendering_gpu_call by reflexivity. }
  assert (E : keeps rendering dispose_scene).
  { intro w0. unfold dispose_scene.
    destruct (scene (gfx (this w0))); [|reflexivity]. cbv zeta.
    pose proof (keeps_fold rendering (fun w' o => dispose_object o w') (heap w0)
                  (fun o => rendering_dispose_object o) w0) as F.
    cbv beta in F.
    set (wf := fold_left (fun w' o => dispose_object o w') (heap w0) w0) in *.
    destruct (particleSystem (gfx (this wf)));
      [rewrite !rendering_gpu_call by reflexivity|]; exact F. }
  rewrite E, D, C. unfold kill_all_ScrollTriggers.
  change (rendering (upd_env (fun b => set_triggers b [])
                       (remove_event_listeners (cancel_render_loop w))))
    with (rendering (remove_event_listeners (cancel_render_loop w))).
  now rewrite B, A.
Qed.

Lemma rendering_step e w : invariant w -> rendering (step e w) = rendering w.
Proof.
  intros I.
  assert (Hs : stale (this w) = nothing_assigned) by apply I.
  assert (T : triggers (env w) = [] \/ triggers (env w) = scrubbed_triggers).
  { destruct I as (_ & _ & _ & _ & _ & I6 & _). unfold wiring in I6.
    destruct I6 as [I6 | [I6 | I6]]; injection I6; auto. }
  destruct e as [now|win|x y|win| |t p|t| |now]; simpl.
  - destruct (raf_pending (env w)) as [|id rest]; [reflexivity|].
    apply rendering_settle.
    exact (tick_rendering now (upd_env (fun b => set_raf_pending b rest) w) Hs).
  - now rewrite rendering_dispatch.
  - now rewrite rendering_dispatch.
  - now rewrite rendering_dispatch.
  - destruct (timers (env w)) as [|[] rest]; [reflexivity|].
    now rewrite _initScrollAnimations_idle by exact Hs.
  - destruct (registered t w) eqn:R; [|reflexivity].
    exact (rendering_onUpdate_scrubbed t p (registered_scrubbed t w T R) w).
  - destruct (registered t w) eqn:R; [|reflexivity].
    now rewrite (onEnter_scrubbed t w (registered_scrubbed t w T R)).
  - now apply rendering_destroy.
  - apply rendering_settle. now apply tick_rendering.
Qed.

Lemma rendering_run es w :
  reachable w -> rendering (run es w) = rendering w.
Proof.
  revert w. induction es as [|e es IH]; intros w R; simpl; [reflexivity|].
  unfold run in IH. rewrite IH by now constructor.
  apply rendering_step. now apply reachable_invariant.
Qed.

(** Without a chromatic pass a tick completes, and it logs nothing. *)
Lemma tick_completes_without_pass now w :
  stale (this w) = nothing_assigned ->
  chromaticAberrationPass (gfx (this w)) = None ->
  exists w', _tick now w = Normal w' /\ console (env w') = console (env w).
Proof.
  intros Hs Hp. rewrite (tick_shape now w Hs).
  set (quiet := fun w0 => (chromaticAberrationPass (gfx (this w0)), console (env w0))).
  assert (B : quiet (snd (begin_tick now w)) = quiet w).
  { unfold begin_tick, requestAnimationFrame, getDelta, quiet. simpl. now break_match. }
  destruct (begin_tick now w) as [delta w1]. cbn [snd] in B.
  assert (C : quiet (spin_particles delta (_updateMouseLight (_updateCamera w1)))
              = quiet w1).
  { unfold spin_particles, _updateMouseLight, _updateCamera, quiet.
    norm. repeat (break_inner; norm); reflexivity. }
  set (w2 := spin_particles delta (_updateMouseLight (_updateCamera w1))) in *.
  rewrite B in C. unfold quiet in C. injection C as C1 C2.
  unfold update_chromaticAberration. rewrite C1, Hp. cbn [andThen].
  eexists. split; [reflexivity|].
  unfold render. destruct (composer (gfx (this w2))); norm; congruence.
Qed.

Lemma boot_without_modules canvas win m :
  some_module_missing m = true ->
  exists w8, boot canvas (page win true m) = Normal w8
    /\ stale (this w8) = nothing_assigned
    /\ rendering w8 = Some 0%nat
    /\ chromaticAberrationPass (gfx (this w8)) = None
    /\ console (env w8) = [Warn "Post processing modules not available"].
Proof.
  intros M. unfold boot, _initRenderer. cbn [webgl page env andThen].
  eexists. split; [reflexivity|].
  destruct m as [[] [] [] []]; try discriminate M; repeat split.
Qed.

(** C5.  When one of the four post-processing modules cannot be imported, the
    constructor completes, logs the warning and leaves the composer unset;
    from then on no tick, whatever else happens, renders anything: the base
    scene is never drawn. *)
Theorem missing_module_leaves_nothing_rendered canvas now win m es :
  some_module_missing m = true ->
  let c := constructor canvas now (page win true m) in
  completed c = true
  /\ console (env (world_of c)) = [Warn "Post processing modules not available"]
  /\ composer (gfx (this (world_of c))) = None
  /\ renders (run es (world_of c)) = 0%nat.
Proof.
  intros M c.
  assert (R : reachable (world_of c)) by apply reachable_new.
  pose proof (rendering_run es (world_of c) R) as Es.
  revert Es. subst c. unfold constructor.
  destruct (boot_without_modules canvas win m M) as (w8 & -> & S8 & R8 & P8 & L8).
  cbn [andThen].
  pose proof (tick_rendering now w8 S8) as Rt. rewrite R8 in Rt.
  destruct (tick_completes_without_pass now w8 S8 P8) as (w9 & E9 & L9).
  rewrite E9 in *. cbn [completed world_of] in *.
  intros Es. rewrite Rt in Es.
  repeat split.
  - congruence.
  - unfold rendering in Rt. destruct (composer (gfx (this w9))); [discriminate|reflexivity].
  - unfold rendering in Es.
    destruct (composer (gfx (this (run es w9)))); [discriminate|congruence].
Qed.

Lemma missing_module_leaves_nothing_rendered_witness :
  renders (run [TimerFired; Frame 16; Scrolled (window_state 800 600 1 300 3000);
                Frame 32; Frame 48] example_world) = 0%nat.
Proof.
  exact (proj2 (proj2 (proj2
    (missing_module_leaves_nothing_rendered 1%nat 0 example_window no_modules
       [TimerFired; Frame 16; Scrolled (window_state 800 600 1 300 3000);
        Frame 32; Frame 48] eq_refl)))).
Defined.

(** ** Teardown *)

Ltac listeners_by_cases :=
  let w := fresh "w" in
  intro w; cbv beta; unfold listeners_of;
  norm; repeat (break_inner; norm);
  try discriminate;
  repeat match goal with H : ?x = _ |- context [?x] => rewrite H end;
  reflexivity.

Lemma remove_listener_absent t n l :
  forallb (fun reg => is_arrow (snd reg)) l = true ->
  remove_listener t (Bound_onResize n) l = l.
Proof.
  induction l as [|[t' cb] l IH]; cbn [forallb remove_listener snd]; [reflexivity|].
  intros H. apply andb_prop in H. destruct H as [Ha Hl].
  destruct cb; try discriminate Ha;
    cbn [Callback_eqb]; rewrite andb_false_r; now rewrite IH.
Qed.

Lemma tick_listeners now w :
  stale (this w) = nothing_assigned ->
  listeners_of (world_of (_tick now w)) = listeners_of w.
Proof.
  intros H. apply tick_keeps; try assumption.
  - unfold begin_tick, requestAnimationFrame, getDelta. intro w0. simpl. now break_match.
  - unfold _updateCamera. listeners_by_cases.
  - unfold _updateMouseLight. listeners_by_cases.
  - intro d. unfold spin_particles. listeners_by_cases.
  - unfold update_chromaticAberration. listeners_by_cases.
  - intros w' w1 _. revert w1. unfold render. listeners_by_cases.
Qed.

Lemma listeners_settle c w :
  listeners_of (world_of c) = listeners_of w -> listeners_of (settle c) = listeners_of w.
Proof. destruct c; simpl; auto. Qed.

Lemma listeners_run_listener cb x y : keeps listeners_of (run_listener cb x y).
Proof.
  destruct cb; intro w; cbn [run_listener].
  - revert w. unfold on_resize, uncaught. listeners_by_cases.
  - revert w. unfold on_mousemove. listeners_by_cases.
  - revert w. unfold on_scroll. listeners_by_cases.
  - reflexivity.
Qed.

Lemma listeners_dispatch t x y w : listeners_of (dispatch t x y w) = listeners_of w.
Proof.
  unfold dispatch.
  apply (keeps_fold listeners_of
           (fun w' reg => if EventType_eqb t (fst reg)
                          then run_listener (snd reg) x y w' else w')).
  intros reg w'. destruct (EventType_eqb t (fst reg)); [|reflexivity].
  apply listeners_run_listener.
Qed.

Lemma listeners_dispose_scene : keeps listeners_of dispose_scene.
Proof.
  intro w. unfold dispose_scene.
  destruct (scene (gfx (this w))); [|reflexivity]. cbv zeta.
  pose proof (keeps_fold listeners_of (fun w' o => dispose_object o w') (heap w)) as F.
  assert (D : forall o, keeps listeners_of (fun w0 => dispose_object o w0)).
  { intro o. unfold dispose_object. listeners_by_cases. }
  specialize (F D w). cbv beta in F.
  set (wf := fold_left (fun w' o => dispose_object o w') (heap w) w) in *.
  now destruct (particleSystem (gfx (this wf))).
Qed.

(** In a world where the registered callbacks are the arrow functions and
    nothing is assigned, [destroy] detaches no listener. *)
Lemma destroy_detaches_nothing w :
  stale (this w) = nothing_assigned ->
  forallb (fun reg => is_arrow (snd reg)) (listeners_of w) = true ->
  listeners_of (destroy w) = listeners_of w.
Proof.
  intros Hs Ha. unfold destroy. cbv zeta.
  rewrite listeners_dispose_scene.
  assert (C : keeps listeners_of dispose_composer).
  { unfold dispose_composer. listeners_by_cases. }
  assert (R : keeps listeners_of dispose_renderer).
  { unfold dispose_renderer. listeners_by_cases. }
  rewrite C, R. unfold kill_all_ScrollTriggers.
  change (listeners_of (upd_env (fun b => set_triggers b [])
                          (remove_event_listeners (cancel_render_loop w))))
    with (listeners_of (remove_event_listeners (cancel_render_loop w))).
  assert (A : keeps listeners_of cancel_render_loop).
  { unfold cancel_render_loop, cancelAnimationFrame. listeners_by_cases. }
  assert (H1 : stale (this (cancel_render_loop w)) = nothing_assigned).
  { pose proof (proj1 steady_cancel_render_loop w) as E. unfold core in E. congruence. }
  unfold remove_event_listeners, removeEventListener. norm. rewrite H1.
  unfold listeners_of in *. norm.
  change (listeners (env (cancel_render_loop w))) with (listeners_of (cancel_render_loop w)).
  rewrite A. unfold listeners_of. now apply remove_listener_absent.
Qed.

Lemma listeners_step e w :
  invariant w ->
  forallb (fun reg => is_arrow (snd reg)) (listeners_of w) = true ->
  listeners_of (step e w) = listeners_of w.
Proof.
  intros I Ha.
  assert (Hs : stale (this w) = nothing_assigned) by apply I.
  assert (T : triggers (env w) = [] \/ triggers (env w) = scrubbed_triggers).
  { destruct I as (_ & _ & _ & _ & _ & I6 & _). unfold wiring in I6.
    destruct I6 as [I6 | [I6 | I6]]; injection I6; auto. }
  destruct e as [now|win|x y|win| |t p|t| |now]; simpl.
  - destruct (raf_pending (env w)) as [|id rest]; [reflexivity|].
    apply listeners_settle.
    exact (tick_listeners now (upd_env (fun b => set_raf_pending b rest) w) Hs).
  - now rewrite listeners_dispatch.
  - now rewrite listeners_dispatch.
  - now rewrite listeners_dispatch.
  - destruct (timers (env w)) as [|[] rest]; [reflexivity|].
    now rewrite _initScrollAnimations_idle by exact Hs.
  - destruct (registered t w) eqn:R; [|reflexivity].
    destruct (registered_scrubbed t w T R) as [-> | [-> | ->]];
      revert w I Ha Hs T R; unfold onUpdate; intros w _ _ _ _ _; revert w;
      listeners_by_cases.
  - destruct (registered t w) eqn:R; [|reflexivity].
    now rewrite (onEnter_scrubbed t w (registered_scrubbed t w T R)).
  - now apply destroy_detaches_nothing.
  - apply listeners_settle. now apply tick_listeners.
Qed.

Lemma boot_listeners canvas win gl m :
  forallb (fun reg => is_arrow (snd reg))
          (listeners_of (world_of (boot canvas (page win gl m)))) = true.
Proof.
  unfold boot, _initRenderer. cbn [webgl page env].
  destruct gl; [|reflexivity].
  cbn [andThen world_of]. destruct m as [[] [] [] []]; reflexivity.
Qed.

Lemma reachable_listeners w :
  reachable w -> forallb (fun reg => is_arrow (snd reg)) (listeners_of w) = true.
Proof.
  induction 1 as [canvas now win gl m | e w R IH].
  - unfold constructor.
    pose proof (boot_listeners canvas win gl m) as B.
    destruct (boot_invariant canvas win gl m) as [I _].
    destruct (boot canvas (page win gl m)) as [w8|e w8]; cbn [andThen world_of] in *.
    + rewrite tick_listeners; [exact B | apply I].
    + exact B.
  - rewrite listeners_step; [exact IH | now apply reachable_invariant | exact IH].
Qed.

(** Whatever happened before, [destroy] leaves every window listener of a
    running engine registered. *)
Lemma destroy_never_detaches w :
  reachable w -> listeners (env (destroy w)) = listeners (env w).
Proof.
  intros R. apply destroy_detaches_nothing.
  - apply (reachable_invariant w R).
  - now apply reachable_listeners.
Qed.

(** C6.  On the example engine, [destroy()] cancels the pending frame and
    kills the scroll triggers, but the three window listeners stay registered
    and still react, and a later call of [_tick] is not a no-op: it advances
    the time and requests a new animation frame.  A second [destroy()]
    disposes the resources again, and a [destroy()] issued before the 100 ms
    timer has elapsed does not keep the timer from registering the scroll
    triggers afterwards. *)
Theorem destroy_leaves_listeners_and_tick_running :
  let w := step Destroy wired_world in
  raf_pending (env w) = []
  /\ triggers (env w) = []
  /\ listeners (env w) =
       [(resize, ResizeArrow); (mousemove, MouseMoveArrow); (scroll_event, ScrollArrow)]
  /\ mouse (this (step (MouseMoved 800 0) w)) <> mouse (this w)
  /\ scrollY (scroll (this (step (Scrolled (window_state 800 600 1 300 3000)) w))) = 300
  /\ raf_pending (env (step (CallTick 48) w)) = [2%nat]
  /\ _animFrameId (this (step (CallTick 48) w)) = Some 2%nat
  /\ time (this (step (CallTick 48) w)) = 0.048 + time (this w)
  /\ gpu (env (step Destroy w)) <> gpu (env w)
  /\ triggers (env (step TimerFired (step Destroy example_world))) = scrubbed_triggers.
Proof.
  vm_compute. repeat split; try reflexivity; discriminate.
Qed.

(* ------------------------------------------------------------------ *)
(** ** Scrubbing *)

(** C7.  In a running engine the scrubbed targets (wave amplitude, the four
    bar heights, contact sphere scale) after scrolling through any sequence of
    positions are those of scrolling straight to the last position: they are
    a function of the current progress, not of the history.  The bar heights
    are the constant 0. *)
Theorem scrubbed_targets_forget_history w history p :
  reachable w ->
  targets_of (drive (history ++ [p]) w) = targets_of (scroll_to p w)
  /\ target_barHeights (targets_of (scroll_to p w)) = [0; 0; 0; 0]
  /\ targets_of (scroll_to p w)
       = (if registered ShowcaseTrigger w
          then targets (scrubbed_wave (p ShowcaseTrigger)) [0; 0; 0; 0]
                       (1 + p ContactTrigger * 1.5)
          else targets_of w).
Proof.
  intros R.
  assert (B : barHeights (scroll (this w)) = [0; 0; 0; 0])
    by apply (reachable_invariant w R).
  rewrite drive_app.
  destruct (reachable_triggers w R) as [T | T].
  - rewrite (drive_unwired history w T), (scroll_to_unwired p w T).
    repeat split; [exact B|].
    unfold registered. rewrite T. reflexivity.
  - destruct (drive_wired history w T) as [T' B'].
    destruct (scroll_to_wired p _ T') as (_ & B1 & W1 & C1 & _).
    destruct (scroll_to_wired p w T) as (_ & B2 & W2 & C2 & _).
    unfold registered. rewrite T. cbn [scrubbed_triggers existsb Trigger_eqb orb].
    unfold targets_of. cbn [target_barHeights].
    rewrite B1, W1, C1, B2, W2, C2, B', B. repeat split.
Qed.

Lemma scrubbed_targets_forget_history_witness :
  targets_of (drive ([fun _ => 0; fun _ => 0.5] ++ [fun _ => 0.2]) wired_world)
    = targets_of (scroll_to (fun _ => 0.2) wired_world).
Proof.
  exact (proj1 (scrubbed_targets_forget_history wired_world
                  [fun _ => 0; fun _ => 0.5] (fun _ => 0.2) reachable_wired_world)).
Defined.

(** ** Particle buffers *)

(** *** Rounding *)

Module FloatProofs.

Import Reals Lra Float.
Local Open Scope R_scope.

Lemma Rabs_bound x a : Rabs x <= a -> - a <= x <= a.
Proof. unfold Rabs. destruct (Rcase_abs x); lra. Qed.

Lemma pow2_pos e : 0 < pow2 e.
Proof. apply powerRZ_lt. lra. Qed.

Lemma pow2_add a b : pow2 (a + b) = pow2 a * pow2 b.
Proof. apply powerRZ_add. lra. Qed.

Lemma pow2_0 : pow2 0 = 1.
Proof. reflexivity. Qed.

Lemma pow2_cancel e : pow2 (- e) * pow2 e = 1.
Proof. rewrite <- pow2_add. replace (- e + e)%Z with 0%Z by lia. reflexivity. Qed.

Lemma pow2_shift_le x y e : x <= y * pow2 e -> x * pow2 (- e) <= y.
Proof.
  intros H. pose proof (pow2_pos (- e)) as P'. pose proof (pow2_cancel e) as C.
  apply Rmult_le_compat_r with (r := pow2 (- e)) in H; [|lra].
  rewrite Rmult_assoc, (Rmult_comm (pow2 e)), C, Rmult_1_r in H. exact H.
Qed.

Lemma pow2_shift_ge x y e : y * pow2 e <= x -> y <= x * pow2 (- e).
Proof.
  intros H. pose proof (pow2_pos (- e)) as P'. pose proof (pow2_cancel e) as C.
  apply Rmult_le_compat_r with (r := pow2 (- e)) in H; [|lra].
  rewrite Rmult_assoc, (Rmult_comm (pow2 e)), C, Rmult_1_r in H. exact H.
Qed.

Lemma pow2_nonneg_IZR n : (0 <= n)%Z -> pow2 n = IZR (2 ^ n).
Proof.
  intros Hn. unfold pow2. destruct n as [|p|p]; [reflexivity| |lia].
  cbn [powerRZ]. rewrite pow_IZR, positive_nat_Z. reflexivity.
Qed.

Lemma pow2_ge_1 n : (0 <= n)%Z -> 1 <= pow2 n.
Proof.
  intros Hn. rewrite pow2_nonneg_IZR by assumption.
  apply IZR_le. pose proof (Z.pow_pos_nonneg 2 n). lia.
Qed.

Lemma pow2_le a b : (a <= b)%Z -> pow2 a <= pow2 b.
Proof.
  intros H. replace b with (a + (b - a))%Z by lia. rewrite pow2_add.
  pose proof (pow2_pos a). pose proof (pow2_ge_1 (b - a) ltac:(lia)). nra.
Qed.

Lemma pow2_S a : pow2 (a + 1) = 2 * pow2 a.
Proof. rewrite pow2_add. change (pow2 1) with (2 * 1). lra. Qed.

Lemma pow2_lt a b : (a < b)%Z -> pow2 a < pow2 b.
Proof.
  intros H. apply Rlt_le_trans with (pow2 (a + 1)).
  - rewrite pow2_S. pose proof (pow2_pos a). lra.
  - apply pow2_le. lia.
Qed.

Lemma pow2_lt_inv a b : pow2 a < pow2 b -> (a < b)%Z.
Proof.
  intros H. destruct (Z_lt_le_dec a b) as [L|L]; [exact L|].
  pose proof (pow2_le b a L). lra.
Qed.

Lemma pow2_Rpower e : pow2 e = Rpower 2 (IZR e).
Proof. apply powerRZ_Rpower. lra. Qed.

(** The binade. *)
Lemma mag_spec x : x <> 0 -> pow2 (mag x - 1) <= Rabs x < pow2 (mag x).
Proof.
  intros Hx. assert (Ha : 0 < Rabs x) by now apply Rabs_pos_lt.
  assert (L2 : 0 < ln 2) by (rewrite <- ln_1; apply ln_increasing; lra).
  unfold mag. set (l := ln (Rabs x) / ln 2).
  destruct (archimed l) as [U1 U2].
  assert (E : Rabs x = Rpower 2 l).
  { unfold Rpower, l. replace (ln (Rabs x) / ln 2 * ln 2) with (ln (Rabs x)) by (field; lra).
    now rewrite exp_ln. }
  rewrite !pow2_Rpower, E, minus_IZR. split.
  - apply Rle_Rpower; lra.
  - apply Rpower_lt; lra.
Qed.

Lemma mag_unique x e : pow2 (e - 1) <= Rabs x < pow2 e -> mag x = e.
Proof.
  intros [H1 H2].
  assert (Hx : x <> 0).
  { intros ->. rewrite Rabs_R0 in H1. pose proof (pow2_pos (e - 1)). lra. }
  destruct (mag_spec x Hx) as [M1 M2].
  assert (A : (e - 1 < mag x)%Z) by (apply pow2_lt_inv; lra).
  assert (B : (mag x - 1 < e)%Z) by (apply pow2_lt_inv; lra).
  lia.
Qed.

Lemma mag_opp x : mag (- x) = mag x.
Proof. unfold mag. now rewrite Rabs_Ropp. Qed.

Lemma mag_le x y : 0 < x -> x <= y -> (mag x <= mag y)%Z.
Proof.
  intros Hx Hxy.
  destruct (mag_spec x ltac:(lra)) as [A _].
  destruct (mag_spec y ltac:(lra)) as [_ B].
  rewrite Rabs_pos_eq in A, B by lra.
  assert (C : (mag x - 1 < mag y)%Z) by (apply pow2_lt_inv; lra).
  lia.
Qed.

(** Nearest-even on the integers' grid. *)
Lemma rne_cases t :
  (rne t = Zfloor t \/ rne t = (Zfloor t + 1)%Z)
  /\ Rabs (IZR (rne t) - t) <= 1 / 2.
Proof.
  unfold rne. pose proof (Zfloor_bound t) as [B1 B2].
  destruct (total_order_T (t - IZR (Zfloor t)) (1 / 2)) as [[L|E]|G].
  - split; [now left|]. apply Rabs_le. lra.
  - destruct (Z.even (Zfloor t)).
    + split; [now left|]. apply Rabs_le. lra.
    + split; [now right|]. rewrite plus_IZR. apply Rabs_le. lra.
  - split; [now right|]. rewrite plus_IZR. apply Rabs_le. lra.
Qed.

Lemma rne_error t : Rabs (IZR (rne t) - t) <= 1 / 2.
Proof. apply rne_cases. Qed.

Lemma rne_IZR k : rne (IZR k) = k.
Proof.
  unfold rne. rewrite ZfloorZ.
  destruct (total_order_T (IZR k - IZR k) (1 / 2)) as [[L|E]|G]; [reflexivity|lra|lra].
Qed.

Lemma rne_le_int t k : t <= IZR k -> (rne t <= k)%Z.
Proof.
  intros H. unfold rne. pose proof (Zfloor_bound t) as [B1 B2].
  assert (F : (Zfloor t <= k)%Z) by (apply le_IZR; lra).
  destruct (Z.eq_dec (Zfloor t) k) as [E|N].
  - assert (t = IZR k) by (rewrite E in B1; lra). subst t.
    destruct (total_order_T (IZR k - IZR (Zfloor (IZR k))) (1 / 2)) as [[L|E']|G];
      rewrite E in *; try lia; lra.
  - destruct (total_order_T (t - IZR (Zfloor t)) (1 / 2)) as [[L|E']|G];
      try destruct (Z.even _); lia.
Qed.

Lemma rne_ge_int t k : IZR k <= t -> (k <= rne t)%Z.
Proof.
  intros H. pose proof (Zfloor_lub k t H).
  destruct (rne_cases t) as [[-> | ->] _]; lia.
Qed.

Lemma rne_eq t k : Rabs (t - IZR k) < 1 / 2 -> rne t = k.
Proof.
  intros H. apply Rabs_def2 in H. destruct H as [H1 H2].
  pose proof (rne_error t) as E. apply Rabs_bound in E.
  assert (A : (rne t - k < 1)%Z) by (apply lt_IZR; rewrite minus_IZR; lra).
  assert (B : (-1 < rne t - k)%Z) by (apply lt_IZR; rewrite minus_IZR; lra).
  lia.
Qed.

Lemma Zfloor_opp_nonint t :
  IZR (Zfloor t) <> t -> Zfloor (- t) = (- Zfloor t - 1)%Z.
Proof.
  intros H. pose proof (Zfloor_bound t) as [B1 B2].
  apply Zfloor_eq. rewrite minus_IZR, opp_IZR. lra.
Qed.

Lemma rne_opp t : rne (- t) = (- rne t)%Z.
Proof.
  pose proof (Zfloor_bound t) as [B1 B2].
  destruct (Req_dec_T (IZR (Zfloor t)) t) as [E|N].
  - rewrite <- E, <- opp_IZR, !rne_IZR. reflexivity.
  - unfold rne. rewrite (Zfloor_opp_nonint t N).
    set (f := Zfloor t) in *.
    rewrite minus_IZR, opp_IZR.
    destruct (total_order_T (t - IZR f) (1 / 2)) as [[L|E]|G];
      destruct (total_order_T (- t - (- IZR f - 1)) (1 / 2)) as [[L'|E']|G'];
      try lra; try lia.
    replace (- f - 1)%Z with (- (f + 1))%Z by lia.
    rewrite Z.even_opp, Z.even_add. cbn [Z.even].
    destruct (Z.even f); cbn; lia.
Qed.

(** Rounding. *)
Section Format.

Variables prec emin : Z.
Hypothesis prec_pos : (0 < prec)%Z.

Lemma round_0 : round prec emin 0 = 0.
Proof. unfold round. rewrite Rmult_0_l, <- (rne_IZR 0) at 1. rewrite rne_IZR, rne_IZR. lra. Qed.

Lemma round_opp x : round prec emin (- x) = - round prec emin x.
Proof.
  unfold round. rewrite mag_opp.
  replace (- x * pow2 (- Z.max (mag x - prec) emin))
    with (- (x * pow2 (- Z.max (mag x - prec) emin))) by lra.
  rewrite rne_opp, opp_IZR. lra.
Qed.

(** A multiple of the unit in the last place of [x] bounds the rounding of
    [x] as it bounds [x]. *)
Lemma round_le_multiple x k :
  x <= IZR k * pow2 (Z.max (mag x - prec) emin) ->
  round prec emin x <= IZR k * pow2 (Z.max (mag x - prec) emin).
Proof.
  intros H. unfold round. set (e := Z.max (mag x - prec) emin) in *.
  apply pow2_shift_le, rne_le_int, IZR_le in H.
  apply Rmult_le_compat_r; [left; apply pow2_pos | exact H].
Qed.

Lemma round_ge_multiple x k :
  IZR k * pow2 (Z.max (mag x - prec) emin) <= x ->
  IZR k * pow2 (Z.max (mag x - prec) emin) <= round prec emin x.
Proof.
  intros H. unfold round. set (e := Z.max (mag x - prec) emin) in *.
  apply pow2_shift_ge, rne_ge_int, IZR_le in H.
  apply Rmult_le_compat_r; [left; apply pow2_pos | exact H].
Qed.

Lemma multiple_of_finer m e e' :
  (e' <= e)%Z -> IZR m * pow2 e = IZR (m * 2 ^ (e - e')) * pow2 e'.
Proof.
  intros H. rewrite mult_IZR, <- pow2_nonneg_IZR by lia.
  rewrite Rmult_assoc, <- pow2_add. f_equal. f_equal. lia.
Qed.

Lemma format_mag b m e :
  b = IZR m * pow2 e -> (Z.abs m < 2 ^ prec)%Z -> b <> 0 -> (mag b - prec <= e)%Z.
Proof.
  intros -> Hm Hb.
  destruct (mag_spec _ Hb) as [M _].
  assert (A : Rabs (IZR m * pow2 e) < pow2 (prec + e)).
  { rewrite Rabs_mult, (Rabs_pos_eq (pow2 e)) by (left; apply pow2_pos).
    rewrite pow2_add, (pow2_nonneg_IZR prec) by lia.
    rewrite <- abs_IZR. apply Rmult_lt_compat_r; [apply pow2_pos|].
    now apply IZR_lt. }
  assert (B : (mag (IZR m * pow2 e) - 1 < prec + e)%Z) by (apply pow2_lt_inv; lra).
  lia.
Qed.

Lemma round_le_pos x b : 0 < x -> x <= b -> representable prec emin b -> round prec emin x <= b.
Proof.
  intros Hx Hxb (m & e & Eb & Hm & He).
  pose proof (mag_le x b Hx Hxb) as Hmag.
  pose proof (format_mag b m e Eb Hm ltac:(lra)) as Hfm.
  set (ex := Z.max (mag x - prec) emin).
  assert (Hex : (ex <= e)%Z) by (unfold ex; lia).
  rewrite Eb, (multiple_of_finer m e ex Hex) in *.
  now apply round_le_multiple.
Qed.

Lemma round_ge_pos a x : 0 < a -> a <= x -> representable prec emin a -> a <= round prec emin x.
Proof.
  intros Ha Hax (m & e & Ea & Hm & He).
  pose proof (mag_le a x Ha Hax) as Hmag.
  pose proof (format_mag a m e Ea Hm ltac:(lra)) as Hfm.
  set (ex := Z.max (mag x - prec) emin).
  destruct (Z_lt_le_dec (mag a) (mag x)) as [Lt|Ge].
  - (* the power of two below [x] lies between *)
    destruct (mag_spec a ltac:(lra)) as [_ A2].
    destruct (mag_spec x ltac:(lra)) as [X1 _].
    rewrite Rabs_pos_eq in A2, X1 by lra.
    assert (Hm0 : (0 < m)%Z).
    { apply lt_IZR. pose proof (pow2_pos e). nra. }
    assert (Amin : pow2 emin <= a).
    { rewrite Ea. apply Rle_trans with (1 * pow2 e).
      - rewrite Rmult_1_l. now apply pow2_le.
      - apply Rmult_le_compat_r; [left; apply pow2_pos|]. apply IZR_le. lia. }
    assert (Hemin : (emin < mag a)%Z) by (apply pow2_lt_inv; lra).
    assert (Hex : (ex <= mag x - 1)%Z) by (unfold ex; lia).
    pose proof (multiple_of_finer 1 (mag x - 1) ex Hex) as Mu.
    rewrite Rmult_1_l in Mu.
    pose proof (pow2_le (mag a) (mag x - 1) ltac:(lia)) as Pl.
    apply Rle_trans with (pow2 (mag x - 1)); [lra|].
    rewrite Mu. apply round_ge_multiple. fold ex. rewrite <- Mu. exact X1.
  - assert (Hex : (ex <= e)%Z) by (unfold ex; lia).
    rewrite Ea, (multiple_of_finer m e ex Hex) in *.
    now apply round_ge_multiple.
Qed.

Lemma format_0 : representable prec emin 0.
Proof.
  exists 0%Z, emin. split; [lra|]. split; [|lia].
  cbn [Z.abs]. apply Z.pow_pos_nonneg; lia.
Qed.

Lemma format_opp x : representable prec emin x -> representable prec emin (- x).
Proof.
  intros (m & e & -> & Hm & He). exists (- m)%Z, e.
  rewrite opp_IZR, Z.abs_opp. split; [lra|]. now split.
Qed.

Lemma round_nonneg x : 0 <= x -> 0 <= round prec emin x.
Proof.
  intros H. pose proof (round_ge_multiple x 0) as G. rewrite Rmult_0_l in G. now apply G.
Qed.

Lemma round_nonpos x : x <= 0 -> round prec emin x <= 0.
Proof.
  intros H. pose proof (round_le_multiple x 0) as G. rewrite Rmult_0_l in G. now apply G.
Qed.

(** Rounding never crosses a number of the format. *)
Lemma round_le x b : x <= b -> representable prec emin b -> round prec emin x <= b.
Proof.
  intros Hxb Fb. destruct (Rlt_le_dec 0 x) as [Px|Nx].
  - now apply round_le_pos.
  - destruct (Rle_lt_dec 0 b) as [Pb|Nb].
    + pose proof (round_nonpos x Nx). lra.
    + pose proof (round_ge_pos (- b) (- x) ltac:(lra) ltac:(lra) (format_opp b Fb)) as G.
      rewrite round_opp in G. lra.
Qed.

Lemma round_ge a x : a <= x -> representable prec emin a -> a <= round prec emin x.
Proof.
  intros Hax Fa.
  pose proof (round_le (- x) (- a) ltac:(lra) (format_opp a Fa)) as G.
  rewrite round_opp in G. lra.
Qed.

Lemma round_id x : representable prec emin x -> round prec emin x = x.
Proof.
  intros F. pose proof (round_le x x ltac:(lra) F). pose proof (round_ge x x ltac:(lra) F).
  lra.
Qed.

(** The rounding error: half a unit in the last place. *)
Lemma round_error x :
  Rabs (round prec emin x - x) <= Rabs x * pow2 (- prec) + pow2 (emin - 1).
Proof.
  destruct (Req_dec_T x 0) as [->|Hx].
  { rewrite round_0, Rminus_0_r, Rabs_R0.
    pose proof (pow2_pos (emin - 1)). lra. }
  unfold round. set (e := Z.max (mag x - prec) emin).
  pose proof (pow2_pos e) as P. pose proof (pow2_cancel e) as C.
  pose proof (rne_error (x * pow2 (- e))) as E.
  replace (IZR (rne (x * pow2 (- e))) * pow2 e - x)
    with ((IZR (rne (x * pow2 (- e))) - x * pow2 (- e)) * pow2 e)
    by (rewrite Rmult_minus_distr_r, Rmult_assoc, C; lra).
  rewrite Rabs_mult, (Rabs_pos_eq (pow2 e)) by lra.
  assert (H2 : pow2 e = 2 * pow2 (e - 1)).
  { rewrite <- pow2_S. f_equal. lia. }
  apply Rle_trans with (pow2 (e - 1)); [nra|].
  destruct (mag_spec x Hx) as [M _].
  pose proof (Rabs_pos x) as Ax. pose proof (pow2_pos (- prec)).
  pose proof (pow2_pos (emin - 1)).
  destruct (Z.max_spec (mag x - prec) emin) as [[_ Em]|[_ Em]]; fold e in Em; rewrite Em.
  - nra.
  - replace (mag x - prec - 1)%Z with ((mag x - 1) + - prec)%Z by lia.
    rewrite pow2_add. nra.
Qed.

(** Evaluating a rounding from a bracket: when [x] lies in the binade
    [m] and within half a unit of [k] units in the last place. *)
Lemma round_eval x m k :
  pow2 (m - 1) <= Rabs x < pow2 m ->
  Rabs (x * pow2 (- Z.max (m - prec) emin) - IZR k) < 1 / 2 ->
  round prec emin x = IZR k * pow2 (Z.max (m - prec) emin).
Proof.
  intros Hm Hk. unfold round. rewrite (mag_unique x m Hm).
  now rewrite (rne_eq _ k Hk).
Qed.

End Format.

End FloatProofs.

(** *** The loop *)

Module ParticleProofs.

Import Reals Lra Float FloatProofs Particles.
Local Open Scope R_scope.

Lemma set_nth_length k v a : List.length (set_nth k v a) = List.length a.
Proof.
  revert k. induction a as [|x a IH]; intros [|k]; simpl; auto.
Qed.

Lemma store_length k v a : List.length (store k v a) = List.length a.
Proof. apply set_nth_length. Qed.

Lemma nth_store_same k v a d :
  (k < List.length a)%nat -> nth k (store k v a) d = binary32 v.
Proof.
  unfold store. revert k. induction a as [|x a IH]; intros [|k] H; simpl in *; try lia; auto.
  apply IH. lia.
Qed.

Lemma nth_store_other j k v a d : j <> k -> nth j (store k v a) d = nth j a d.
Proof.
  unfold store. revert j k.
  induction a as [|x a IH]; intros [|j] [|k] H; simpl; auto; try lia.
Qed.

Section Loop.

Variable h : Host.
Variable random : nat -> R.

Lemma body_lengths i bf : same_lengths bf (body h random i bf).
Proof.
  unfold same_lengths, body. cbn [positions scales randomness phases colors].
  repeat split; repeat (etransitivity; [apply store_length|]); reflexivity.
Qed.

Lemma loop_lengths n i bf : same_lengths bf (loop h random i n bf).
Proof.
  revert i bf. induction n as [|n IH]; intros i bf; cbn [loop].
  - unfold same_lengths. tauto.
  - destruct (IH (S i) (body h random i bf)) as (A1 & A2 & A3 & A4 & A5).
    destruct (body_lengths i bf) as (B1 & B2 & B3 & B4 & B5).
    unfold same_lengths. repeat split; etransitivity; eassumption.
Qed.

(** Iteration [i] writes the position slots [3 i], [3 i + 1], [3 i + 2]
    and no other. *)
Lemma body_positions_outside i m bf :
  (m < i * 3 \/ i * 3 + 3 <= m)%nat ->
  nth m (positions (body h random i bf)) 0 = nth m (positions bf) 0.
Proof.
  intros Hm. unfold body. cbn [positions].
  rewrite !nth_store_other by lia. reflexivity.
Qed.

Lemma loop_positions_outside n i m bf :
  (m < i * 3 \/ (i + n) * 3 <= m)%nat ->
  nth m (positions (loop h random i n bf)) 0 = nth m (positions bf) 0.
Proof.
  revert i bf. induction n as [|n IH]; intros i bf Hm; cbn [loop]; [reflexivity|].
  rewrite IH by lia. apply body_positions_outside; lia.
Qed.

Lemma body_positions_own i bf :
  (i * 3 + 2 < List.length (positions bf))%nat ->
  nth (i * 3) (positions (body h random i bf)) 0
  = binary32 (Math_cos h (angle random i) [*] radius random i)
  /\ nth (i * 3 + 2) (positions (body h random i bf)) 0
     = binary32 (Math_sin h (angle random i) [*] radius random i).
Proof.
  intros H. unfold body. cbn [positions]. split.
  - rewrite !nth_store_other by lia.
    rewrite nth_store_same by lia. reflexivity.
  - rewrite nth_store_same by (rewrite !store_length; lia). reflexivity.
Qed.

Lemma loop_positions_own n i j bf :
  (i <= j < i + n)%nat ->
  ((i + n) * 3 <= List.length (positions bf))%nat ->
  nth (j * 3) (positions (loop h random i n bf)) 0
  = binary32 (Math_cos h (angle random j) [*] radius random j)
  /\ nth (j * 3 + 2) (positions (loop h random i n bf)) 0
     = binary32 (Math_sin h (angle random j) [*] radius random j).
Proof.
  revert i bf. induction n as [|n IH]; intros i bf Hj Hl; [lia|].
  cbn [loop].
  destruct (Nat.eq_dec j i) as [-> | Hne].
  - rewrite !loop_positions_outside by lia.
    apply body_positions_own. lia.
  - apply IH; [lia|].
    destruct (body_lengths i bf) as (E & _). rewrite E. lia.
Qed.

Lemma Float32Array_length n : List.length (Float32Array n) = n.
Proof. apply repeat_length. Qed.

Lemma generate_lengths n :
  List.length (positions (generate h random n)) = (n * 3)%nat
  /\ List.length (scales (generate h random n)) = n
  /\ List.length (randomness (generate h random n)) = (n * 3)%nat
  /\ List.length (phases (generate h random n)) = n
  /\ List.length (colors (generate h random n)) = (n * 3)%nat.
Proof.
  unfold generate.
  destruct (loop_lengths n 0
              (buffers (Float32Array (n * 3)) (Float32Array n)
                       (Float32Array (n * 3)) (Float32Array n)
                       (Float32Array (n * 3)))) as (A1 & A2 & A3 & A4 & A5).
  cbn [positions scales randomness phases colors] in *.
  rewrite !Float32Array_length in *. tauto.
Qed.

(** The stored coordinates of particle [i]. *)
Lemma generate_positions n i :
  (i < n)%nat ->
  X (generate h random n) i = binary32 (Math_cos h (angle random i) [*] radius random i)
  /\ Z (generate h random n) i = binary32 (Math_sin h (angle random i) [*] radius random i).
Proof.
  intros Hi. unfold X, Z, generate.
  apply loop_positions_own; [lia|].
  cbn [positions]. rewrite Float32Array_length. lia.
Qed.

End Loop.

(** Small integers and their halves are binary64 numbers. *)
Lemma is_binary64_int m e :
  (Z.abs m < 2 ^ 53)%Z -> (- 1074 <= e)%Z -> is_binary64 (IZR m * pow2 e).
Proof. intros Hm He. exists m, e. now split. Qed.

Lemma is_binary64_1 : is_binary64 1.
Proof. replace 1 with (1 * pow2 0) by (rewrite pow2_0; lra). now apply is_binary64_int. Qed.

Lemma is_binary64_5 : is_binary64 5.
Proof. replace 5 with (5 * pow2 0) by (rewrite pow2_0; lra). now apply is_binary64_int. Qed.

Lemma binary64_le x b : x <= b -> is_binary64 b -> binary64 x <= b.
Proof. apply round_le. lia. Qed.

Lemma binary64_ge a x : a <= x -> is_binary64 a -> a <= binary64 x.
Proof. apply round_ge. lia. Qed.

Lemma binary64_nonneg x : 0 <= x -> 0 <= binary64 x.
Proof. apply round_nonneg. Qed.

(** The radius is a Number between 0 and 5. *)
Lemma radius_range random i :
  0 <= random (10 * i + 0)%nat < 1 -> 0 <= radius random i <= 5.
Proof.
  intros [H0 H1]. unfold radius, mul, Math_sqrt.
  assert (S0 : 0 <= sqrt (random (10 * i + 0)%nat)) by apply sqrt_pos.
  assert (S1 : sqrt (random (10 * i + 0)%nat) <= 1).
  { rewrite <- sqrt_1. apply sqrt_le_1; lra. }
  pose proof (binary64_nonneg _ S0) as B0.
  pose proof (binary64_le _ 1 S1 is_binary64_1) as B1.
  split.
  - apply binary64_nonneg. nra.
  - apply binary64_le; [nra | exact is_binary64_5].
Qed.

(** The two roundings of a stored coordinate. *)
Lemma stored_error x :
  Rabs (binary32 (binary64 x))
  <= Rabs x * (1 + pow2 (-24) + pow2 (-52)) + pow2 (-149).
Proof.
  pose proof (round_error 53 (-1074) x) as E1.
  pose proof (round_error 24 (-149) (binary64 x)) as E2.
  change (round 53 (-1074) x) with (binary64 x) in E1.
  change (round 24 (-149) (binary64 x)) with (binary32 (binary64 x)) in E2.
  set (d := binary64 x) in *. set (s := binary32 d) in *.
  pose proof (Rabs_triang_inv d x) as T1.
  pose proof (Rabs_triang_inv s d) as T2.
  pose proof (Rabs_pos x) as Px.
  change (pow2 (Z.opp 53)) with (/ 2 ^ 53) in E1.
  change (pow2 (-1074 - 1)) with (/ 2 ^ 1075) in E1.
  change (pow2 (Z.opp 24)) with (/ 2 ^ 24) in E2.
  change (pow2 (-149 - 1)) with (/ 2 ^ 150) in E2.
  change (pow2 (-24)) with (/ 2 ^ 24). change (pow2 (-52)) with (/ 2 ^ 52).
  change (pow2 (-149)) with (/ 2 ^ 149).
  assert (D : Rabs d <= Rabs x * (1 + / 2 ^ 53) + / 2 ^ 1075) by lra.
  assert (S : Rabs s <= Rabs d * (1 + / 2 ^ 24) + / 2 ^ 150) by lra.
  assert (K : Rabs d * (1 + / 2 ^ 24)
              <= (Rabs x * (1 + / 2 ^ 53) + / 2 ^ 1075) * (1 + / 2 ^ 24)).
  { apply Rmult_le_compat_r; lra. }
  assert (F : (Rabs x * (1 + / 2 ^ 53) + / 2 ^ 1075) * (1 + / 2 ^ 24) + / 2 ^ 150
              <= Rabs x * (1 + / 2 ^ 24 + / 2 ^ 52) + / 2 ^ 149).
  { replace ((Rabs x * (1 + / 2 ^ 53) + / 2 ^ 1075) * (1 + / 2 ^ 24) + / 2 ^ 150)
      with (Rabs x * ((1 + / 2 ^ 53) * (1 + / 2 ^ 24))
            + (/ 2 ^ 1075 * (1 + / 2 ^ 24) + / 2 ^ 150)) by ring.
    apply Rplus_le_compat; [apply Rmult_le_compat_l; lra | lra]. }
  lra.
Qed.

(** What an accurate host returns for one angle. *)
Lemma accurate_pair h x :
  accurate h ->
  Math_cos h x * Math_cos h x + Math_sin h x * Math_sin h x <= 1 + pow2 (-49).
Proof.
  intros A. destruct (A x) as [C S].
  pose proof (sin2_cos2 x) as T. unfold Rsqr in T.
  pose proof (COS_bound x) as Bc. pose proof (SIN_bound x) as Bs.
  apply Rabs_bound in C. apply Rabs_bound in S.
  change (pow2 (-52)) with (/ 2 ^ 52) in *. change (pow2 (-49)) with (/ 2 ^ 49).
  set (c := Math_cos h x) in *. set (s := Math_sin h x) in *.
  set (c0 := cos x) in *. set (s0 := sin x) in *.
  set (e := / 2 ^ 52) in *.
  assert (He : 0 < e <= / 2 ^ 52) by (unfold e; lra).
  assert (Ec : c * c <= c0 * c0 + 2 * e + e * e) by nra.
  assert (Es : s * s <= s0 * s0 + 2 * e + e * e) by nra.
  assert (E2 : e * e <= e) by nra.
  unfold e in *. lra.
Qed.

Lemma generate_near_disk h random n i :
  accurate h ->
  (forall k, 0 <= random k < 1) ->
  (i < n)%nat ->
  X (generate h random n) i * X (generate h random n) i
  + Z (generate h random n) i * Z (generate h random n) i
  <= R_max * R_max * (1 + pow2 (-22)).
Proof.
  intros A Hr Hi.
  destruct (generate_positions h random n i Hi) as [-> ->].
  destruct (radius_range random i (Hr _)) as [R0 R5].
  pose proof (accurate_pair h (angle random i) A) as P.
  set (r := radius random i) in *.
  set (c := Math_cos h (angle random i)) in *.
  set (s := Math_sin h (angle random i)) in *.
  unfold mul.
  pose proof (stored_error (c * r)) as Ex. pose proof (stored_error (s * r)) as Ez.
  set (x := binary32 (binary64 (c * r))) in *.
  set (z := binary32 (binary64 (s * r))) in *.
  rewrite Rabs_mult, (Rabs_pos_eq r) in Ex, Ez by lra.
  pose proof (Rabs_pos c) as Pc. pose proof (Rabs_pos s) as Ps.
  pose proof (Rabs_pos x) as Px. pose proof (Rabs_pos z) as Pz.
  assert (Sq : forall t, t * t = Rabs t * Rabs t).
  { intros t. unfold Rabs. destruct (Rcase_abs t); lra. }
  rewrite (Sq x), (Sq z). rewrite (Sq c), (Sq s) in P.
  set (a := Rabs c) in *. set (b := Rabs s) in *.
  set (ax := Rabs x) in *. set (az := Rabs z) in *.
  change (pow2 (-24)) with (/ 2 ^ 24) in *. change (pow2 (-52)) with (/ 2 ^ 52) in *.
  change (pow2 (-149)) with (/ 2 ^ 149) in *.
  change (pow2 (-49)) with (/ 2 ^ 49) in *. change (pow2 (-22)) with (/ 2 ^ 22).
  unfold R_max.
  set (k := 1 + / 2 ^ 24 + / 2 ^ 52) in *. set (sg := / 2 ^ 149) in *.
  assert (Hk : 1 <= k <= 2) by (unfold k; lra).
  assert (Hs : 0 < sg <= / 2 ^ 149) by (unfold sg; lra).
  (* the products are at most 5 (1 + 2^-49) in size *)
  assert (Ha : a <= 2) by nra.
  assert (Hb : b <= 2) by nra.
  assert (Ar : 0 <= a * r <= 10) by nra.
  assert (Br : 0 <= b * r <= 10) by nra.
  assert (Sum : a * r * (a * r) + b * r * (b * r) <= 25 * (1 + / 2 ^ 49)).
  { replace (a * r * (a * r) + b * r * (b * r)) with ((a * a + b * b) * (r * r)) by ring.
    assert (r * r <= 25) by nra. nra. }
  assert (Xq : ax * ax <= (a * r * k + sg) * (a * r * k + sg)) by nra.
  assert (Zq : az * az <= (b * r * k + sg) * (b * r * k + sg)) by nra.
  assert (Ex2 : (a * r * k + sg) * (a * r * k + sg) + (b * r * k + sg) * (b * r * k + sg)
                <= k * k * (a * r * (a * r) + b * r * (b * r)) + 40 * k * sg + 2 * sg * sg).
  { replace ((a * r * k + sg) * (a * r * k + sg) + (b * r * k + sg) * (b * r * k + sg))
      with (k * k * (a * r * (a * r) + b * r * (b * r))
            + 2 * (k * sg * (a * r + b * r)) + 2 * sg * sg) by ring.
    assert (k * sg * (a * r + b * r) <= k * sg * 20).
    { apply Rmult_le_compat_l; [|lra]. apply Rmult_le_pos; lra. }
    lra. }
  assert (Kk : k * k * (a * r * (a * r) + b * r * (b * r)) <= k * k * (25 * (1 + / 2 ^ 49))).
  { apply Rmult_le_compat_l; nra. }
  assert (Fin : k * k * (25 * (1 + / 2 ^ 49)) + 40 * k * sg + 2 * sg * sg
                <= 5 * 5 * (1 + / 2 ^ 22)).
  { unfold k, sg. lra. }
  lra.
Qed.

(** *** A particle outside the disk *)

Lemma binary64_eval x m e k :
  e = Z.max (m - 53) (-1074) ->
  pow2 (m - 1) <= Rabs x < pow2 m ->
  Rabs (x * pow2 (- e) - IZR k) < 1 / 2 ->
  binary64 x = IZR k * pow2 e.
Proof. intros ->. apply (round_eval 53 (-1074)). Qed.

Lemma binary32_eval x m e k :
  e = Z.max (m - 24) (-149) ->
  pow2 (m - 1) <= Rabs x < pow2 m ->
  Rabs (x * pow2 (- e) - IZR k) < 1 / 2 ->
  binary32 x = IZR k * pow2 e.
Proof. intros ->. apply (round_eval 24 (-149)). Qed.

Lemma binary64_0 : binary64 0 = 0.
Proof. apply round_0. Qed.

Lemma binary64_id x : is_binary64 x -> binary64 x = x.
Proof. apply round_id. lia. Qed.

(** The square root of the first draw. *)
Lemma edge_sqrt : Math_sqrt (1 - pow2 (-30)) = 1 - / 2 ^ 31.
Proof.
  unfold Math_sqrt. change (pow2 (-30)) with (/ 2 ^ 30).
  set (u := 1 - / 2 ^ 30). set (v := 1 - / 2 ^ 31).
  assert (Hv : v - / 2 ^ 60 < sqrt u < v).
  { split.
    - rewrite <- (sqrt_square (v - / 2 ^ 60)) by (unfold v; lra).
      apply sqrt_lt_1; unfold u, v; lra.
    - rewrite <- (sqrt_square v) by (unfold v; lra).
      apply sqrt_lt_1; unfold u, v; lra. }
  rewrite (binary64_eval (sqrt u) 0 (-53) 9007199250546688 eq_refl).
  - change (pow2 (-53)) with (/ 2 ^ 53). unfold v. lra.
  - change (pow2 (0 - 1)) with (/ 2 ^ 1). change (pow2 0) with 1.
    rewrite Rabs_pos_eq by (unfold v in Hv; lra). unfold v in Hv. lra.
  - change (pow2 (- -53)) with (2 ^ 53). apply Rabs_def1; unfold v in Hv; lra.
Qed.

Lemma edge_radius_eq : radius edge_stream 0 = edge_radius.
Proof.
  unfold radius, mul. cbn [Nat.mul Nat.add edge_stream]. rewrite edge_sqrt.
  rewrite binary64_id.
  - unfold edge_radius. lra.
  - exists 10737418235%Z, (-31)%Z. split; [|split; [reflexivity|lia]].
    change (pow2 (-31)) with (/ 2 ^ 31). lra.
Qed.

Lemma edge_angle_eq : angle edge_stream 0 = edge_angle.
Proof.
  unfold angle. rewrite edge_radius_eq. unfold mul, add, div.
  cbn [Nat.mul Nat.add edge_stream].
  unfold floorR, Rdiv.
  repeat first [ rewrite Rmult_0_l | rewrite Rplus_0_l | rewrite binary64_0
               | progress (change (Int_part 0) with (Zfloor (IZR 0)); rewrite ZfloorZ) ].
  assert (F : is_binary64 (edge_radius * 0.5)).
  { exists 10737418235%Z, (-32)%Z. split; [|split; [reflexivity|lia]].
    change (pow2 (-32)) with (/ 2 ^ 32). unfold edge_radius. lra. }
  rewrite !(binary64_id _ F). unfold edge_radius, edge_angle. lra.
Qed.

(** The terms of the sine series, each from the one before. *)
Lemma sin_term_0 a : sin_term a 0 = a.
Proof. unfold sin_term. simpl. field. Qed.

Lemma sin_term_S a i :
  sin_term a (S i)
  = - (sin_term a i * (a * a)
       / (IZR (Z.of_nat (2 * i + 2)) * IZR (Z.of_nat (2 * i + 3)))).
Proof.
  unfold sin_term.
  replace (2 * S i + 1)%nat with (S (S (2 * i + 1))) by lia.
  rewrite !fact_simpl, !mult_INR, <- !INR_IZR_INZ.
  replace (S (S (2 * i + 1))) with (2 * i + 3)%nat by lia.
  replace (S (2 * i + 1)) with (2 * i + 2)%nat by lia.
  replace (2 * i + 3)%nat with (S (S (2 * i + 1))) at 1 by lia.
  pose proof (INR_fact_neq_0 (2 * i + 1)).
  assert (INR (2 * i + 2) <> 0) by (apply not_0_INR; lia).
  assert (INR (2 * i + 3) <> 0) by (apply not_0_INR; lia).
  cbn [pow]. field. repeat split; assumption.
Qed.

Ltac sine_series H :=
  unfold sin_approx in H; cbn [Nat.mul Nat.add sum_f_R0] in H;
  rewrite !sin_term_S, sin_term_0 in H;
  cbn [Z.of_nat Nat.mul Nat.add Pos.of_succ_nat Pos.succ] in H.

Lemma edge_sin : 0.59847214503 <= sin edge_angle <= 0.59847214504.
Proof.
  destruct (pre_sin_bound edge_angle 4) as [L U]; try (unfold edge_angle; lra).
  sine_series L. sine_series U. unfold edge_angle in *. lra.
Qed.

Lemma edge_half_sin : 0.94898461917 <= sin (edge_angle / 2) <= 0.94898461918.
Proof.
  destruct (pre_sin_bound (edge_angle / 2) 3) as [L U]; try (unfold edge_angle; lra).
  sine_series L. sine_series U. unfold edge_angle in *. lra.
Qed.

Lemma edge_cos : -0.80114361489 <= cos edge_angle <= -0.80114361484.
Proof.
  pose proof edge_half_sin as H.
  replace edge_angle with (2 * (edge_angle / 2)) by field.
  rewrite cos_2a_sin. set (s := sin (edge_angle / 2)) in *. nra.
Qed.

(** A product below 8 in size moves by less than [2^-49] when rounded to a
    Number. *)
Lemma binary64_near y : Rabs y <= 8 -> Rabs (binary64 y - y) <= / 2 ^ 49.
Proof.
  intros H. pose proof (round_error 53 (-1074) y) as E.
  change (round 53 (-1074) y) with (binary64 y) in E.
  change (pow2 (Z.opp 53)) with (/ 2 ^ 53) in E.
  change (pow2 (-1074 - 1)) with (/ 2 ^ 1075) in E.
  pose proof (Rabs_pos y). lra.
Qed.

Section AnyAccurateHost.

Variable h : Host.
Hypothesis h_accurate : accurate h.

Lemma edge_X :
  binary32 (Math_cos h edge_angle [*] edge_radius) = -8400600 * pow2 (-21).
Proof.
  destruct (h_accurate edge_angle) as [C _]. apply Rabs_bound in C.
  change (pow2 (-52)) with (/ 2 ^ 52) in C. pose proof edge_cos as B.
  unfold mul. set (c := Math_cos h edge_angle) in *.
  assert (Hy : -4.0057180727 <= c * edge_radius <= -4.0057180722)
    by (unfold edge_radius; lra).
  pose proof (binary64_near (c * edge_radius)) as N.
  rewrite Rabs_left in N by lra. specialize (N ltac:(lra)). apply Rabs_bound in N.
  set (yd := binary64 (c * edge_radius)) in *.
  rewrite (binary32_eval yd 3 (-21) (-8400600) eq_refl); [reflexivity| |].
  - change (pow2 (3 - 1)) with (2 ^ 2). change (pow2 3) with (2 ^ 3).
    rewrite Rabs_left by lra. lra.
  - change (pow2 (- -21)) with (2 ^ 21). apply Rabs_def1; lra.
Qed.

Lemma edge_Z :
  binary32 (Math_sin h edge_angle [*] edge_radius) = 12550871 * pow2 (-22).
Proof.
  destruct (h_accurate edge_angle) as [_ S]. apply Rabs_bound in S.
  change (pow2 (-52)) with (/ 2 ^ 52) in S. pose proof edge_sin as B.
  unfold mul. set (s := Math_sin h edge_angle) in *.
  assert (Hy : 2.9923607237 <= s * edge_radius <= 2.9923607252)
    by (unfold edge_radius; lra).
  pose proof (binary64_near (s * edge_radius)) as N.
  rewrite Rabs_pos_eq in N by lra. specialize (N ltac:(lra)). apply Rabs_bound in N.
  set (yd := binary64 (s * edge_radius)) in *.
  rewrite (binary32_eval yd 2 (-22) 12550871 eq_refl); [reflexivity| |].
  - change (pow2 (2 - 1)) with (2 ^ 1). change (pow2 2) with (2 ^ 2).
    rewrite Rabs_pos_eq by lra. lra.
  - change (pow2 (- -22)) with (2 ^ 22). apply Rabs_def1; lra.
Qed.

(** On every accurate host the first particle of [edge_stream] is stored
    outside the disk. *)
Lemma edge_particle n :
  (0 < n)%nat ->
  X (generate h edge_stream n) 0 = -8400600 * pow2 (-21)
  /\ Z (generate h edge_stream n) 0 = 12550871 * pow2 (-22)
  /\ R_max * R_max
     < X (generate h edge_stream n) 0 * X (generate h edge_stream n) 0
       + Z (generate h edge_stream n) 0 * Z (generate h edge_stream n) 0.
Proof.
  intros Hn. destruct (generate_positions h edge_stream n 0 Hn) as [-> ->].
  rewrite edge_angle_eq, edge_radius_eq, edge_X, edge_Z.
  split; [reflexivity|]. split; [reflexivity|].
  change (pow2 (-21)) with (/ 2 ^ 21). change (pow2 (-22)) with (/ 2 ^ 22).
  unfold R_max. lra.
Qed.

End AnyAccurateHost.

Lemma correctly_rounded_accurate : accurate correctly_rounded.
Proof.
  intros x. cbn [correctly_rounded Math_cos Math_sin].
  pose proof (round_error 53 (-1074) (cos x)) as C.
  pose proof (round_error 53 (-1074) (sin x)) as S.
  change (pow2 (Z.opp 53)) with (/ 2 ^ 53) in C, S.
  change (pow2 (-1074 - 1)) with (/ 2 ^ 1075) in C, S.
  change (pow2 (-52)) with (/ 2 ^ 52).
  pose proof (COS_bound x) as Bc. pose proof (SIN_bound x) as Bs.
  assert (Ac : Rabs (cos x) <= 1) by (apply Rabs_le; lra).
  assert (As : Rabs (sin x) <= 1) by (apply Rabs_le; lra).
  unfold binary64. split; lra.
Qed.

Lemma edge_stream_numbers k : is_binary64 (edge_stream k) /\ 0 <= edge_stream k < 1.
Proof.
  destruct k as [|k]; cbn [edge_stream].
  - change (pow2 (-30)) with (/ 2 ^ 30). split; [|lra].
    exists 1073741823%Z, (-30)%Z. split; [|split; [reflexivity|lia]].
    change (pow2 (-30)) with (/ 2 ^ 30). lra.
  - split; [|lra]. apply format_0. lia.
Qed.

Lemma count_pos : (0 < count)%nat.
Proof.
  unfold count, particle_count.
  apply Nat.compare_lt_iff. change 0%nat with (N.to_nat 0).
  rewrite <- N2Nat.inj_compare. reflexivity.
Defined.

(** C8.  On a host whose [Math.cos] and [Math.sin] are accurate to
    [2^-52], and whatever [Math.random] returns (in [0, 1)), particle
    generation fills buffers for exactly 80000 particles: positions,
    randomness and colors of length 240000, scales and phases of length
    80000; and every particle is stored within the disk of radius 5 up to
    the rounding of its coordinates: X*X + Z*Z <= 25 (1 + 2^-22). *)
Theorem particle_buffers_fixed_and_near_disk (h : Host) (random : nat -> R) :
  accurate h ->
  (forall k, 0 <= random k < 1) ->
  let bf := generate h random count in
  N.of_nat count = 80000%N
  /\ N.of_nat (List.length (positions bf)) = 240000%N
  /\ N.of_nat (List.length (scales bf)) = 80000%N
  /\ N.of_nat (List.length (randomness bf)) = 240000%N
  /\ N.of_nat (List.length (phases bf)) = 80000%N
  /\ N.of_nat (List.length (colors bf)) = 240000%N
  /\ R_max = 5
  /\ forall i, (i < count)%nat ->
       X bf i * X bf i + Z bf i * Z bf i <= R_max * R_max * (1 + pow2 (-22)).
Proof.
  intros A Hr bf.
  assert (Hc : N.of_nat count = 80000%N).
  { unfold count. now rewrite N2Nat.id. }
  assert (H3 : N.of_nat (count * 3) = 240000%N).
  { now rewrite Nat2N.inj_mul, Hc. }
  destruct (generate_lengths h random count) as (L1 & L2 & L3 & L4 & L5).
  fold bf in L1, L2, L3, L4, L5.
  rewrite L1, L2, L3, L4, L5.
  split; [exact Hc|]. split; [exact H3|]. split; [exact Hc|].
  split; [exact H3|]. split; [exact Hc|]. split; [exact H3|].
  split; [reflexivity|].
  intros i Hi. now apply generate_near_disk.
Qed.

Lemma particle_buffers_fixed_and_near_disk_witness :
  let bf := generate correctly_rounded (fun _ => 1 / 2) count in
  N.of_nat (List.length (positions bf)) = 240000%N
  /\ X bf 0 * X bf 0 + Z bf 0 * Z bf 0 <= R_max * R_max * (1 + pow2 (-22)).
Proof.
  assert (Hr : forall k : nat, 0 <= (fun _ : nat => 1 / 2) k < 1) by (intros _; lra).
  destruct (particle_buffers_fixed_and_near_disk correctly_rounded (fun _ => 1 / 2)
              correctly_rounded_accurate Hr) as (_ & L & _ & _ & _ & _ & _ & D).
  exact (conj L (D 0%nat count_pos)).
Defined.

(** C8 as it is worded fails: on the host with correctly rounded cosine
    and sine (as on every accurate one), when [Math.random] returns
    [1 - 2^-30] and then zeros, the first particle is stored at
    X = -8400600 / 2^21, Z = 12550871 / 2^22, outside the disk of radius 5
    by about 1.9e-6. *)
Lemma a_stored_particle_leaves_the_disk :
  accurate correctly_rounded
  /\ (forall k, is_binary64 (edge_stream k) /\ 0 <= edge_stream k < 1)
  /\ X (generate correctly_rounded edge_stream count) 0 = -8400600 * pow2 (-21)
  /\ Z (generate correctly_rounded edge_stream count) 0 = 12550871 * pow2 (-22)
  /\ R_max * R_max
     < X (generate correctly_rounded edge_stream count) 0
       * X (generate correctly_rounded edge_stream count) 0
       + Z (generate correctly_rounded edge_stream count) 0
         * Z (generate correctly_rounded edge_stream count) 0.
Proof.
  split; [exact correctly_rounded_accurate|].
  split; [exact edge_stream_numbers|].
  exact (edge_particle correctly_rounded correctly_rounded_accurate count count_pos).
Qed.

End ParticleProofs.

(* ------------------------------------------------------------------ *)
(** ** The curl noise of the particle shader *)

(** C9.  The field [curlNoise] of the particle shader is not divergence-free:
    at the point (2.3, 1.1, 0.6) the central-difference estimate of its
    divergence, with step 0.01, exceeds 6 in absolute value (the components
    of the field there are below 0.6), so it does not stay within a tolerance
    of 6, let alone a small one. *)
Theorem curlNoise_divergence_is_large :
  6 < Qabs (Glsl.divergence_fd Glsl.curlNoise 0.01 sample_point)
  /\ Qabs (x3 (Glsl.curlNoise sample_point)) < 0.6
  /\ Qabs (y3 (Glsl.curlNoise sample_point)) < 0.6
  /\ Qabs (z3 (Glsl.curlNoise sample_point)) < 0.6
  /\ ~ Glsl.divergence_free_on Glsl.curlNoise 0.01 6 [sample_point].
Proof.
  assert (F : Qabs (x3 (Glsl.curlNoise sample_point)) < 0.6
              /\ Qabs (y3 (Glsl.curlNoise sample_point)) < 0.6
              /\ Qabs (z3 (Glsl.curlNoise sample_point)) < 0.6).
  { vm_compute. repeat split. }
  assert (H : 6 < Qabs (Glsl.divergence_fd Glsl.curlNoise 0.01 sample_point)).
  { vm_compute. reflexivity. }
  split; [exact H|]. destruct F as (F1 & F2 & F3).
  split; [exact F1|]. split; [exact F2|]. split; [exact F3|].
  intros D. specialize (D sample_point (or_introl eq_refl)).
  exact (Qlt_not_le _ _ H D).
Qed.

(** ** The damped follow *)

Lemma pose_begin_tick now : keeps pose (fun w => snd (begin_tick now w)).
Proof.
  unfold begin_tick, requestAnimationFrame, getDelta. intro w. simpl. now break_match.
Qed.

Lemma pose_spin_particles d : keeps pose (spin_particles d).
Proof. unfold spin_particles. frame_by_cases. Qed.

Lemma pose_update_chromaticAberration :
  keeps pose (fun w => world_of (update_chromaticAberration w)).
Proof. unfold update_chromaticAberration. frame_by_cases. Qed.

Lemma pose_render : keeps pose render.
Proof. unfold render. frame_by_cases. Qed.

Lemma pose_updates w : pose (_updateMouseLight (_updateCamera w)) = follow (pose w).
Proof.
  unfold _updateMouseLight, _updateCamera, pose, follow, approach.
  destruct (camera (gfx (this w))) eqn:Ec, (mouseLight (gfx (this w))) eqn:El;
    norm; rewrite ?Ec, ?El; norm; rewrite ?Ec, ?El; reflexivity.
Qed.

Lemma tick_pose now w :
  stale (this w) = nothing_assigned ->
  pose (world_of (_tick now w)) = follow (pose w).
Proof.
  intros H. rewrite (tick_shape now w H).
  pose proof (pose_begin_tick now w) as B. cbv beta in B.
  destruct (begin_tick now w) as [delta w1]. cbn [snd] in B.
  rewrite world_of_andThen.
  pose proof (pose_update_chromaticAberration
                (spin_particles delta (_updateMouseLight (_updateCamera w1)))) as U.
  cbv beta in U.
  destruct (update_chromaticAberration _) as [w3|e w3]; cbn [world_of] in *.
  - now rewrite pose_render, U, pose_spin_particles, pose_updates, B.
  - now rewrite U, pose_spin_particles, pose_updates, B.
Qed.

Lemma ticks_stale now n w :
  stale (this w) = nothing_assigned -> stale (this (ticks now n w)) = nothing_assigned.
Proof.
  intros H. induction n as [|n IH]; [exact H|].
  cbn [ticks]. destruct (tick_steady (now n) _ IH) as [A _].
  unfold core in A. congruence.
Qed.

(** The state of the follow after [n] ticks with the pointer at (1, 1). *)
Lemma ticks_follow now n w cx lx :
  stale (this w) = nothing_assigned ->
  x2 (mouse (this w)) == 1 ->
  camera_x w = Some cx -> light_x w = Some lx ->
  mouse (this (ticks now n w)) = mouse (this w)
  /\ exists cn ln,
       camera_x (ticks now n w) = Some cn /\ light_x (ticks now n w) = Some ln
       /\ 0.5 - cn == (0.5 - cx) * power 0.95 n
       /\ 8 - ln == (8 - lx) * power 0.92 n.
Proof.
  intros Hs Hm Hc Hl. induction n as [|n IH].
  - split; [reflexivity|]. exists cx, lx. cbn [ticks power].
    repeat split; try assumption; ring.
  - destruct IH as (Im & cn & ln & Ic & Il & Gc & Gl).
    pose proof (tick_pose (now n) _ (ticks_stale now n w Hs)) as P.
    cbn [ticks]. set (wn := ticks now n w) in *.
    set (w' := world_of (_tick (now n) wn)) in *.
    unfold pose, follow in P. rewrite Im in P. injection P as Pm Pc Pl.
    split; [exact Pm|].
    unfold camera_x, light_x in *. rewrite Pc, Pl.
    destruct (camera (gfx (this wn))) as [c|]; [|discriminate].
    destruct (mouseLight (gfx (this wn))) as [l|]; [|discriminate].
    cbn [option_map] in *. injection Ic as Ic. injection Il as Il.
    eexists. eexists. split; [reflexivity|]. split; [reflexivity|].
    cbn [camera_position light_position set_x3 set_y3 set_z3 x3 power].
    rewrite Ic, Il. unfold approach. split.
    + setoid_replace ((0.5 - cx) * (0.95 * power 0.95 n))
        with (0.95 * ((0.5 - cx) * power 0.95 n)) by ring.
      rewrite <- Gc, Hm. ring.
    + setoid_replace ((8 - lx) * (0.92 * power 0.92 n))
        with (0.92 * ((8 - lx) * power 0.92 n)) by ring.
      rewrite <- Gl, Hm. ring.
Qed.

Lemma power_pos q n : 0 < q -> 0 < power q n.
Proof.
  intros H. induction n as [|n IH]; cbn [power]; [reflexivity|].
  now apply Qmult_lt_0_compat.
Qed.

(** C10.  In a running engine with the pointer held at (1, 1) and the
    camera X and light X at or below their targets 0.5 and 8, after [n] ticks
    the camera X is at distance [(0.5 - x0) * 0.95^n] from 0.5 and the light X
    at distance [(8 - x0) * 0.92^n] from 8; the next tick moves each of them
    by 0.05 (0.08) of what is left, upwards and never past the target: no
    overshoot, no oscillation. *)
Theorem damped_follow_is_monotone w now n cx lx :
  reachable w ->
  x2 (mouse (this w)) == 1 /\ y2 (mouse (this w)) == 1 ->
  camera_x w = Some cx -> light_x w = Some lx ->
  cx <= 0.5 -> lx <= 8 ->
  exists cn cn' ln ln',
    camera_x (ticks now n w) = Some cn /\ camera_x (ticks now (S n) w) = Some cn'
    /\ light_x (ticks now n w) = Some ln /\ light_x (ticks now (S n) w) = Some ln'
    /\ 0.5 - cn == (0.5 - cx) * power 0.95 n
    /\ 8 - ln == (8 - lx) * power 0.92 n
    /\ cn' - cn == 0.05 * (0.5 - cn)
    /\ ln' - ln == 0.08 * (8 - ln)
    /\ (cn <= cn' /\ cn' <= 0.5)
    /\ (ln <= ln' /\ ln' <= 8).
Proof.
  intros R [Hm _] Hc Hl Hcx Hlx.
  assert (Hs : stale (this w) = nothing_assigned) by apply (reachable_invariant w R).
  destruct (ticks_follow now n w cx lx Hs Hm Hc Hl) as (_ & cn & ln & Ic & Il & Gc & Gl).
  destruct (ticks_follow now (S n) w cx lx Hs Hm Hc Hl)
    as (_ & cn' & ln' & Ic' & Il' & Gc' & Gl').
  exists cn, cn', ln, ln'.
  cbn [power] in Gc', Gl'.
  pose proof (power_pos 0.95 n eq_refl) as Pc.
  pose proof (power_pos 0.92 n eq_refl) as Pl.
  set (a := power 0.95 n) in *. set (b := power 0.92 n) in *.
  do 6 (split; [assumption|]).
  split; [nra|]. split; [nra|]. split; split; nra.
Qed.

Lemma damped_follow_is_monotone_witness :
  exists cn cn' ln ln',
    camera_x (ticks (fun k => inject_Z (Z.of_nat k) * 16) 3 pointer_world) = Some cn
    /\ camera_x (ticks (fun k => inject_Z (Z.of_nat k) * 16) 4 pointer_world) = Some cn'
    /\ light_x (ticks (fun k => inject_Z (Z.of_nat k) * 16) 3 pointer_world) = Some ln
    /\ light_x (ticks (fun k => inject_Z (Z.of_nat k) * 16) 4 pointer_world) = Some ln'
    /\ 0.5 - cn == (0.5 - 0.000) * power 0.95 3
    /\ 8 - ln == (8 - 0.00) * power 0.92 3
    /\ cn' - cn == 0.05 * (0.5 - cn)
    /\ ln' - ln == 0.08 * (8 - ln)
    /\ (cn <= cn' /\ cn' <= 0.5)
    /\ (ln <= ln' /\ ln' <= 8).
Proof.
  apply (damped_follow_is_monotone pointer_world
           (fun k => inject_Z (Z.of_nat k) * 16) 3 0.000 0.00).
  - unfold pointer_world. apply reachable_step. exact reachable_wired_world.
  - split; reflexivity.
  - reflexivity.
  - reflexivity.
  - discriminate.
  - discriminate.
Defined.

(* ================================================================== *)
(** * Further properties *)
(* ================================================================== *)

(* ------------------------------------------------------------------ *)
(** ** Normal forms of the events *)

Lemma dispatch_window_listeners x y w :
  listeners (env w) = window_listeners ->
  dispatch resize x y w = on_resize w
  /\ dispatch mousemove x y w = on_mousemove x y w
  /\ dispatch scroll_event x y w = on_scroll w.
Proof.
  intros L. unfold dispatch. rewrite L. repeat split; reflexivity.
Qed.

Lemma dispatch_no_listeners t x y w :
  listeners (env w) = [] -> dispatch t x y w = w.
Proof. intros L. unfold dispatch. now rewrite L. Qed.

(** ** The footprint of a tick *)

Lemma tick_prefix_outside now :
  keeps (fun w => (outside_tick w, env_outside_tick w,
                   chromaticAberrationPass (gfx (this w)))) (tick_prefix now).
Proof.
  unfold tick_prefix, begin_tick, requestAnimationFrame, getDelta,
    spin_particles, _updateMouseLight, _updateCamera, env_outside_tick.
  frame_by_cases.
Qed.

Lemma tick_prefix_fixtures now : keeps fixtures (tick_prefix now).
Proof.
  unfold tick_prefix, begin_tick, requestAnimationFrame, getDelta,
    spin_particles, _updateMouseLight, _updateCamera, fixtures.
  frame_by_cases.
Qed.

(** How a tick ends in a world where nothing is assigned: by the exception
    of the chromatic pass when that pass holds a number, normally
    otherwise. *)
Lemma tick_outcome now w :
  stale (this w) = nothing_assigned ->
  (chromaticAberrationPass (gfx (this w)) = None ->
   _tick now w = Normal (render (tick_prefix now w)))
  /\ (forall q, chromaticAberrationPass (gfx (this w)) = Some (shaderPass (Some (UNumber q))) ->
      _tick now w = Throw set_is_not_a_function (tick_prefix now w)).
Proof.
  intros H. rewrite (tick_shape now w H).
  pose proof (f_equal snd (tick_prefix_fixtures now w)) as F. cbn [fixtures snd] in F.
  unfold tick_prefix in *.
  destruct (begin_tick now w) as [delta w1].
  set (w2 := spin_particles delta (_updateMouseLight (_updateCamera w1))) in *.
  unfold update_chromaticAberration. rewrite F.
  split.
  - intros ->. reflexivity.
  - intros q ->. reflexivity.
Qed.

(** ** What [destroy] writes *)

Lemma this_dispose_all l w :
  this (fold_left (fun w' o => dispose_object o w') l w) = this w
  /\ heap (fold_left (fun w' o => dispose_object o w') l w) = heap w.
Proof.
  split.
  - apply (keeps_fold this). intros o w'. unfold dispose_object.
    destruct (geometry o), (material o); reflexivity.
  - apply (keeps_fold heap). intros o w'. unfold dispose_object.
    destruct (geometry o), (material o); reflexivity.
Qed.

Lemma this_dispose_scene w :
  this (dispose_scene w) = this w /\ heap (dispose_scene w) = heap w.
Proof.
  unfold dispose_scene. destruct (scene (gfx (this w))); [|split; reflexivity].
  destruct (this_dispose_all (heap w) w) as [A B].
  set (wf := fold_left _ (heap w) w) in *. clearbody wf. cbv zeta.
  destruct (particleSystem (gfx (this wf))); split; assumption.
Qed.

(** [destroy] writes one property of the engine object, the frame handle,
    and nothing in the store. *)
Lemma destroy_this w :
  this (destroy w) = this (cancel_render_loop w) /\ heap (destroy w) = heap w.
Proof.
  unfold destroy. cbv zeta.
  match goal with |- context [dispose_scene ?x] => destruct (this_dispose_scene x) as [A B] end.
  rewrite A, B. clear A B.
  unfold dispose_composer, dispose_renderer, kill_all_ScrollTriggers,
    remove_event_listeners, removeEventListener.
  split.
  - repeat (break_inner; norm); reflexivity.
  - repeat (break_inner; norm); unfold cancel_render_loop; repeat (break_inner; norm); reflexivity.
Qed.

Lemma cancel_render_loop_this w :
  this (cancel_render_loop w) = this w
  \/ this (cancel_render_loop w) = set_animFrameId (this w) None.
Proof.
  unfold cancel_render_loop. destruct (truthy_handle _); [|now left].
  destruct (_animFrameId (this w)); [right|left]; reflexivity.
Qed.

Lemma destroy_gfx w :
  gfx (this (destroy w)) = gfx (this w)
  /\ dimensions (this (destroy w)) = dimensions (this w)
  /\ time (this (destroy w)) = time (this w)
  /\ mouse (this (destroy w)) = mouse (this w)
  /\ scroll (this (destroy w)) = scroll (this w).
Proof.
  destruct (destroy_this w) as [A _]. rewrite A.
  destruct (cancel_render_loop_this w) as [-> | ->]; repeat split; reflexivity.
Qed.

(** ** The fixtures *)

Ltac fixtures_by_cases := unfold fixtures; frame_by_cases.

Lemma fixtures_render : keeps fixtures render.
Proof. unfold render. fixtures_by_cases. Qed.

Lemma fixtures_log entry : keeps fixtures (log entry).
Proof. fixtures_by_cases. Qed.

Lemma established_fixtures w w' :
  fixtures w' = fixtures w -> established w -> established w'.
Proof.
  unfold established, fixtures. intros E. injection E as -> -> -> -> -> ->. auto.
Qed.

Lemma arrows_established w :
  established w -> forallb (fun reg => is_arrow (snd reg)) (listeners_of w) = true.
Proof.
  intros [[(L & _) | (L & _)] _]; unfold listeners_of; rewrite L; reflexivity.
Qed.

Lemma tick_fixtures now w :
  stale (this w) = nothing_assigned -> established w ->
  fixtures (world_of (_tick now w)) = fixtures w
  /\ fixtures (settle (_tick now w)) = fixtures w.
Proof.
  intros H [_ [[_ P] | [_ P]]]; destruct (tick_outcome now w H) as [A B].
  - rewrite (A P). cbn [world_of settle].
    rewrite fixtures_render, tick_prefix_fixtures. auto.
  - rewrite (B _ P). cbn [world_of settle].
    rewrite fixtures_log, tick_prefix_fixtures. auto.
Qed.

Lemma fixtures_run_listener cb x y : keeps fixtures (run_listener cb x y).
Proof.
  destruct cb; intro w; cbn [run_listener].
  - revert w. unfold on_resize, uncaught. fixtures_by_cases.
  - revert w. unfold on_mousemove. fixtures_by_cases.
  - revert w. unfold on_scroll. fixtures_by_cases.
  - reflexivity.
Qed.

Lemma fixtures_dispatch t x y w : fixtures (dispatch t x y w) = fixtures w.
Proof.
  unfold dispatch.
  apply (keeps_fold fixtures
           (fun w' reg => if EventType_eqb t (fst reg)
                          then run_listener (snd reg) x y w' else w')).
  intros reg w'. destruct (EventType_eqb t (fst reg)); [|reflexivity].
  apply fixtures_run_listener.
Qed.

Lemma fixtures_onUpdate_scrubbed t p :
  t = CameraTrigger \/ t = ShowcaseTrigger \/ t = ContactTrigger ->
  keeps fixtures (onUpdate t p).
Proof. intros [-> | [-> | ->]]; unfold onUpdate; fixtures_by_cases. Qed.

Lemma fixtures_step e w :
  invariant w -> established w -> fixtures (step e w) = fixtures w.
Proof.
  intros I E.
  assert (Hs : stale (this w) = nothing_assigned) by apply I.
  assert (T : triggers (env w) = [] \/ triggers (env w) = scrubbed_triggers).
  { destruct I as (_ & _ & _ & _ & _ & I6 & _). unfold wiring in I6.
    destruct I6 as [I6 | [I6 | I6]]; injection I6; auto. }
  destruct e as [now|win|x y|win| |t p|t| |now]; simpl.
  - destruct (raf_pending (env w)) as [|id rest]; [reflexivity|].
    set (w0 := upd_env _ w).
    assert (E0 : established w0) by exact (established_fixtures w w0 eq_refl E).
    exact (proj2 (tick_fixtures now w0 Hs E0)).
  - now rewrite fixtures_dispatch.
  - now rewrite fixtures_dispatch.
  - now rewrite fixtures_dispatch.
  - destruct (timers (env w)) as [|[] rest]; [reflexivity|].
    now rewrite _initScrollAnimations_idle by exact Hs.
  - destruct (registered t w) eqn:R; [|reflexivity].
    apply (fixtures_onUpdate_scrubbed t p (registered_scrubbed t w T R)).
  - destruct (registered t w) eqn:R; [|reflexivity].
    now rewrite (onEnter_scrubbed t w (registered_scrubbed t w T R)).
  - unfold fixtures.
    destruct (destroy_gfx w) as (-> & _).
    pose proof (destroy_detaches_nothing w Hs (arrows_established w E)) as L.
    unfold listeners_of in L. now rewrite L.
  - exact (proj2 (tick_fixtures now w Hs E)).
Qed.

Lemma boot_established canvas win gl m :
  established (world_of (boot canvas (page win gl m))).
Proof.
  unfold boot, _initRenderer. cbn [webgl page env].
  destruct gl.
  - cbn [andThen world_of].
    destruct m as [[] [] [] []]; unfold established; split;
      try (left; repeat split; reflexivity); right; repeat split; reflexivity.
  - unfold established. cbn. split; [right|left]; repeat split; reflexivity.
Qed.

Lemma reachable_established w : reachable w -> established w.
Proof.
  induction 1 as [canvas now win gl m | e w R IH].
  - unfold constructor.
    pose proof (boot_established canvas win gl m) as B.
    destruct (boot_invariant canvas win gl m) as [I _].
    destruct (boot canvas (page win gl m)) as [w8|e w8]; cbn [andThen world_of] in *.
    + refine (established_fixtures w8 _ _ B).
      apply tick_fixtures; [apply I | exact B].
    + exact B.
  - refine (established_fixtures w _ _ IH).
    apply fixtures_step; [now apply reachable_invariant | exact IH].
Qed.

(** ** What a tick writes *)

(** C3.  In a running engine none of the properties [torusKnot],
    [showcasePlane], [heroMesh], [featuresMeshes], [waveMesh], [statsBars],
    [contactSphere] (nor the three [...ShaderMaterial] ones) is assigned, no
    stored mesh carries a custom shader material and the torus and wave
    uniforms do not exist; a tick leaves the store of meshes and groups
    (transforms, scales, materials) exactly as it was, and of the engine
    object it changes only the camera position, the light position, the
    rotation of the particle system and the elapsed time, and also the
    clock and the frame handle, which it sets to the reading of the time
    source and to the frame it requested; no uniform is written, the
    offset of the chromatic pass included. *)
Theorem tick_leaves_meshes_untouched w now :
  reachable w ->
  let w' := world_of (_tick now w) in
  stale (this w) = nothing_assigned
  /\ no_shader_material (heap w)
  /\ torusUniforms (gfx (this w)) = None /\ waveUniforms (gfx (this w)) = None
  /\ heap w' = heap w
  /\ (forall r, In r (mesh_refs (meshes (this w))) -> deref (heap w') r = deref (heap w) r)
  /\ outside_tick w' = outside_tick w
  /\ chromaticAberrationPass (gfx (this w')) = chromaticAberrationPass (gfx (this w))
  /\ bookkeeping w' = (Some (raf_next (env w)), clock_state true now).
Proof.
  intros R w'.
  pose proof (reachable_invariant w R) as I.
  assert (Hs : stale (this w) = nothing_assigned) by apply I.
  pose proof (tick_outside now w Hs) as O. fold w' in O.
  pose proof (tick_bookkeeping now w Hs) as K. fold w' in K.
  destruct (tick_fixtures now w Hs (reachable_established w R)) as [F _]. fold w' in F.
  assert (Hp : chromaticAberrationPass (gfx (this w')) = chromaticAberrationPass (gfx (this w))).
  { exact (f_equal snd F). }
  assert (Hh : heap w' = heap w).
  { unfold outside_tick in O. congruence. }
  destruct I as (_ & I2 & I3 & _).
  repeat split; try assumption.
  - now apply reachable_no_shader_material.
  - intros r _. now rewrite Hh.
Qed.

Lemma tick_leaves_meshes_untouched_witness :
  heap (world_of (_tick 16 wired_world)) = heap wired_world.
Proof.
  exact (proj1 (proj2 (proj2 (proj2 (proj2
           (tick_leaves_meshes_untouched wired_world 16 reachable_wired_world)))))).
Defined.

(** C3 as it is worded fails: besides what it lists, a tick writes the
    frame handle and the clock.  In the wired example engine the handle
    goes from 1 to 2 and the clock's last reading from 0 to 16. *)
Lemma a_tick_writes_the_frame_handle_and_the_clock :
  reachable wired_world
  /\ bookkeeping wired_world = (Some 1%nat, clock_state true 0)
  /\ bookkeeping (world_of (_tick 16 wired_world)) = (Some 2%nat, clock_state true 16).
Proof.
  split; [exact reachable_wired_world|]. split; vm_compute; reflexivity.
Qed.

(** ** The calls that reach the GPU side *)

Lemma gpu_dispose_object o w :
  gpu (env (dispose_object o w)) = gpu (env w) ++ disposals_of o.
Proof.
  unfold dispose_object, disposals_of, gpu_call.
  destruct (geometry o), (material o); norm;
    rewrite <- ?app_assoc, ?app_nil_r; reflexivity.
Qed.

Lemma gpu_dispose_all l w :
  gpu (env (fold_left (fun w' o => dispose_object o w') l w))
  = gpu (env w) ++ flat_map disposals_of l.
Proof.
  revert w. induction l as [|o l IH]; intro w; cbn [fold_left flat_map].
  - now rewrite app_nil_r.
  - now rewrite IH, gpu_dispose_object, <- app_assoc.
Qed.

Lemma gpu_destroy w : gpu (env (destroy w)) = gpu (env w) ++ released w.
Proof.
  unfold destroy. cbv zeta.
  set (w1 := remove_event_listeners (cancel_render_loop w)).
  assert (E1 : (this w1, heap w1, gpu (env w1), canvas_attached (env w1))
               = (this (cancel_render_loop w), heap w, gpu (env w), canvas_attached (env w))).
  { subst w1. unfold remove_event_listeners, removeEventListener, cancel_render_loop,
      cancelAnimationFrame.
    repeat (break_inner; norm); reflexivity. }
  assert (G1 : gfx (this w1) = gfx (this w)).
  { injection E1 as -> _ _ _.
    destruct (cancel_render_loop_this w) as [-> | ->]; reflexivity. }
  injection E1 as _ H1 U1 C1.
  set (w2 := kill_all_ScrollTriggers w1).
  assert (E2 : (gfx (this w2), heap w2, gpu (env w2), canvas_attached (env w2))
               = (gfx (this w), heap w, gpu (env w), canvas_attached (env w))).
  { subst w2. unfold kill_all_ScrollTriggers. norm. now rewrite G1, H1, U1, C1. }
  clearbody w2. clear w1 G1 H1 U1 C1.
  injection E2 as G2 H2 U2 C2.
  unfold released. rewrite <- G2, <- H2, <- U2, <- C2. clear G2 H2 U2 C2.
  unfold dispose_scene.
  match goal with
  | |- context [fold_left ?f (heap ?x) ?x] =>
      pose proof (gpu_dispose_all (heap x) x) as F;
      destruct (this_dispose_all (heap x) x) as [T _];
      set (wf := fold_left f (heap x) x) in *
  end.
  set (w4 := dispose_composer (dispose_renderer w2)) in *.
  assert (E4 : gfx (this w4) = gfx (this w2) /\ heap w4 = heap w2
               /\ gpu (env w4) = gpu (env w2)
                  ++ match renderer (gfx (this w2)) with
                     | Some _ => RendererDispose
                                 :: (if canvas_attached (env w2) then [CanvasRemoved] else [])
                     | None => []
                     end
                  ++ match composer (gfx (this w2)) with
                     | Some _ => [RenderTargetDispose 1; RenderTargetDispose 2]
                     | None => []
                     end).
  { subst w4. unfold dispose_composer, dispose_renderer, gpu_call.
    destruct (renderer (gfx (this w2))); norm;
      [destruct (canvas_attached (env w2)); norm|];
      destruct (composer (gfx (this w2))); norm;
      rewrite <- ?app_assoc, ?app_nil_r; repeat split; reflexivity. }
  clearbody w4. destruct E4 as (G4 & H4 & U4).
  rewrite <- G4, <- H4 in *.
  destruct (scene (gfx (this w4))).
  - cbv zeta. clearbody wf.
    destruct (particleSystem (gfx (this wf))) eqn:Ep;
      rewrite T in Ep; rewrite Ep; unfold gpu_call; norm;
      rewrite F, U4, <- ?app_assoc, ?app_nil_r; reflexivity.
  - now rewrite U4, app_nil_r.
Qed.

Ltac gpu_by_cases := unfold gpu_of; frame_by_cases.

Lemma composer_established w :
  established w -> chromaticAberrationPass (gfx (this w)) = None ->
  composer (gfx (this w)) = None.
Proof.
  intros [_ [[C _] | [_ P]]] N; [|congruence].
  destruct (composer (gfx (this w))); [discriminate|reflexivity].
Qed.

(** In an established world a tick leaves the state its prefix reaches: the
    render is not reached, or there is no composer to render with. *)
Lemma tick_established now w :
  stale (this w) = nothing_assigned -> established w ->
  world_of (_tick now w) = tick_prefix now w
  /\ (settle (_tick now w) = tick_prefix now w
      \/ settle (_tick now w) = log (Error set_is_not_a_function) (tick_prefix now w)).
Proof.
  intros H E. destruct (tick_outcome now w H) as [A B].
  destruct E as [E1 [[C P] | [C P]]].
  - rewrite (A P). cbn [world_of settle].
    assert (N : composer (gfx (this (tick_prefix now w))) = None).
    { pose proof (tick_prefix_fixtures now w) as F. unfold fixtures in F.
      injection F as _ _ _ _ F _. rewrite C in F.
      destruct (composer (gfx (this (tick_prefix now w)))); [discriminate|reflexivity]. }
    unfold render. rewrite N. auto.
  - rewrite (B _ P). cbn [world_of settle]. auto.
Qed.

Lemma gpu_tick now w :
  stale (this w) = nothing_assigned -> established w ->
  gpu_of (settle (_tick now w)) = gpu_of w.
Proof.
  intros H E.
  assert (G : gpu_of (tick_prefix now w) = gpu_of w).
  { revert w H E. intros w _ _. revert w.
    unfold tick_prefix, begin_tick, requestAnimationFrame, getDelta,
      spin_particles, _updateMouseLight, _updateCamera. gpu_by_cases. }
  destruct (tick_established now w H E) as [_ [-> | ->]]; exact G.
Qed.

Lemma gpu_run_listener cb x y : keeps gpu_of (run_listener cb x y).
Proof.
  destruct cb; intro w; cbn [run_listener].
  - revert w. unfold on_resize, uncaught. gpu_by_cases.
  - revert w. unfold on_mousemove. gpu_by_cases.
  - revert w. unfold on_scroll. gpu_by_cases.
  - reflexivity.
Qed.

Lemma gpu_dispatch t x y w : gpu_of (dispatch t x y w) = gpu_of w.
Proof.
  unfold dispatch.
  apply (keeps_fold gpu_of
           (fun w' reg => if EventType_eqb t (fst reg)
                          then run_listener (snd reg) x y w' else w')).
  intros reg w'. destruct (EventType_eqb t (fst reg)); [|reflexivity].
  apply gpu_run_listener.
Qed.

Lemma gpu_onUpdate_scrubbed t p :
  t = CameraTrigger \/ t = ShowcaseTrigger \/ t = ContactTrigger ->
  keeps gpu_of (onUpdate t p).
Proof. intros [-> | [-> | ->]]; unfold onUpdate; gpu_by_cases. Qed.

(** The calls an event adds to the GPU side of a running engine: the
    releases of [destroy], and nothing for any other event. *)
Lemma gpu_step e w :
  invariant w -> established w ->
  gpu_of (step e w)
  = gpu_of w ++ match e with Destroy => released w | _ => [] end.
Proof.
  intros I E.
  assert (Hs : stale (this w) = nothing_assigned) by apply I.
  assert (T : triggers (env w) = [] \/ triggers (env w) = scrubbed_triggers).
  { destruct I as (_ & _ & _ & _ & _ & I6 & _). unfold wiring in I6.
    destruct I6 as [I6 | [I6 | I6]]; injection I6; auto. }
  destruct e as [now|win|x y|win| |t p|t| |now]; cbn [step]; rewrite ?app_nil_r.
  - destruct (raf_pending (env w)) as [|id rest]; [reflexivity|].
    set (w0 := upd_env _ w).
    assert (E0 : established w0) by exact (established_fixtures w w0 eq_refl E).
    exact (gpu_tick now w0 Hs E0).
  - now rewrite gpu_dispatch.
  - now rewrite gpu_dispatch.
  - now rewrite gpu_dispatch.
  - destruct (timers (env w)) as [|[] rest]; [reflexivity|].
    now rewrite _initScrollAnimations_idle by exact Hs.
  - destruct (registered t w) eqn:R; [|reflexivity].
    apply (gpu_onUpdate_scrubbed t p (registered_scrubbed t w T R)).
  - destruct (registered t w) eqn:R; [|reflexivity].
    now rewrite (onEnter_scrubbed t w (registered_scrubbed t w T R)).
  - apply gpu_destroy.
  - exact (gpu_tick now w Hs E).
Qed.

Lemma released_no_render w : forallb (fun c => negb (is_render c)) (released w) = true.
Proof.
  unfold released. rewrite !forallb_app.
  repeat (apply andb_true_intro; split).
  - destruct (renderer _); [|reflexivity]. now destruct (canvas_attached _).
  - now destruct (composer _).
  - destruct (scene _); [|reflexivity]. rewrite forallb_app.
    apply andb_true_intro; split.
    + induction (heap w) as [|o l IH]; [reflexivity|].
      cbn [flat_map]. rewrite forallb_app, IH, andb_true_r.
      unfold disposals_of. now destruct (geometry o), (material o).
    + now destruct (particleSystem _).
Qed.

Lemma boot_gpu canvas win gl m :
  gpu_of (world_of (boot canvas (page win gl m))) = [].
Proof.
  unfold boot, _initRenderer. cbn [webgl page env].
  destruct gl; [|reflexivity].
  cbn [andThen world_of]. destruct m as [[] [] [] []]; reflexivity.
Qed.

Lemma constructor_gpu canvas now win gl m :
  gpu_of (world_of (constructor canvas now (page win gl m))) = [].
Proof.
  unfold constructor.
  pose proof (boot_established canvas win gl m) as B.
  pose proof (boot_gpu canvas win gl m) as G.
  destruct (boot_invariant canvas win gl m) as [I _].
  destruct (boot canvas (page win gl m)) as [w8|e w8]; cbn [andThen world_of] in *;
    [|exact G].
  assert (S8 : stale (this w8) = nothing_assigned) by apply I.
  destruct (tick_established now w8 S8 B) as [-> _].
  rewrite <- G. revert w8 B G I S8. intros w8 _ _ _ _. revert w8.
  unfold tick_prefix, begin_tick, requestAnimationFrame, getDelta,
    spin_particles, _updateMouseLight, _updateCamera. gpu_by_cases.
Qed.

Lemma reachable_no_render w :
  reachable w -> forallb (fun c => negb (is_render c)) (gpu_of w) = true.
Proof.
  induction 1 as [canvas now win gl m | e w R IH].
  - now rewrite constructor_gpu.
  - rewrite gpu_step by (try apply reachable_invariant; try apply reachable_established;
                         assumption).
    rewrite forallb_app, IH. cbn [andb].
    destruct e; try reflexivity. apply released_no_render.
Qed.

(** X4.  Whatever the page, the modules and the events, a running engine
    never draws a frame: no world it reaches holds a call of
    [composer.render()], and the only calls an event adds on the GPU side are
    the releases of [destroy]. *)
Theorem no_frame_is_ever_rendered w e :
  reachable w ->
  renders w = 0%nat
  /\ gpu (env (step e w))
     = gpu (env w) ++ match e with Destroy => released w | _ => [] end.
Proof.
  intros R. split.
  - pose proof (reachable_no_render w R) as F. unfold renders, gpu_of in *.
    induction (gpu (env w)) as [|c l IH]; [reflexivity|].
    cbn [forallb filter] in *. apply andb_prop in F. destruct F as [Fc Fl].
    destruct c; try discriminate Fc; cbn; auto.
  - apply gpu_step; [now apply reachable_invariant | now apply reachable_established].
Qed.

Lemma no_frame_is_ever_rendered_witness :
  renders (step (Frame 32) (step (Frame 16) wired_world)) = 0%nat.
Proof.
  refine (proj1 (no_frame_is_ever_rendered
                   (step (Frame 32) (step (Frame 16) wired_world)) Destroy _)).
  do 2 apply reachable_step. exact reachable_wired_world.
Defined.

(** ** Between frames *)

Ltac between_by_cases := unfold between_frames; frame_by_cases.

Lemma between_run_listener cb x y : keeps between_frames (run_listener cb x y).
Proof.
  destruct cb; intro w; cbn [run_listener].
  - revert w. unfold on_resize, uncaught. between_by_cases.
  - revert w. unfold on_mousemove. between_by_cases.
  - revert w. unfold on_scroll. between_by_cases.
  - reflexivity.
Qed.

Lemma between_dispatch t x y w : between_frames (dispatch t x y w) = between_frames w.
Proof.
  unfold dispatch.
  apply (keeps_fold between_frames
           (fun w' reg => if EventType_eqb t (fst reg)
                          then run_listener (snd reg) x y w' else w')).
  intros reg w'. destruct (EventType_eqb t (fst reg)); [|reflexivity].
  apply between_run_listener.
Qed.

Lemma between_onUpdate_scrubbed t p :
  t = CameraTrigger \/ t = ShowcaseTrigger \/ t = ContactTrigger ->
  keeps between_frames (onUpdate t p).
Proof. intros [-> | [-> | ->]]; unfold onUpdate; between_by_cases. Qed.

Lemma between_frames_step e w :
  invariant w -> is_input e = true ->
  between_frames (step e w) = between_frames w.
Proof.
  intros I In.
  assert (Hs : stale (this w) = nothing_assigned) by apply I.
  assert (T : triggers (env w) = [] \/ triggers (env w) = scrubbed_triggers).
  { destruct I as (_ & _ & _ & _ & _ & I6 & _). unfold wiring in I6.
    destruct I6 as [I6 | [I6 | I6]]; injection I6; auto. }
  destruct e as [now|win|x y|win| |t p|t| |now]; try discriminate In; cbn [step].
  - now rewrite between_dispatch.
  - now rewrite between_dispatch.
  - now rewrite between_dispatch.
  - destruct (timers (env w)) as [|[] rest]; [reflexivity|].
    now rewrite _initScrollAnimations_idle by exact Hs.
  - destruct (registered t w) eqn:R; [|reflexivity].
    apply (between_onUpdate_scrubbed t p (registered_scrubbed t w T R)).
  - destruct (registered t w) eqn:R; [|reflexivity].
    now rewrite (onEnter_scrubbed t w (registered_scrubbed t w T R)).
Qed.

(** ** The frame queue *)

Lemma tick_prefix_loop now w :
  raf_pending (env (tick_prefix now w)) = raf_pending (env w) ++ [raf_next (env w)]
  /\ raf_next (env (tick_prefix now w)) = S (raf_next (env w))
  /\ _animFrameId (this (tick_prefix now w)) = Some (raf_next (env w)).
Proof.
  unfold tick_prefix, begin_tick, requestAnimationFrame, getDelta,
    spin_particles, _updateMouseLight, _updateCamera.
  norm. repeat (break_inner; norm); repeat split; reflexivity.
Qed.

Lemma loop_settle c :
  (raf_pending (env (settle c)), raf_next (env (settle c)), _animFrameId (this (settle c)))
  = (raf_pending (env (world_of c)), raf_next (env (world_of c)),
     _animFrameId (this (world_of c))).
Proof. now destruct c. Qed.

Lemma env_dispose_all l w :
  let proj := fun w0 : World =>
    (raf_pending (env w0), raf_next (env w0), timers (env w0), triggers (env w0),
     (window (env w0), console (env w0), tweens (env w0), listeners (env w0))) in
  proj (fold_left (fun w' o => dispose_object o w') l w) = proj w.
Proof.
  intro proj. apply (keeps_fold proj). intros o w'. unfold dispose_object, proj.
  destruct (geometry o), (material o); reflexivity.
Qed.

(** The frame queue under [destroy]: the frame whose handle the engine holds
    is cancelled, and no frame is requested. *)
Lemma destroy_loop w :
  raf_pending (env (destroy w)) = raf_pending (env (cancel_render_loop w))
  /\ raf_next (env (destroy w)) = raf_next (env w)
  /\ timers (env (destroy w)) = timers (env w)
  /\ console (env (destroy w)) = console (env w)
  /\ window (env (destroy w)) = window (env w).
Proof.
  unfold destroy. cbv zeta.
  set (w3 := dispose_composer (dispose_renderer (kill_all_ScrollTriggers
               (remove_event_listeners (cancel_render_loop w))))).
  assert (E3 : (raf_pending (env w3), raf_next (env w3), timers (env w3),
                console (env w3), window (env w3))
               = (raf_pending (env (cancel_render_loop w)), raf_next (env w),
                  timers (env w), console (env w), window (env w))).
  { subst w3. unfold dispose_composer, dispose_renderer, kill_all_ScrollTriggers,
      remove_event_listeners, removeEventListener.
    repeat (break_inner; norm);
      unfold cancel_render_loop, cancelAnimationFrame; repeat (break_inner; norm);
      reflexivity. }
  clearbody w3. injection E3 as <- <- <- <- <-.
  unfold dispose_scene. destruct (scene (gfx (this w3))); [|repeat split; reflexivity].
  cbv zeta.
  pose proof (env_dispose_all (heap w3) w3) as F. cbv zeta beta in F.
  set (wf := fold_left _ (heap w3) w3) in *. clearbody wf.
  injection F as <- <- <- _ <- <- _ _.
  destruct (particleSystem (gfx (this wf))); repeat split; reflexivity.
Qed.

Lemma driven_reachable w : driven w -> reachable w.
Proof. induction 1; now constructor. Qed.

Lemma on_schedule_loop w w' :
  (raf_pending (env w'), raf_next (env w'), _animFrameId (this w'))
  = (raf_pending (env w), raf_next (env w), _animFrameId (this w)) ->
  on_schedule w -> on_schedule w'.
Proof. unfold on_schedule. intros E. injection E as -> -> ->. auto. Qed.

Lemma between_frames_loop w w' :
  between_frames w' = between_frames w ->
  (raf_pending (env w'), raf_next (env w'), _animFrameId (this w'))
  = (raf_pending (env w), raf_next (env w), _animFrameId (this w)).
Proof. unfold between_frames. intros E. injection E as _ _ -> _ _ _ -> ->. reflexivity. Qed.

(** A tick in a world with no pending frame leaves exactly one, whose handle
    the engine holds. *)
Lemma on_schedule_tick now w :
  stale (this w) = nothing_assigned -> established w ->
  (1 <= raf_next (env w))%nat -> raf_pending (env w) = [] ->
  on_schedule (settle (_tick now w)) /\ on_schedule (world_of (_tick now w)).
Proof.
  intros H E N P.
  destruct (tick_prefix_loop now w) as (A & B & C). rewrite P in A.
  assert (S : on_schedule (tick_prefix now w)).
  { unfold on_schedule. rewrite A, B, C. split; [lia|right].
    destruct (raf_next (env w)) as [|k]; [lia|]. now exists k. }
  destruct (tick_established now w H E) as [W St]. rewrite W. split; [|exact S].
  destruct St as [-> | ->]; [exact S|]. exact (on_schedule_loop _ _ eq_refl S).
Qed.

Lemma cancel_render_loop_scheduled w :
  on_schedule w -> raf_pending (env (cancel_render_loop w)) = [].
Proof.
  intros [_ [P | (id & P & F)]]; unfold cancel_render_loop, cancelAnimationFrame.
  - destruct (truthy_handle _); [|exact P].
    destruct (_animFrameId (this w)); [|exact P]. norm. now rewrite P.
  - rewrite F. norm. rewrite P. cbn [filter]. now rewrite Nat.eqb_refl.
Qed.

Lemma boot_loop canvas win gl m :
  let w := world_of (boot canvas (page win gl m)) in
  raf_pending (env w) = [] /\ raf_next (env w) = 1%nat.
Proof.
  unfold boot, _initRenderer. cbn [webgl page env].
  destruct gl; [|split; reflexivity].
  cbn [andThen world_of]. destruct m as [[] [] [] []]; split; reflexivity.
Qed.

Lemma driven_on_schedule w : driven w -> on_schedule w.
Proof.
  induction 1 as [canvas now win gl m | e w D IH Hd].
  - unfold constructor.
    pose proof (boot_established canvas win gl m) as B.
    destruct (boot_loop canvas win gl m) as [P N].
    destruct (boot_invariant canvas win gl m) as [I _].
    destruct (boot canvas (page win gl m)) as [w8|e w8]; cbn [andThen world_of] in *.
    + assert (S8 : stale (this w8) = nothing_assigned) by apply I.
      assert (N8 : (1 <= raf_next (env w8))%nat) by lia.
      exact (proj2 (on_schedule_tick now w8 S8 B N8 P)).
    + unfold on_schedule. rewrite P, N. auto.
  - pose proof (reachable_invariant w (driven_reachable w D)) as I.
    pose proof (reachable_established w (driven_reachable w D)) as E.
    assert (Hs : stale (this w) = nothing_assigned) by apply I.
    destruct (is_input e) eqn:In.
    + apply (on_schedule_loop w); [|exact IH]. apply between_frames_loop.
      now apply between_frames_step.
    + destruct e as [now|win|x y|win| |t p|t| |now]; try discriminate; cbn [step].
      * destruct IH as [N [P | (id & P & F)]]; rewrite P; [split; auto|].
        set (w0 := upd_env _ w).
        exact (proj1 (on_schedule_tick now w0 Hs
                        (established_fixtures w w0 eq_refl E) N eq_refl)).
      * destruct (destroy_loop w) as (A & B & _).
        unfold on_schedule. rewrite A, B, (cancel_render_loop_scheduled w IH).
        split; [apply IH | now left].
Qed.

Lemma destroy_stopped w : on_schedule w -> stopped (destroy w).
Proof.
  intros S. destruct (destroy_loop w) as (A & _). destruct (destroy_this w) as [T _].
  unfold stopped. rewrite A, T, (cancel_render_loop_scheduled w S). split; [reflexivity|].
  unfold cancel_render_loop.
  destruct (truthy_handle (_animFrameId (this w))) eqn:Tr; [|exact Tr].
  destruct (_animFrameId (this w)); [reflexivity|discriminate].
Qed.

Lemma stopped_step e w :
  invariant w -> stopped w -> is_direct_tick e = false ->
  between_frames (step e w) = between_frames w.
Proof.
  intros I [P F] Hd.
  destruct (is_input e) eqn:In; [now apply between_frames_step|].
  destruct e as [now|win|x y|win| |t p|t| |now]; try discriminate; cbn [step].
  - now rewrite P.
  - destruct (destroy_loop w) as (A & B & _). destruct (destroy_this w) as [T _].
    assert (C : cancel_render_loop w = w).
    { unfold cancel_render_loop. now rewrite F. }
    rewrite C in *. unfold between_frames. now rewrite A, B, T.
Qed.

Lemma stopped_between w w' :
  between_frames w' = between_frames w -> stopped w -> stopped w'.
Proof.
  unfold stopped, between_frames. intros E. injection E as _ _ -> _ _ _ -> _. auto.
Qed.

Lemma stopped_run es w :
  reachable w -> stopped w ->
  forallb (fun e => negb (is_direct_tick e)) es = true ->
  between_frames (run es w) = between_frames w.
Proof.
  intros R S. revert w R S. induction es as [|e es IH]; intros w R S F; [reflexivity|].
  cbn [forallb] in F. apply andb_prop in F. destruct F as [Fe Fs].
  apply negb_true_iff in Fe.
  pose proof (stopped_step e w (reachable_invariant w R) S Fe) as B.
  cbn [run fold_left]. unfold run in IH. rewrite IH; [exact B | | | exact Fs].
  - now constructor.
  - exact (stopped_between w _ B S).
Qed.

(** ** The core under every event *)

Lemma core_step e w : invariant w -> core (step e w) = core w.
Proof.
  intros I.
  assert (Hs : stale (this w) = nothing_assigned) by apply I.
  assert (T : triggers (env w) = [] \/ triggers (env w) = scrubbed_triggers).
  { destruct I as (_ & _ & _ & _ & _ & I6 & _). unfold wiring in I6.
    destruct I6 as [I6 | [I6 | I6]]; injection I6; auto. }
  destruct e as [now|win|x y|win| |t p|t| |now]; cbn [step].
  - destruct (raf_pending (env w)) as [|id rest]; [reflexivity|].
    set (w1 := upd_env _ w).
    destruct (tick_steady now w1 Hs) as [A B].
    exact (proj1 (steady_settle (_tick now w1) w1 A B)).
  - exact (proj1 (dispatch_steady resize 0 0 _)).
  - exact (proj1 (dispatch_steady mousemove x y w)).
  - exact (proj1 (dispatch_steady scroll_event 0 0 _)).
  - destruct (timers (env w)) as [|[] rest]; [reflexivity|].
    now rewrite _initScrollAnimations_idle by exact Hs.
  - destruct (registered t w) eqn:R; [|reflexivity].
    exact (proj1 (steady_onUpdate_scrubbed t p (registered_scrubbed t w T R)) w).
  - destruct (registered t w) eqn:R; [|reflexivity].
    now rewrite (onEnter_scrubbed t w (registered_scrubbed t w T R)).
  - exact (proj1 (destroy_core w Hs)).
  - destruct (tick_steady now w Hs) as [A B].
    exact (proj1 (steady_settle (_tick now w) w A B)).
Qed.

Lemma core_run es w : reachable w -> core (run es w) = core w.
Proof.
  revert w. induction es as [|e es IH]; intros w R; [reflexivity|].
  cbn [run fold_left]. unfold run in IH. rewrite IH by now constructor.
  apply core_step. now apply reachable_invariant.
Qed.

(** ** The viewport *)

Ltac viewport_by_cases := unfold viewport; frame_by_cases.

Lemma consistent_viewport_same w w' :
  viewport w' = viewport w -> consistent_viewport w -> consistent_viewport w'.
Proof.
  unfold viewport, consistent_viewport. intros E. injection E as -> -> -> ->. auto.
Qed.

Lemma viewport_tick_prefix now : keeps viewport (tick_prefix now).
Proof.
  unfold tick_prefix, begin_tick, requestAnimationFrame, getDelta,
    spin_particles, _updateMouseLight, _updateCamera. viewport_by_cases.
Qed.

Lemma viewport_onUpdate_scrubbed t p :
  t = CameraTrigger \/ t = ShowcaseTrigger \/ t = ContactTrigger ->
  keeps viewport (onUpdate t p).
Proof. intros [-> | [-> | ->]]; unfold onUpdate; viewport_by_cases. Qed.

Lemma Math_min_cap a : Math_min a 2 <= 2.
Proof. unfold Math_min. destruct (Qlt_le_dec 2 a); lra. Qed.

(** The resize listener re-establishes the agreement, whatever it was. *)
Lemma on_resize_consistent w :
  is_some (camera (gfx (this w))) = true ->
  is_some (renderer (gfx (this w))) = true ->
  consistent_viewport (on_resize w)
  /\ dimensions (this (on_resize w))
     = dims (innerWidth (window (env w))) (innerHeight (window (env w))).
Proof.
  unfold on_resize, consistent_viewport. intros C R.
  destruct (camera (gfx (this w))) as [c|] eqn:Ec; [|discriminate].
  destruct (renderer (gfx (this w))) as [r|] eqn:Er; [|discriminate].
  norm. rewrite Ec. norm. rewrite Er. norm.
  destruct (composer (gfx (this w))) as [cp|] eqn:Ep; norm; rewrite ?Ep; norm;
    repeat split; try reflexivity; apply Math_min_cap.
Qed.

Lemma viewport_step e w :
  invariant w -> established w -> consistent_viewport w ->
  consistent_viewport (step e w).
Proof.
  intros I E V.
  assert (Hs : stale (this w) = nothing_assigned) by apply I.
  assert (T : triggers (env w) = [] \/ triggers (env w) = scrubbed_triggers).
  { destruct I as (_ & _ & _ & _ & _ & I6 & _). unfold wiring in I6.
    destruct I6 as [I6 | [I6 | I6]]; injection I6; auto. }
  assert (Tk : forall now w0, stale (this w0) = nothing_assigned -> established w0 ->
               consistent_viewport w0 -> consistent_viewport (settle (_tick now w0))).
  { intros now w0 H0 E0 V0.
    apply (consistent_viewport_same (tick_prefix now w0)).
    - now destruct (tick_established now w0 H0 E0) as [_ [-> | ->]].
    - apply (consistent_viewport_same w0); [apply viewport_tick_prefix | exact V0]. }
  destruct e as [now|win|x y|win| |t p|t| |now]; cbn [step].
  - destruct (raf_pending (env w)) as [|id rest]; [exact V|].
    set (w0 := upd_env _ w).
    apply Tk; [exact Hs | exact (established_fixtures w w0 eq_refl E) | exact V].
  - set (w0 := upd_env _ w).
    destruct E as [[(L & _ & R & C) | (L & _)] _].
    + destruct (dispatch_window_listeners 0 0 w0 L) as (-> & _).
      now apply on_resize_consistent.
    + now rewrite (dispatch_no_listeners resize 0 0 w0 L).
  - destruct E as [[(L & _) | (L & _)] _].
    + destruct (dispatch_window_listeners x y w L) as (_ & -> & _).
      apply (consistent_viewport_same w); [|exact V]. reflexivity.
    + now rewrite (dispatch_no_listeners mousemove x y w L).
  - set (w0 := upd_env _ w).
    destruct E as [[(L & _) | (L & _)] _].
    + destruct (dispatch_window_listeners 0 0 w0 L) as (_ & _ & ->).
      apply (consistent_viewport_same w); [|exact V]. reflexivity.
    + now rewrite (dispatch_no_listeners scroll_event 0 0 w0 L).
  - destruct (timers (env w)) as [|[] rest]; [exact V|].
    now rewrite _initScrollAnimations_idle by exact Hs.
  - destruct (registered t w) eqn:R; [|exact V].
    apply (consistent_viewport_same w); [|exact V].
    apply (viewport_onUpdate_scrubbed t p (registered_scrubbed t w T R)).
  - destruct (registered t w) eqn:R; [|exact V].
    now rewrite (onEnter_scrubbed t w (registered_scrubbed t w T R)).
  - apply (consistent_viewport_same w); [|exact V].
    unfold viewport. destruct (destroy_gfx w) as (-> & -> & _). reflexivity.
  - now apply Tk.
Qed.

Lemma boot_viewport canvas win gl m :
  consistent_viewport (world_of (boot canvas (page win gl m))).
Proof.
  unfold boot, _initRenderer. cbn [webgl page env].
  destruct gl.
  - cbn [andThen world_of].
    destruct m as [[] [] [] []]; unfold consistent_viewport; norm;
      repeat split; try reflexivity; apply Math_min_cap.
  - unfold consistent_viewport. cbn. auto.
Qed.

Lemma reachable_viewport w : reachable w -> consistent_viewport w.
Proof.
  induction 1 as [canvas now win gl m | e w R IH].
  - unfold constructor.
    pose proof (boot_established canvas win gl m) as B.
    pose proof (boot_viewport canvas win gl m) as V.
    destruct (boot_invariant canvas win gl m) as [I _].
    destruct (boot canvas (page win gl m)) as [w8|e w8]; cbn [andThen world_of] in *;
      [|exact V].
    assert (S8 : stale (this w8) = nothing_assigned) by apply I.
    destruct (tick_established now w8 S8 B) as [-> _].
    apply (consistent_viewport_same w8); [apply viewport_tick_prefix | exact V].
  - apply viewport_step; try assumption;
      [now apply reachable_invariant | now apply reachable_established].
Qed.

(** ** The elapsed time and the particle system *)







(** ** Ticks in a row *)








(** ** The scene *)

Lemma built_same w w' :
  core w' = core w -> fixtures w' = fixtures w -> built w -> built w'.
Proof.
  unfold built, alive, core, fixtures, section_groups. intros Hc Hf.
  injection Hc; intros. injection Hf; intros.
  repeat match goal with E : _ = _ |- _ => rewrite E; clear E end.
  auto.
Qed.

Lemma boot_built canvas win gl m : built (world_of (boot canvas (page win gl m))).
Proof.
  unfold boot, _initRenderer. cbn [webgl page env].
  destruct gl.
  - cbn [andThen world_of]. left.
    destruct m as [[] [] [] []]; unfold alive; repeat split; reflexivity.
  - right. cbn. repeat split; reflexivity.
Qed.

Lemma reachable_built w : reachable w -> built w.
Proof.
  induction 1 as [canvas now win gl m | e w R IH].
  - unfold constructor.
    pose proof (boot_established canvas win gl m) as B.
    pose proof (boot_built canvas win gl m) as V.
    destruct (boot_invariant canvas win gl m) as [I _].
    destruct (boot canvas (page win gl m)) as [w8|e w8]; cbn [andThen world_of] in *;
      [|exact V].
    assert (S8 : stale (this w8) = nothing_assigned) by apply I.
    apply (built_same w8); [apply (tick_steady now w8 S8) | | exact V].
    apply tick_fixtures; assumption.
  - apply (built_same w); [| |exact IH].
    + apply core_step. now apply reachable_invariant.
    + apply fixtures_step; [now apply reachable_invariant | now apply reachable_established].
Qed.

Lemma in_disposals h r o :
  deref h r = Some o ->
  (forall g, geometry o = Some g -> In (GeometryDispose g) (flat_map disposals_of h))
  /\ (forall m, material o = Some m -> In (MaterialDispose m) (flat_map disposals_of h)).
Proof.
  intros D. apply nth_error_In in D.
  split; intros x Hx; apply in_flat_map; exists o; (split; [exact D|]);
    unfold disposals_of; rewrite Hx; destruct (geometry o), (material o);
    cbn; auto.
Qed.

Lemma scene_refs_resolve w :
  reachable w -> scene (gfx (this w)) = true ->
  forallb (is_group (heap w)) (section_groups w) = true
  /\ forallb (is_mesh (heap w)) (mesh_refs (meshes (this w))) = true
  /\ NoDup (scene_refs w)
  /\ List.length (scene_refs w) = List.length (heap w)
  /\ List.length (heap w) = 16%nat.
Proof.
  intros R S. destruct (reachable_built w R) as [(_ & H & G & M & _) | (F & _)];
    [|congruence].
  unfold scene_refs. rewrite H, G, M.
  repeat split; try reflexivity.
  vm_compute. repeat constructor; cbn; intuition discriminate.
Qed.

(** X13.  In a running engine whose scene was built, the five section
    groups and the eleven meshes of [this.meshes] are sixteen distinct
    objects of the store and fill it: every group reference resolves to an
    object without geometry or material, every mesh reference to one with
    both. *)
Theorem scene_references_resolve w :
  reachable w -> scene (gfx (this w)) = true ->
  forallb (is_group (heap w)) (section_groups w) = true
  /\ forallb (is_mesh (heap w)) (mesh_refs (meshes (this w))) = true
  /\ NoDup (scene_refs w)
  /\ List.length (scene_refs w) = List.length (heap w)
  /\ List.length (heap w) = 16%nat.
Proof. exact (scene_refs_resolve w). Qed.

Lemma scene_wired_world : scene (gfx (this wired_world)) = true.
Proof. vm_compute. reflexivity. Qed.

Lemma scene_references_resolve_witness :
  NoDup (scene_refs wired_world) /\ List.length (heap wired_world) = 16%nat.
Proof.
  destruct (scene_references_resolve wired_world reachable_wired_world scene_wired_world)
    as (_ & _ & N & _ & L).
  exact (conj N L).
Defined.

(** X14.  In a running engine [destroy] releases the geometry and the
    material of every mesh of [this.meshes], the renderer, and the geometry
    and the material of the particle system; the calls it makes are exactly
    [released]. *)
Theorem destroy_releases_every_mesh w r :
  reachable w -> In r (mesh_refs (meshes (this w))) ->
  exists o g m,
    deref (heap w) r = Some o /\ geometry o = Some g /\ material o = Some m
    /\ gpu (env (destroy w)) = gpu (env w) ++ released w
    /\ In (GeometryDispose g) (released w)
    /\ In (MaterialDispose m) (released w)
    /\ In RendererDispose (released w)
    /\ In ParticleGeometryDispose (released w)
    /\ In ParticleMaterialDispose (released w).
Proof.
  intros R Hr.
  destruct (reachable_built w R) as [(S & A) | (_ & _ & M & _)];
    [|rewrite M in Hr; destruct Hr].
  destruct (scene_refs_resolve w R S) as (_ & Fm & _).
  rewrite forallb_forall in Fm. specialize (Fm r Hr). unfold is_mesh in Fm.
  destruct (deref (heap w) r) as [o|] eqn:D; [|discriminate].
  destruct (geometry o) as [g|] eqn:Eg; [|discriminate].
  destruct (material o) as [m|] eqn:Em; [|discriminate].
  exists o, g, m.
  destruct (in_disposals (heap w) r o D) as [Ig Im].
  destruct (reachable_established w R) as [[(_ & _ & Rn & _) | (_ & F & _)] _];
    [|congruence].
  destruct A as (_ & _ & _ & _ & _ & Ps).
  split; [reflexivity|]. split; [exact Eg|]. split; [exact Em|].
  split; [apply gpu_destroy|].
  unfold released. rewrite S.
  destruct (renderer (gfx (this w))); [|discriminate].
  destruct (particleSystem (gfx (this w))); [|discriminate].
  repeat split.
  - apply in_or_app; right; apply in_or_app; right; apply in_or_app; left; auto.
  - apply in_or_app; right; apply in_or_app; right; apply in_or_app; left; auto.
  - apply in_or_app; left; left; reflexivity.
  - apply in_or_app; right; apply in_or_app; right; apply in_or_app; right;
      left; reflexivity.
  - apply in_or_app; right; apply in_or_app; right; apply in_or_app; right;
      right; left; reflexivity.
Qed.

Lemma destroy_releases_every_mesh_witness :
  exists o g m,
    deref (heap wired_world) 1%nat = Some o
    /\ geometry o = Some g /\ material o = Some m
    /\ In (GeometryDispose g) (released wired_world)
    /\ In (MaterialDispose m) (released wired_world).
Proof.
  destruct (destroy_releases_every_mesh wired_world 1%nat reachable_wired_world)
    as (o & g & m & D & G & M & _ & Ig & Im & _).
  - vm_compute. left. reflexivity.
  - exists o, g, m. exact (conj D (conj G (conj M (conj Ig Im)))).
Defined.

(** ** How the constructor ends *)

Lemma boot_normal canvas win m :
  exists w8, boot canvas (page win true m) = Normal w8
    /\ chromaticAberrationPass (gfx (this w8))
       = (if some_module_missing m then None
          else Some (shaderPass (Some (UNumber 0.003))))
    /\ env_outside_tick w8
       = (win, true, m, window_listeners, ([CallInitScrollAnimations], [], []),
          (if some_module_missing m
           then [Warn "Post processing modules not available"] else [], []),
          (0%nat, true))
    /\ heap w8 = scene_store.
Proof.
  unfold boot, _initRenderer. cbn [webgl page env andThen].
  eexists. split; [reflexivity|].
  destruct m as [[] [] [] []]; repeat split; reflexivity.
Qed.

Lemma constructor_ends canvas now win gl m :
  let c := constructor canvas now (page win gl m) in
  let w := world_of c in
  thrown c = (if gl then if some_module_missing m then None
                         else Some set_is_not_a_function
              else Some no_webgl_context)
  /\ listeners (env w) = (if gl then window_listeners else [])
  /\ timers (env w) = (if gl then [CallInitScrollAnimations] else [])
  /\ raf_pending (env w) = (if gl then [1%nat] else [])
  /\ _animFrameId (this w) = (if gl then Some 1%nat else None)
  /\ List.length (heap w) = (if gl then 16%nat else 0%nat)
  /\ console (env w)
     = (if gl && some_module_missing m
        then [Warn "Post processing modules not available"] else []).
Proof.
  intros c w. subst w c. unfold constructor. destruct gl.
  - destruct (boot_normal canvas win m) as (w8 & B & P & Ev & Hp).
    pose proof (boot_established canvas win true m) as E.
    pose proof (boot_loop canvas win true m) as L.
    destruct (boot_invariant canvas win true m) as [I _].
    rewrite B in *. cbn [andThen world_of] in *. cbv zeta in L. destruct L as [Lp Ln].
    assert (S8 : stale (this w8) = nothing_assigned) by apply I.
    destruct (tick_outcome now w8 S8) as [A T].
    destruct (tick_established now w8 S8 E) as [W _].
    assert (Th : thrown (_tick now w8)
                 = (if some_module_missing m then None else Some set_is_not_a_function)).
    { destruct (some_module_missing m); [now rewrite (A P) | now rewrite (T _ P)]. }
    rewrite W, Th. clear A T W Th.
    destruct (tick_prefix_loop now w8) as (Q1 & Q2 & Q3).
    pose proof (tick_prefix_outside now w8) as O. cbv beta in O.
    pose proof (f_equal (fun t => snd (fst t)) O) as O2.
    pose proof (f_equal (fun t => fst (fst t)) O) as O1.
    cbn [fst snd] in O1, O2. clear O.
    rewrite Ev in O2.
    assert (Hl : listeners (env (tick_prefix now w8)) = window_listeners
                 /\ timers (env (tick_prefix now w8)) = [CallInitScrollAnimations]
                 /\ console (env (tick_prefix now w8))
                    = (if some_module_missing m
                       then [Warn "Post processing modules not available"] else [])).
    { pose proof (f_equal (fun t => snd (fst (fst (fst t)))) O2) as X1.
      pose proof (f_equal (fun t => fst (fst (snd (fst (fst t))))) O2) as X2.
      pose proof (f_equal (fun t => fst (snd (fst t))) O2) as X3.
      cbn [env_outside_tick fst snd] in X1, X2, X3. auto. }
    assert (Hh : heap (tick_prefix now w8) = heap w8).
    { exact (f_equal (fun t => fst (fst (fst (fst t)))) O1). }
    destruct Hl as (-> & -> & ->).
    rewrite Q1, Q3, Lp, Ln, Hh, Hp. cbn [andb app].
    repeat split; reflexivity.
  - cbn. repeat split; reflexivity.
Qed.




(* ------------------------------------------------------------------ *)
(** ** The window listeners *)

Lemma Qdiv_unit_interval a b : 0 < b -> 0 <= a <= b -> 0 <= a / b /\ a / b <= 1.
Proof.
  intros Hb [H0 H1]. split.
  - apply Qle_shift_div_l; [assumption|]. lra.
  - apply Qle_shift_div_r; [assumption|]. lra.
Qed.

(** X1.  The mouse listener maps a pointer inside the cached viewport to
    coordinates between -1 and 1: the top-left corner to (-1, 1), the
    bottom-right corner to (1, -1), the centre to (0, 0). *)
Theorem pointer_is_normalised w clientX clientY :
  let d := dimensions (this w) in
  0 < width d -> 0 < height d ->
  0 <= clientX <= width d -> 0 <= clientY <= height d ->
  let m := mouse (this (on_mousemove clientX clientY w)) in
  (-1 <= x2 m /\ x2 m <= 1) /\ (-1 <= y2 m /\ y2 m <= 1)
  /\ x2 (mouse (this (on_mousemove 0 0 w))) == -1
  /\ y2 (mouse (this (on_mousemove 0 0 w))) == 1
  /\ x2 (mouse (this (on_mousemove (width d) (height d) w))) == 1
  /\ y2 (mouse (this (on_mousemove (width d) (height d) w))) == -1
  /\ x2 (mouse (this (on_mousemove (width d / 2) (height d / 2) w))) == 0
  /\ y2 (mouse (this (on_mousemove (width d / 2) (height d / 2) w))) == 0.
Proof.
  intros d Hw Hh Hx Hy m. subst m. unfold on_mousemove. norm. fold d.
  destruct (Qdiv_unit_interval clientX (width d) Hw Hx) as [X0 X1].
  destruct (Qdiv_unit_interval clientY (height d) Hh Hy) as [Y0 Y1].
  split; [split; lra|]. split; [split; lra|].
  assert (Wn : ~ width d == 0) by lra.
  assert (Hn : ~ height d == 0) by lra.
  repeat split; field; assumption.
Qed.

Lemma pointer_is_normalised_witness :
  let m := mouse (this (on_mousemove 200 450 wired_world)) in
  (-1 <= x2 m /\ x2 m <= 1) /\ (-1 <= y2 m /\ y2 m <= 1).
Proof.
  pose proof (pointer_is_normalised wired_world 200 450) as H.
  cbv zeta in H.
  assert (A : 0 < width (dimensions (this wired_world))) by (vm_compute; reflexivity).
  assert (B : 0 < height (dimensions (this wired_world))) by (vm_compute; reflexivity).
  assert (C : 0 <= 200 <= width (dimensions (this wired_world)))
    by (split; vm_compute; discriminate).
  assert (D : 0 <= 450 <= height (dimensions (this wired_world)))
    by (split; vm_compute; discriminate).
  destruct (H A B C D) as (X & Y & _). exact (conj X Y).
Defined.

(** X2.  The scroll listener stores the scroll offset and the index of the
    viewport-high band that holds it: with a positive cached height, section
    times height is at most the offset, which is below the next multiple; the
    section is negative exactly when the offset is. *)
Theorem current_section_brackets_the_offset w :
  let h := height (dimensions (this w)) in
  let y := window_scrollY (window (env w)) in
  let s := currentSection (scroll (this (on_scroll w))) in
  0 < h ->
  scrollY (scroll (this (on_scroll w))) = y
  /\ inject_Z s * h <= y
  /\ y < (inject_Z s + 1) * h
  /\ ((0 <= s)%Z <-> 0 <= y).
Proof.
  intros h y s Hh. subst s. unfold on_scroll, Math_floor. norm. fold h y.
  pose proof (Qfloor_le (y / h)) as L.
  pose proof (Qlt_floor (y / h)) as U.
  set (f := Qfloor (y / h)) in *.
  assert (Hn : ~ h == 0) by lra.
  assert (E : y == (y / h) * h) by (field; exact Hn).
  rewrite inject_Z_plus in U. change (inject_Z 1) with 1 in U.
  split; [reflexivity|]. split; [|split].
  - clearbody f. set (q := y / h) in *. clearbody q. nra.
  - clearbody f. set (q := y / h) in *. clearbody q. nra.
  - split; intro P.
    + assert (F0 : 0 <= inject_Z f)
        by (change 0 with (inject_Z 0); now rewrite <- Zle_Qle).
      clearbody f. set (q := y / h) in *. clearbody q. nra.
    + assert (D0 : 0 <= y / h) by (apply Qle_shift_div_l; lra).
      assert (Q : 0%Z = Qfloor 0) by reflexivity.
      unfold f. rewrite Q. now apply Qfloor_resp_le.
Qed.

Lemma current_section_brackets_the_offset_witness :
  let w := step (Scrolled (window_state 800 600 1 1300 3000)) wired_world in
  currentSection (scroll (this (on_scroll w))) = 2%Z
  /\ inject_Z (currentSection (scroll (this (on_scroll w)))) * 600 <= 1300.
Proof.
  pose proof (current_section_brackets_the_offset
                (step (Scrolled (window_state 800 600 1 1300 3000)) wired_world)) as H.
  cbv zeta in H.
  assert (A : 0 < height (dimensions
                 (this (step (Scrolled (window_state 800 600 1 1300 3000)) wired_world))))
    by (vm_compute; reflexivity).
  destruct (H A) as (_ & L & _).
  split; [vm_compute; reflexivity|].
  vm_compute in L. vm_compute. exact L.
Defined.

(* ------------------------------------------------------------------ *)
(** ** The trigger callbacks *)

Lemma wave_of_update p w :
  waveAmplitude (scroll (this (onUpdate ShowcaseTrigger p w))) == 0.5 - Qabs (p - 0.5).
Proof.
  unfold onUpdate, interpolate.
  destruct (Qlt_le_dec p 0.5) as [L | L]; unfold upd_scroll, upd_this;
    cbn [this scroll waveAmplitude set_scroll set_waveAmplitude].
  - assert (A : Qabs (p - 0.5) == - (p - 0.5)) by (apply Qabs_neg; lra). lra.
  - assert (A : Qabs (p - 0.5) == p - 0.5) by (apply Qabs_pos; lra). lra.
Qed.

(** X15.  The showcase trigger sets the wave amplitude to a triangle of
    its progress: 0.5 - |p - 0.5|, between 0 and 0.5 on [0, 1], the same at
    [p] and [1 - p], 0 at both ends and 0.5 in the middle, where the two
    branches of the callback meet. *)
Theorem showcase_wave_is_a_triangle w p :
  registered ShowcaseTrigger w = true ->
  0 <= p <= 1 ->
  let amplitude (x : Q) :=
    waveAmplitude (scroll (this (step (TriggerUpdate ShowcaseTrigger x) w))) in
  amplitude p == 0.5 - Qabs (p - 0.5)
  /\ (0 <= amplitude p /\ amplitude p <= 0.5)
  /\ amplitude (1 - p) == amplitude p
  /\ amplitude 0 == 0 /\ amplitude (0.5) == 0.5 /\ amplitude 1 == 0.
Proof.
  intros R [P0 P1] amplitude. subst amplitude. cbn [step]. rewrite R. cbv beta.
  rewrite !wave_of_update.
  assert (A : Qabs (p - 0.5) <= 0.5) by (apply Qabs_Qle_condition; lra).
  pose proof (Qabs_nonneg (p - 0.5)) as B.
  assert (C : Qabs (1 - p - 0.5) == Qabs (p - 0.5)).
  { rewrite <- (Qabs_opp (p - 0.5)). apply Qabs_wd. ring. }
  split; [reflexivity|]. split; [split; lra|]. split; [now rewrite C|].
  repeat split; reflexivity.
Qed.

Lemma showcase_wave_is_a_triangle_witness :
  waveAmplitude (scroll (this (step (TriggerUpdate ShowcaseTrigger (0.75)) wired_world)))
  == 0.5 - Qabs (0.75 - 0.5).
Proof.
  apply (showcase_wave_is_a_triangle wired_world (0.75)).
  - vm_compute. reflexivity.
  - split; discriminate.
Defined.

Lemma or_default_zero q : or_default (Some q) 0 == q.
Proof.
  unfold or_default. destruct (Qeq_bool q 0) eqn:E; [|reflexivity].
  apply Qeq_bool_eq in E. now rewrite E.
Qed.

(** X16.  The scroll velocity the camera trigger keeps is the difference
    between the last two progress values it was given: after updates with
    [p1] and then [p2] it is [p2 - p1], and a further update with the same
    progress brings it to 0. *)
Theorem scroll_velocity_is_the_last_step w p1 p2 :
  registered CameraTrigger w = true ->
  let w1 := step (TriggerUpdate CameraTrigger p1) w in
  let w2 := step (TriggerUpdate CameraTrigger p2) w1 in
  let w3 := step (TriggerUpdate CameraTrigger p2) w2 in
  exists v v',
    _scrollVelocity (scroll (this w2)) = Some v /\ v == p2 - p1
    /\ _scrollVelocity (scroll (this w3)) = Some v' /\ v' == 0
    /\ scrollProgress (scroll (this w2)) = p2
    /\ _prevScrollY (scroll (this w2)) = Some p2.
Proof.
  intros R w1 w2 w3.
  assert (R1 : registered CameraTrigger w1 = true).
  { subst w1. cbn [step]. rewrite R. unfold onUpdate, registered in *.
    destruct (camera _); exact R. }
  assert (R2 : registered CameraTrigger w2 = true).
  { subst w2. cbn [step]. rewrite R1. unfold onUpdate, registered in *.
    destruct (camera _); exact R1. }
  assert (E : forall p w0, registered CameraTrigger w0 = true ->
              scroll (this (step (TriggerUpdate CameraTrigger p) w0))
              = set_prevScrollY
                  (set_scrollVelocity (set_scrollProgress (scroll (this w0)) p)
                     (Some (p - or_default (_prevScrollY (scroll (this w0))) 0)))
                  (Some p)).
  { intros p w0 R0. cbn [step]. rewrite R0. unfold onUpdate.
    norm. destruct (camera (gfx (this w0))); reflexivity. }
  subst w3. rewrite (E p2 w2 R2). subst w2. rewrite (E p2 w1 R1). subst w1.
  rewrite (E p1 w R).
  cbn [_scrollVelocity scrollProgress _prevScrollY set_prevScrollY
       set_scrollVelocity set_scrollProgress].
  pose proof (or_default_zero p1) as Z1. pose proof (or_default_zero p2) as Z2.
  eexists. eexists. split; [reflexivity|]. split; [lra|].
  split; [reflexivity|]. split; [lra|]. split; reflexivity.
Qed.

Lemma scroll_velocity_is_the_last_step_witness :
  exists v,
    _scrollVelocity (scroll (this (step (TriggerUpdate CameraTrigger 0.5)
                                    (step (TriggerUpdate CameraTrigger 0.2) wired_world))))
      = Some v
    /\ v == 0.5 - 0.2.
Proof.
  destruct (scroll_velocity_is_the_last_step wired_world 0.2 0.5)
    as (v & v' & A & B & _).
  - vm_compute. reflexivity.
  - exists v. exact (conj A B).
Defined.

(* ------------------------------------------------------------------ *)
(** ** The attributes of the particles *)

Module ParticleRanges.

Import Reals Lra Float FloatProofs Particles ParticleAttributes.
Local Open Scope R_scope.

Section Attributes.

Variable h : Host.
Variable random : nat -> R.

(** A buffer [P] that every iteration writes at [s] consecutive slots
    [s i .. s i + s - 1] with the values [v i k] holds [v j k] for every
    iteration [j] of the loop. *)
Lemma loop_writes (P : Buffers -> list R) (s : nat) (v : nat -> nat -> R) :
  (forall i bf, List.length (P (body h random i bf)) = List.length (P bf)) ->
  (forall i bf m, (m < i * s \/ i * s + s <= m)%nat ->
     nth m (P (body h random i bf)) 0 = nth m (P bf) 0) ->
  (forall i bf k, (k < s)%nat -> (i * s + s <= List.length (P bf))%nat ->
     nth (i * s + k) (P (body h random i bf)) 0 = v i k) ->
  forall n i j k bf,
    (i <= j < i + n)%nat -> (k < s)%nat -> ((i + n) * s <= List.length (P bf))%nat ->
    nth (j * s + k) (P (loop h random i n bf)) 0 = v j k.
Proof.
  intros Hlen Hout Hown.
  assert (Out : forall n i m bf, (m < i * s \/ (i + n) * s <= m)%nat ->
                nth m (P (loop h random i n bf)) 0 = nth m (P bf) 0).
  { induction n as [|n IH]; intros i m bf Hm; cbn [loop]; [reflexivity|].
    rewrite IH by nia. apply Hout. nia. }
  induction n as [|n IH]; intros i j k bf Hj Hk Hl; [lia|].
  cbn [loop].
  destruct (Nat.eq_dec j i) as [-> | Hne].
  - rewrite Out by nia. apply Hown; [exact Hk | nia].
  - apply IH; [lia | exact Hk | rewrite Hlen; nia].
Qed.

Ltac slots :=
  unfold body;
  cbn [positions scales randomness phases colors];
  repeat first
    [ rewrite ParticleProofs.nth_store_same
        by (rewrite ?ParticleProofs.store_length; lia)
    | rewrite ParticleProofs.nth_store_other by lia ];
  try reflexivity.

Lemma generated_Y n i :
  (i < n)%nat ->
  Y (generate h random n) i = binary32 ((random (10 * i + 3) [-] 0.5) [*] 2.0).
Proof.
  intros Hi. unfold Y, generate.
  apply (loop_writes positions 3
           (fun j k => match k with
                       | 0%nat => binary32 (Math_cos h (angle random j) [*] radius random j)
                       | 1%nat => binary32 ((random (10 * j + 3) [-] 0.5) [*] 2.0)
                       | _ => binary32 (Math_sin h (angle random j) [*] radius random j)
                       end) ) with (k := 1%nat) (n := n) (i := 0%nat);
    try lia.
  - intros j bf. apply (ParticleProofs.body_lengths h random j bf).
  - intros j bf m Hm. slots.
  - intros j bf [|[|[|k]]] Hk Hl; try lia; rewrite ?Nat.add_0_r; slots.
  - cbn [positions]. rewrite ParticleProofs.Float32Array_length. lia.
Qed.

Lemma generated_aScale n i :
  (i < n)%nat ->
  aScale (generate h random n) i = binary32 (random (10 * i + 4) [*] 1.5 [+] 0.5).
Proof.
  intros Hi. unfold aScale, generate.
  replace i with (i * 1 + 0)%nat at 1 by lia.
  apply (loop_writes scales 1 (fun j _ => binary32 (random (10 * j + 4) [*] 1.5 [+] 0.5)))
    with (n := n) (i := 0%nat); try lia.
  - intros j bf. apply (ParticleProofs.body_lengths h random j bf).
  - intros j bf m Hm. slots.
  - intros j bf k Hk Hl. replace (j * 1 + k)%nat with j by lia. slots.
  - cbn [scales]. rewrite ParticleProofs.Float32Array_length. lia.
Qed.

Lemma generated_aPhase n i :
  (i < n)%nat ->
  aPhase (generate h random n) i = binary32 (random (10 * i + 8) [*] PI64 [*] 2.0).
Proof.
  intros Hi. unfold aPhase, generate.
  replace i with (i * 1 + 0)%nat at 1 by lia.
  apply (loop_writes phases 1 (fun j _ => binary32 (random (10 * j + 8) [*] PI64 [*] 2.0)))
    with (n := n) (i := 0%nat); try lia.
  - intros j bf. apply (ParticleProofs.body_lengths h random j bf).
  - intros j bf m Hm. slots.
  - intros j bf k Hk Hl. replace (j * 1 + k)%nat with j by lia. slots.
  - cbn [phases]. rewrite ParticleProofs.Float32Array_length. lia.
Qed.

Lemma generated_aRandomness n i k :
  (i < n)%nat -> (k < 3)%nat ->
  aRandomness (generate h random n) i k
  = binary32 ((random (10 * i + 5 + k) [-] 0.5) [*] 2.0).
Proof.
  intros Hi Hk. unfold aRandomness, generate.
  rewrite (loop_writes randomness 3
             (fun j k => match k with
                         | 0%nat => binary32 ((random (10 * j + 5) [-] 0.5) [*] 2.0)
                         | 1%nat => binary32 ((random (10 * j + 6) [-] 0.5) [*] 2.0)
                         | _ => binary32 ((random (10 * j + 7) [-] 0.5) [*] 2.0)
                         end))
    with (n := n) (i := 0%nat); try lia.
  - destruct k as [|[|[|k]]]; try lia.
    + now rewrite Nat.add_0_r.
    + now replace (10 * i + 5 + 1)%nat with (10 * i + 6)%nat by lia.
    + now replace (10 * i + 5 + 2)%nat with (10 * i + 7)%nat by lia.
  - intros j bf. apply (ParticleProofs.body_lengths h random j bf).
  - intros j bf m Hm. slots.
  - intros j bf [|[|[|k']]] Hk' Hl; try lia; rewrite ?Nat.add_0_r; slots.
  - cbn [randomness]. rewrite ParticleProofs.Float32Array_length. lia.
Qed.

Lemma generated_aColor n i :
  (i < n)%nat -> aColor (generate h random n) i = stored (colorChoice random i).
Proof.
  intros Hi. unfold aColor, generate, stored.
  pose proof (loop_writes colors 3
                (fun j k => match k with
                            | 0%nat => binary32 (color_r (colorChoice random j))
                            | 1%nat => binary32 (color_g (colorChoice random j))
                            | _ => binary32 (color_b (colorChoice random j))
                            end)) as W.
  assert (E : forall k, (k < 3)%nat ->
              nth (i * 3 + k)
                (colors (loop h random 0 n
                   (buffers (Float32Array (n * 3)) (Float32Array n)
                      (Float32Array (n * 3)) (Float32Array n) (Float32Array (n * 3))))) 0
              = match k with
                | 0%nat => binary32 (color_r (colorChoice random i))
                | 1%nat => binary32 (color_g (colorChoice random i))
                | _ => binary32 (color_b (colorChoice random i))
                end).
  { intros k Hk. apply W; try lia.
    - intros j bf. apply (ParticleProofs.body_lengths h random j bf).
    - intros j bf m Hm. slots.
    - intros j bf [|[|[|k']]] Hk' Hl; try lia; rewrite ?Nat.add_0_r; slots.
    - cbn [colors]. rewrite ParticleProofs.Float32Array_length. lia. }
  pose proof (E 0%nat) as E0. pose proof (E 1%nat) as E1. pose proof (E 2%nat) as E2.
  rewrite Nat.add_0_r in E0.
  rewrite E0, E1, E2 by lia. reflexivity.
Qed.

End Attributes.

(** Numbers of the two formats that bound the attributes. *)
Lemma is_binary64_dyadic m e :
  (Z.abs m < 2 ^ 53)%Z -> (- 1074 <= e)%Z -> forall x, x = IZR m * pow2 e -> is_binary64 x.
Proof. intros Hm He x ->. exists m, e. now split. Qed.

Lemma is_binary32_dyadic m e :
  (Z.abs m < 2 ^ 24)%Z -> (- 149 <= e)%Z -> forall x, x = IZR m * pow2 e -> is_binary32 x.
Proof. intros Hm He x ->. exists m, e. now split. Qed.

Ltac dyadic m e :=
  first [ apply (is_binary64_dyadic m e) | apply (is_binary32_dyadic m e) ];
  [ reflexivity | lia
  | unfold pow2; cbn [powerRZ];
    try match goal with
        | |- context [Pos.to_nat ?p] =>
            let n := eval compute in (Pos.to_nat p) in change (Pos.to_nat p) with n
        end;
    try lra ].

Lemma binary64_between a x b :
  is_binary64 a -> is_binary64 b -> a <= x <= b -> a <= binary64 x <= b.
Proof.
  intros Fa Fb [H1 H2]. split.
  - now apply ParticleProofs.binary64_ge.
  - now apply ParticleProofs.binary64_le.
Qed.

Lemma binary32_between a x b :
  is_binary32 a -> is_binary32 b -> a <= x <= b -> a <= binary32 x <= b.
Proof.
  intros Fa Fb [H1 H2]. split.
  - now apply (round_ge 24 (-149)); [lia| |].
  - now apply (round_le 24 (-149)); [lia| |].
Qed.

(** The Number below 1 nearest to it is [1 - 2^-53]. *)
Lemma binary64_below_1 u : is_binary64 u -> u < 1 -> u <= 1 - pow2 (-53).
Proof.
  intros (m & e & -> & Hm & He) H1.
  pose proof (pow2_pos e) as Pe. pose proof (pow2_pos (-53)) as P53.
  destruct (Z_le_gt_dec m 0) as [Hm0|Hm0].
  { apply IZR_le in Hm0. change (pow2 (-53)) with (/ 2 ^ 53). nra. }
  destruct (Z_le_gt_dec e (-53)) as [Le|Ge].
  - assert (A : IZR m <= IZR (2 ^ 53 - 1)) by (apply IZR_le; lia).
    rewrite minus_IZR, <- pow2_nonneg_IZR in A by lia.
    pose proof (pow2_le e (-53) Le) as B.
    pose proof (pow2_cancel 53) as C. change (pow2 (- (53))) with (pow2 (-53)) in C.
    replace (1 - pow2 (-53)) with ((pow2 53 - 1) * pow2 (-53))
      by (rewrite Rmult_minus_distr_r, (Rmult_comm (pow2 53)), C; lra).
    assert (0 <= IZR m) by (apply IZR_le; lia).
    apply Rle_trans with (IZR m * pow2 (-53)).
    + apply Rmult_le_compat_l; assumption.
    + apply Rmult_le_compat_r; lra.
  - assert (Hneg : (e < 0)%Z).
    { destruct (Z_lt_le_dec e 0) as [L|L]; [exact L|].
      pose proof (pow2_ge_1 e L). assert (1 <= IZR m) by (apply IZR_le; lia). nra. }
    pose proof (pow2_cancel e) as C.
    assert (A : IZR m < pow2 (- e)).
    { apply Rmult_lt_reg_r with (pow2 e); [exact Pe|]. lra. }
    rewrite pow2_nonneg_IZR in A by lia. apply lt_IZR in A.
    assert (A' : IZR m <= IZR (2 ^ (- e) - 1)) by (apply IZR_le; lia).
    rewrite minus_IZR, <- pow2_nonneg_IZR in A' by lia.
    pose proof (pow2_le (-53) e ltac:(lia)) as B.
    apply Rle_trans with ((pow2 (- e) - 1) * pow2 e).
    + apply Rmult_le_compat_r; lra.
    + lra.
Qed.

Lemma PI64_eq : PI64 = 884279719003555 * / 2 ^ 48.
Proof.
  unfold PI64, Math_PI, Q2R. cbn [Qnum Qden]. f_equal. f_equal.
  rewrite pow_IZR. reflexivity.
Qed.

Section Ranges.

Variable u : R.
Hypothesis u_range : 0 <= u < 1.

(** [(Math.random() - 0.5) * 2.0], stored *)
Lemma centred_range : -1 <= binary32 ((u [-] 0.5) [*] 2.0) <= 1.
Proof.
  unfold sub, mul.
  assert (A : -0.5 <= binary64 (u - 0.5) <= 0.5).
  { apply binary64_between; [dyadic (-1)%Z (-1)%Z | dyadic 1%Z (-1)%Z | lra]. }
  assert (B : -1 <= binary64 (binary64 (u - 0.5) * 2.0) <= 1).
  { apply binary64_between; [dyadic (-1)%Z 0%Z | dyadic 1%Z 0%Z | lra]. }
  apply binary32_between; [dyadic (-1)%Z 0%Z | dyadic 1%Z 0%Z | exact B].
Qed.

(** [Math.random() * 1.5 + 0.5], stored *)
Lemma scale_range : 0.5 <= binary32 (u [*] 1.5 [+] 0.5) <= 2.
Proof.
  unfold add, mul.
  assert (A : 0 <= binary64 (u * 1.5) <= 1.5).
  { apply binary64_between; [dyadic 0%Z 0%Z | dyadic 3%Z (-1)%Z | lra]. }
  assert (B : 0.5 <= binary64 (binary64 (u * 1.5) + 0.5) <= 2).
  { apply binary64_between; [dyadic 1%Z (-1)%Z | dyadic 2%Z 0%Z | lra]. }
  apply binary32_between; [dyadic 1%Z (-1)%Z | dyadic 2%Z 0%Z | exact B].
Qed.

(** [Math.random() * Math.PI * 2.0], stored *)
Lemma phase_range : 0 <= binary32 (u [*] PI64 [*] 2.0) <= TAU32.
Proof.
  unfold mul. pose proof PI64_eq as E.
  assert (A : 0 <= binary64 (u * PI64) <= PI64).
  { apply binary64_between.
    - dyadic 0%Z 0%Z.
    - rewrite E. dyadic 884279719003555%Z (-48)%Z.
    - rewrite E in *. nra. }
  assert (B : 0 <= binary64 (binary64 (u * PI64) * 2.0) <= 2 * PI64).
  { apply binary64_between.
    - dyadic 0%Z 0%Z.
    - rewrite E. dyadic 884279719003555%Z (-47)%Z.
    - lra. }
  unfold TAU32. change (pow2 (-21)) with (/ 2 ^ 21).
  apply binary32_between.
  - dyadic 0%Z 0%Z.
  - dyadic 13176795%Z (-21)%Z.
  - assert (2 * PI64 <= 13176795 * / 2 ^ 21) by (rewrite E; lra). lra.
Qed.

(** A draw near 1 is stored as the upper end. *)
Lemma centred_top : 1 - pow2 (-27) <= u -> binary32 ((u [-] 0.5) [*] 2.0) = 1.
Proof.
  change (pow2 (-27)) with (/ 2 ^ 27). intros Hu. unfold sub, mul.
  assert (A : 0.5 - / 2 ^ 27 <= binary64 (u - 0.5) <= 0.5).
  { apply binary64_between; [dyadic 67108863%Z (-27)%Z | dyadic 1%Z (-1)%Z | lra]. }
  assert (B : 1 - / 2 ^ 26 <= binary64 (binary64 (u - 0.5) * 2.0) <= 1).
  { apply binary64_between; [dyadic 67108863%Z (-26)%Z | dyadic 1%Z 0%Z | lra]. }
  set (y := binary64 (binary64 (u - 0.5) * 2.0)) in *.
  destruct (Rlt_le_dec y 1) as [Lt|Ge].
  - rewrite (ParticleProofs.binary32_eval y 0 (-24) 16777216 eq_refl).
    + change (pow2 (-24)) with (/ 2 ^ 24). lra.
    + change (pow2 (0 - 1)) with (/ 2 ^ 1). change (pow2 0) with 1.
      rewrite Rabs_pos_eq by lra. lra.
    + change (pow2 (- -24)) with (2 ^ 24). apply Rabs_def1; lra.
  - replace y with 1 by lra. apply (round_id 24 (-149)); [lia|]. dyadic 1%Z 0%Z.
Qed.

Lemma scale_top : 1 - pow2 (-25) <= u -> binary32 (u [*] 1.5 [+] 0.5) = 2.
Proof.
  change (pow2 (-25)) with (/ 2 ^ 25). intros Hu. unfold add, mul.
  assert (A : 1.5 - 3 * / 2 ^ 26 <= binary64 (u * 1.5) <= 1.5).
  { apply binary64_between; [dyadic 100663293%Z (-26)%Z | dyadic 3%Z (-1)%Z | lra]. }
  assert (B : 2 - 3 * / 2 ^ 26 <= binary64 (binary64 (u * 1.5) + 0.5) <= 2).
  { apply binary64_between; [dyadic 134217725%Z (-26)%Z | dyadic 2%Z 0%Z | lra]. }
  set (y := binary64 (binary64 (u * 1.5) + 0.5)) in *.
  destruct (Rlt_le_dec y 2) as [Lt|Ge].
  - rewrite (ParticleProofs.binary32_eval y 1 (-23) 16777216 eq_refl).
    + change (pow2 (-23)) with (/ 2 ^ 23). lra.
    + change (pow2 (1 - 1)) with 1. change (pow2 1) with (2 ^ 1).
      rewrite Rabs_pos_eq by lra. lra.
    + change (pow2 (- -23)) with (2 ^ 23). apply Rabs_def1; lra.
  - replace y with 2 by lra. apply (round_id 24 (-149)); [lia|]. dyadic 2%Z 0%Z.
Qed.

Lemma phase_top : 1 - pow2 (-27) <= u -> binary32 (u [*] PI64 [*] 2.0) = TAU32.
Proof.
  change (pow2 (-27)) with (/ 2 ^ 27). intros Hu. unfold mul. pose proof PI64_eq as E.
  assert (A : PI64 - / 2 ^ 25 <= binary64 (u * PI64) <= PI64).
  { apply binary64_between.
    - rewrite E. dyadic 884279710614947%Z (-48)%Z.
    - rewrite E. dyadic 884279719003555%Z (-48)%Z.
    - rewrite E in *. nra. }
  assert (B : 2 * PI64 - / 2 ^ 24 <= binary64 (binary64 (u * PI64) * 2.0) <= 2 * PI64).
  { apply binary64_between.
    - rewrite E. dyadic 884279710614947%Z (-47)%Z.
    - rewrite E. dyadic 884279719003555%Z (-47)%Z.
    - lra. }
  set (y := binary64 (binary64 (u * PI64) * 2.0)) in *. clearbody y.
  rewrite E in B. unfold TAU32.
  rewrite (ParticleProofs.binary32_eval y 3 (-21) 13176795 eq_refl); [reflexivity| |].
  - change (pow2 (3 - 1)) with (2 ^ 2). change (pow2 3) with (2 ^ 3).
    rewrite Rabs_pos_eq by lra. lra.
  - change (pow2 (- -21)) with (2 ^ 21). apply Rabs_def1; lra.
Qed.

(** [palette[Math.floor(Math.random() * palette.length)]] *)
Lemma palette_index :
  is_binary64 u ->
  In (nth (Z.to_nat (floorR (u [*] INR (List.length palette)))) palette (color 0 0 0))
     palette.
Proof.
  intros Fu. unfold floorR, mul.
  assert (E4 : INR (List.length palette) = 4) by (cbn; lra). rewrite E4. clear E4.
  pose proof (binary64_below_1 u Fu (proj2 u_range)) as U1.
  change (pow2 (-53)) with (/ 2 ^ 53) in U1.
  assert (Hx : 0 <= binary64 (u * 4) <= 4 - / 2 ^ 51).
  { apply binary64_between; [dyadic 0%Z 0%Z | dyadic 9007199254740991%Z (-51)%Z | lra]. }
  set (x := binary64 (u * 4)) in *.
  destruct (base_Int_part x) as [B1 B2].
  assert (L : (0 <= Int_part x)%Z).
  { destruct (Z_le_gt_dec 0 (Int_part x)) as [G | G]; [exact G|].
    assert (N1 : (Int_part x <= -1)%Z) by lia. apply IZR_le in N1. lra. }
  assert (U : (Int_part x <= 3)%Z).
  { destruct (Z_le_gt_dec (Int_part x) 3) as [G | G]; [exact G|].
    assert (N4 : (4 <= Int_part x)%Z) by lia. apply IZR_le in N4. lra. }
  assert (C : Int_part x = 0%Z \/ Int_part x = 1%Z \/ Int_part x = 2%Z
              \/ Int_part x = 3%Z) by lia.
  destruct C as [-> | [-> | [-> | ->]]]; cbn; auto.
Qed.

End Ranges.

Lemma generated_in_range (h : Host) (random : nat -> R) (n i : nat) :
  (forall k, is_binary64 (random k) /\ 0 <= random k < 1) ->
  (i < n)%nat ->
  let bf := generate h random n in
  -1 <= Y bf i <= 1
  /\ 0.5 <= aScale bf i <= 2
  /\ 0 <= aPhase bf i <= TAU32
  /\ -1 <= aRandomness bf i 0 <= 1
  /\ -1 <= aRandomness bf i 1 <= 1
  /\ -1 <= aRandomness bf i 2 <= 1
  /\ In (aColor bf i) (map stored palette)
  /\ (1 - pow2 (-27) <= random (10 * i + 3)%nat -> Y bf i = 1)
  /\ (1 - pow2 (-25) <= random (10 * i + 4)%nat -> aScale bf i = 2)
  /\ (1 - pow2 (-27) <= random (10 * i + 8)%nat -> aPhase bf i = TAU32).
Proof.
  intros Hr Hi bf. subst bf.
  rewrite (generated_Y h random n i Hi), (generated_aScale h random n i Hi),
    (generated_aPhase h random n i Hi), (generated_aColor h random n i Hi),
    !(generated_aRandomness h random n i) by (try exact Hi; lia).
  split; [apply centred_range, Hr|]. split; [apply scale_range, Hr|].
  split; [apply phase_range, Hr|].
  split; [apply centred_range, Hr|]. split; [apply centred_range, Hr|].
  split; [apply centred_range, Hr|].
  split; [apply in_map; unfold colorChoice; apply palette_index; apply Hr|].
  split; [apply centred_top, Hr|]. split; [apply scale_top, Hr|].
  apply phase_top, Hr.
Qed.

(** X17.  Whatever Numbers in [0, 1) [Math.random] returns, every
    generated particle is stored with its Y and its three randomness
    components in [-1, 1], its scale in [0.5, 2], its phase between 0 and
    the binary32 number nearest to 2 Math.PI (which is above it), and with
    one of the four palette colours as binary32 holds it.  The upper ends
    are reached: a draw within [2^-27] of 1 is stored as Y = 1 and as
    phase [TAU32], one within [2^-25] as scale 2. *)
Theorem particle_attributes_in_range (h : Host) (random : nat -> R) (i : nat) :
  (forall k, is_binary64 (random k) /\ 0 <= random k < 1) ->
  (i < count)%nat ->
  let bf := generate h random count in
  -1 <= Y bf i <= 1
  /\ 0.5 <= aScale bf i <= 2
  /\ 0 <= aPhase bf i <= TAU32
  /\ -1 <= aRandomness bf i 0 <= 1
  /\ -1 <= aRandomness bf i 1 <= 1
  /\ -1 <= aRandomness bf i 2 <= 1
  /\ In (aColor bf i) (map stored palette)
  /\ (1 - pow2 (-27) <= random (10 * i + 3)%nat -> Y bf i = 1)
  /\ (1 - pow2 (-25) <= random (10 * i + 4)%nat -> aScale bf i = 2)
  /\ (1 - pow2 (-27) <= random (10 * i + 8)%nat -> aPhase bf i = TAU32).
Proof.
  intros Hr Hi. exact (generated_in_range h random count i Hr Hi).
Qed.

Lemma largest_draw k :
  is_binary64 ((fun _ : nat => 1 - pow2 (-53)) k)
  /\ 0 <= (fun _ : nat => 1 - pow2 (-53)) k < 1.
Proof.
  cbv beta. change (pow2 (-53)) with (/ 2 ^ 53). split; [|lra].
  dyadic 9007199254740991%Z (-53)%Z.
Qed.

Lemma particle_attributes_in_range_witness :
  let bf := generate correctly_rounded (fun _ => 1 - pow2 (-53)) count in
  (-1 <= Y bf 0 <= 1) /\ Y bf 0 = 1 /\ aScale bf 0 = 2 /\ aPhase bf 0 = TAU32.
Proof.
  destruct (particle_attributes_in_range correctly_rounded (fun _ => 1 - pow2 (-53)) 0
              largest_draw ParticleProofs.count_pos)
    as (A & _ & _ & _ & _ & _ & _ & Ty & Ts & Tp).
  assert (H27 : 1 - pow2 (-27) <= 1 - pow2 (-53)).
  { change (pow2 (-27)) with (/ 2 ^ 27). change (pow2 (-53)) with (/ 2 ^ 53). lra. }
  assert (H25 : 1 - pow2 (-25) <= 1 - pow2 (-53)).
  { change (pow2 (-25)) with (/ 2 ^ 25). change (pow2 (-53)) with (/ 2 ^ 53). lra. }
  exact (conj A (conj (Ty H27) (conj (Ts H25) (Tp H27)))).
Defined.

End ParticleRanges.

(** ** The hash of the noise kernel *)

Lemma mod289_in_table c : in_table (Qred (c - Glsl.floor (c * (1 / 289)) * 289)).
Proof.
  unfold in_table. rewrite Qred_correct. unfold Glsl.floor.
  pose proof (Qfloor_le (c * (1 / 289))) as L.
  pose proof (Qlt_floor (c * (1 / 289))) as U.
  rewrite inject_Z_plus in U. change (inject_Z 1) with 1 in U.
  assert (E : c == (c * (1 / 289)) * 289) by field.
  set (f := inject_Z (Qfloor (c * (1 / 289)))) in *. clearbody f.
  set (q := c * (1 / 289)) in *. clearbody q.
  split; lra.
Qed.

Lemma Qfloor_plus_one q : Qfloor (q + 1) = (Qfloor q + 1)%Z.
Proof.
  pose proof (Qfloor_le q) as L. pose proof (Qlt_floor q) as U.
  pose proof (Qfloor_le (q + 1)) as L'. pose proof (Qlt_floor (q + 1)) as U'.
  rewrite inject_Z_plus in U, U'. change (inject_Z 1) with 1 in U, U'.
  assert (A : inject_Z (Qfloor (q + 1)) < inject_Z (Qfloor q + 1 + 1)).
  { rewrite !inject_Z_plus. change (inject_Z 1) with 1. lra. }
  assert (B : inject_Z (Qfloor q + 1) < inject_Z (Qfloor (q + 1) + 1)).
  { rewrite !inject_Z_plus. change (inject_Z 1) with 1. lra. }
  rewrite <- Zlt_Qlt in A, B. lia.
Qed.

(** X18.  [mod289v3], [mod289v4] and [permute4] of the noise kernel map
    every input into the table range [0, 289), and [mod289v3] has period
    289. *)
Theorem mod289_wraps_into_the_table (v : Glsl.vec3) (u : Glsl.vec4) :
  (in_table (x3 (Glsl.mod289v3 v)) /\ in_table (y3 (Glsl.mod289v3 v))
   /\ in_table (z3 (Glsl.mod289v3 v)))
  /\ (in_table (Glsl.x4 (Glsl.mod289v4 u)) /\ in_table (Glsl.y4 (Glsl.mod289v4 u))
      /\ in_table (Glsl.z4 (Glsl.mod289v4 u)) /\ in_table (Glsl.w4 (Glsl.mod289v4 u)))
  /\ (in_table (Glsl.x4 (Glsl.permute4 u)) /\ in_table (Glsl.y4 (Glsl.permute4 u))
      /\ in_table (Glsl.z4 (Glsl.permute4 u)) /\ in_table (Glsl.w4 (Glsl.permute4 u)))
  /\ x3 (Glsl.mod289v3 (vector3 (x3 v + 289) (y3 v) (z3 v))) = x3 (Glsl.mod289v3 v).
Proof.
  unfold Glsl.permute4, Glsl.mod289v4, Glsl.mod289v3, Glsl.map4, Glsl.map3, Glsl.V3.
  cbn [x3 y3 z3 Glsl.x4 Glsl.y4 Glsl.z4 Glsl.w4].
  repeat split; try apply mod289_in_table.
  apply Qred_complete. unfold Glsl.floor.
  assert (E : (x3 v + 289) * (1 / 289) == x3 v * (1 / 289) + 1) by field.
  rewrite (Qfloor_comp _ _ E), Qfloor_plus_one, inject_Z_plus.
  change (inject_Z 1) with 1. ring.
Qed.

(* ------------------------------------------------------------------ *)
(** ** The page script *)

Module MainProofs.

Import Main.
Local Open Scope string_scope.

Lemma createLoader_found d : exists l,
  getElementById_loader (createLoader d) = Some l /\ loader (createLoader d) = Some l.
Proof.
  unfold createLoader. destruct (getElementById_loader d) as [l|] eqn:E.
  - exists l. split; [exact E|]. unfold getElementById_loader in E.
    destruct (loader d) as [l0|]; [|discriminate].
    destruct (parentNode l0); congruence.
  - eexists. split; reflexivity.
Qed.

Lemma createLoader_once d :
  createLoader (createLoader d) = createLoader d
  /\ is_some (getElementById_loader (createLoader d)) = true
  /\ webgl_canvas (createLoader d) = webgl_canvas d
  /\ (createLoader d = d
      \/ (getElementById_loader d = None
          /\ head_styles (createLoader d) = (head_styles d ++ [keyframes])%list
          /\ option_map loader_children (loader (createLoader d)) = Some [spinner; label]
          /\ option_map (fun l => getProperty "opacity" (loader_style l))
               (loader (createLoader d)) = Some (Some "1"))).
Proof.
  destruct (createLoader_found d) as (l & F & _).
  split; [|split; [|split]].
  - unfold createLoader at 1. now rewrite F.
  - now rewrite F.
  - unfold createLoader. now destruct (getElementById_loader d).
  - unfold createLoader. destruct (getElementById_loader d); [now left|right].
    repeat split; reflexivity.
Qed.

(** X19.  [createLoader] leaves a loader in the document and is
    idempotent: a loader that is already there is reused and nothing is
    added; otherwise one loader with its spinner and label is made, with
    opacity 1, and one style element joins the head. *)
Theorem createLoader_makes_one_loader d :
  createLoader (createLoader d) = createLoader d
  /\ is_some (getElementById_loader (createLoader d)) = true
  /\ webgl_canvas (createLoader d) = webgl_canvas d
  /\ (createLoader d = d
      \/ (getElementById_loader d = None
          /\ head_styles (createLoader d) = (head_styles d ++ [keyframes])%list
          /\ option_map loader_children (loader (createLoader d)) = Some [spinner; label]
          /\ option_map (fun l => getProperty "opacity" (loader_style l))
               (loader (createLoader d)) = Some (Some "1"))).
Proof. exact (createLoader_once d). Qed.

Lemma completed_constructor canvas now win gl m :
  constructor canvas now (page win gl m)
  = (if gl && some_module_missing m
     then Normal (world_of (constructor canvas now (page win gl m)))
     else Throw (if gl then set_is_not_a_function else no_webgl_context)
                (world_of (constructor canvas now (page win gl m)))).
Proof.
  destruct (constructor_ends canvas now win gl m) as (T & _). cbv zeta in T.
  destruct (constructor canvas now (page win gl m)) as [w|e w]; cbn [thrown world_of] in *;
    destruct gl; cbn [andb]; try discriminate T;
    destruct (some_module_missing m); try discriminate T; try reflexivity;
    now injection T as ->.
Qed.

(** X20.  With a canvas in the document, and WebGL unavailable or one of
    the post-processing modules missing, the [DOMContentLoaded] handler
    assigns [window.experience] exactly when WebGL is available; without it
    the handler logs the constructor's error and assigns nothing.  Either
    way it leaves the loader in place with one fade timer, and what the
    constructor registered before it ended stays registered. *)
Theorem handler_exposes_the_engine_when_webgl_works now d canvas win gl m :
  webgl_canvas d = Some canvas ->
  gl = false \/ some_module_missing m = true ->
  let p := on_DOMContentLoaded now d (page win gl m) in
  let b := browser_after (page win gl m) p in
  is_some (window_experience p) = gl
  /\ output p
     = console_log DomReady
       :: (if gl
           then [console_log CreatedSuccessfully; console_log AccessHint]
           else [console_error (FailedToInitialise no_webgl_context)])
  /\ page_timers p = [FadeOut]
  /\ dom p = createLoader d
  /\ listeners b = (if gl then window_listeners else [])
  /\ timers b = (if gl then [CallInitScrollAnimations] else [])
  /\ raf_pending b = (if gl then [1%nat] else []).
Proof.
  intros Hc Hp p b. subst b p. unfold on_DOMContentLoaded, browser_after.
  destruct (createLoader_once d) as (_ & _ & Cv & _).
  rewrite Cv, Hc. cbv zeta.
  destruct (constructor_ends canvas now win gl m) as (_ & L & T & R & _).
  cbv zeta in L, T, R.
  rewrite (completed_constructor canvas now win gl m).
  set (w := world_of (constructor canvas now (page win gl m))) in *. clearbody w.
  assert (E : gl && some_module_missing m = gl).
  { destruct Hp as [-> | ->]; [reflexivity | apply andb_true_r]. }
  rewrite E.
  destruct gl;
    cbn [window_experience output page_timers dom construction world_of is_some app];
    repeat split; assumption.
Qed.

Lemma handler_exposes_the_engine_when_webgl_works_witness :
  is_some (window_experience
             (on_DOMContentLoaded 0 example_document (page example_window true no_modules)))
  = true.
Proof.
  exact (proj1 (handler_exposes_the_engine_when_webgl_works
                  0 example_document 1%nat example_window true no_modules eq_refl
                  (or_intror eq_refl))).
Defined.

(** X21.  Without a canvas the handler constructs nothing: it logs the
    error, leaves the browser as it was, sets no timer, and fades the loader
    at once (opacity 0, one pending [transitionend] listener). *)
Theorem handler_without_canvas now d b :
  webgl_canvas d = None ->
  let p := on_DOMContentLoaded now d b in
  construction p = None
  /\ window_experience p = None
  /\ browser_after b p = b
  /\ page_timers p = []
  /\ output p = [console_log DomReady; console_error NoCanvasFound]
  /\ exists l,
       loader (createLoader d) = Some l
       /\ loader (dom p)
          = Some (loader_element (("opacity", "0") :: loader_style l) (loader_children l)
                                 true (S (transitionend_once l))).
Proof.
  intros Hc p. subst p. unfold on_DOMContentLoaded, browser_after.
  destruct (createLoader_once d) as (_ & _ & Cv & _).
  rewrite Cv, Hc.
  cbn [window_experience output page_timers dom construction app].
  repeat split.
  destruct (createLoader_found d) as (l & F & L).
  exists l. split; [exact L|]. unfold fadeOutLoader. rewrite L. cbn [loader].
  unfold getElementById_loader in F. rewrite L in F.
  destruct (parentNode l) eqn:Pn; [|discriminate]. reflexivity.
Qed.

Lemma handler_without_canvas_witness :
  page_timers (on_DOMContentLoaded 0 (document None None [])
                 (page example_window true no_modules)) = [].
Proof.
  exact (proj1 (proj2 (proj2 (proj2
    (handler_without_canvas 0 (document None None [])
       (page example_window true no_modules) eq_refl))))).
Defined.

(** X22.  With a canvas, the loader is still in the document when the
    handler returns; the 1500 ms timer sets its opacity to 0, the
    [transitionend] that follows removes it from the document, and a further
    [transitionend] or timer changes nothing.  The engine is not touched. *)
Theorem loader_is_removed_once now d canvas b :
  webgl_canvas d = Some canvas ->
  let p := on_DOMContentLoaded now d b in
  let faded := timer_elapsed p in
  let gone := transitionend (dom faded) in
  is_some (getElementById_loader (dom p)) = true
  /\ option_map (fun l => getProperty "opacity" (loader_style l)) (loader (dom faded))
     = Some (Some "0")
  /\ getElementById_loader gone = None
  /\ transitionend gone = gone
  /\ timer_elapsed faded = faded
  /\ window_experience faded = window_experience p
  /\ construction faded = construction p.
Proof.
  intros Hc p faded gone.
  assert (Hp : dom p = createLoader d /\ page_timers p = [FadeOut]).
  { subst p. unfold on_DOMContentLoaded.
    destruct (createLoader_once d) as (_ & _ & Cv & _).
    rewrite Cv, Hc. cbv zeta.
    destruct (constructor canvas now b); split; reflexivity. }
  destruct Hp as [Hd Ht].
  destruct (createLoader_found d) as (l & F & L).
  assert (Hf : faded = page_state (fadeOutLoader (dom p)) (output p) (construction p)
                                  (window_experience p) []).
  { subst faded. unfold timer_elapsed. now rewrite Ht. }
  subst gone. rewrite Hf. cbn [dom window_experience construction].
  rewrite Hd. unfold fadeOutLoader. rewrite L, F.
  unfold transitionend, getElementById_loader, timer_elapsed.
  cbn [loader transitionend_once parentNode page_timers option_map loader_style
       getProperty String.eqb is_some].
  repeat split; reflexivity.
Qed.

Lemma loader_is_removed_once_witness :
  getElementById_loader
    (transitionend
       (dom (timer_elapsed
               (on_DOMContentLoaded 0 example_document
                  (page example_window true no_modules))))) = None.
Proof.
  exact (proj1 (proj2 (proj2
    (loader_is_removed_once 0 example_document 1%nat
       (page example_window true no_modules) eq_refl)))).
Defined.

End MainProofs.

(* ------------------------------------------------------------------ *)
(** ** [_onResize] and the frames *)

(** X23.  [_onResize], which no listener calls, gives the camera, the
    renderer and the composer what the resize listener gives them, but keeps
    the window size in [this.width] and [this.height]: the cached
    [this.dimensions] stay as they were, so the mouse listener goes on
    normalising with the old size. *)
Theorem onResize_leaves_the_cached_dimensions w clientX clientY :
  is_some (camera (gfx (this w))) = true ->
  is_some (renderer (gfx (this w))) = true ->
  let win := window (env w) in
  let w' := snd (_onResize w) in
  fst (_onResize w) = dims (innerWidth win) (innerHeight win)
  /\ gfx (this w') = gfx (this (on_resize w))
  /\ dimensions (this (on_resize w)) = dims (innerWidth win) (innerHeight win)
  /\ dimensions (this w') = dimensions (this w)
  /\ env w' = env w /\ heap w' = heap w
  /\ mouse (this (on_mousemove clientX clientY w'))
     = mouse (this (on_mousemove clientX clientY w)).
Proof.
  intros C R win w'. subst w' win. unfold _onResize, on_resize, on_mousemove.
  destruct (camera (gfx (this w))) as [c|] eqn:Ec; [|discriminate].
  destruct (renderer (gfx (this w))) as [r|] eqn:Er; [|discriminate].
  norm. rewrite Ec. norm. rewrite Er. norm.
  destruct (composer (gfx (this w))) as [cp|] eqn:Ep; norm; rewrite ?Ep; norm;
    repeat split; reflexivity.
Qed.

Lemma onResize_leaves_the_cached_dimensions_witness :
  dimensions (this (snd (_onResize
                (step (Scrolled (window_state 1024 768 1 0 3000)) wired_world))))
  = dims 800 600.
Proof.
  refine (eq_trans
    (proj1 (proj2 (proj2 (proj2
      (onResize_leaves_the_cached_dimensions
         (step (Scrolled (window_state 1024 768 1 0 3000)) wired_world) 0 0 _ _))))) _);
    vm_compute; reflexivity.
Defined.

(** A frame in a running engine: the handle the browser runs leaves the
    queue, one new handle joins it, and the error of the chromatic pass is
    logged when that pass exists. *)
Lemma frame_outcome now w id rest :
  invariant w -> established w ->
  raf_pending (env w) = id :: rest ->
  raf_pending (env (step (Frame now) w)) = rest ++ [raf_next (env w)]
  /\ _animFrameId (this (step (Frame now) w)) = Some (raf_next (env w))
  /\ console (env (step (Frame now) w))
     = console (env w)
       ++ (if is_some (chromaticAberrationPass (gfx (this w)))
           then [Error set_is_not_a_function] else [])
  /\ gpu (env (step (Frame now) w)) = gpu (env w).
Proof.
  intros I E P. cbn [step]. rewrite P.
  assert (Hs : stale (this w) = nothing_assigned) by apply I.
  set (w0 := upd_env (fun b => set_raf_pending b rest) w).
  assert (E0 : established w0) by exact (established_fixtures w w0 eq_refl E).
  destruct (tick_outcome now w0 Hs) as [A B].
  destruct (tick_prefix_loop now w0) as (Q1 & Q2 & Q3).
  pose proof (tick_prefix_outside now w0) as O. cbv beta in O.
  pose proof (f_equal (fun t => fst (snd (fst (snd (fst t))))) O) as Oc.
  pose proof (f_equal (fun t => snd (snd (fst (snd (fst t))))) O) as Og.
  cbn [env_outside_tick fst snd] in Oc, Og. clear O.
  change (console (env w0)) with (console (env w)) in Oc.
  change (gpu (env w0)) with (gpu (env w)) in Og.
  change (raf_pending (env w0)) with rest in Q1.
  change (raf_next (env w0)) with (raf_next (env w)) in Q1, Q3.
  change (chromaticAberrationPass (gfx (this w0)))
    with (chromaticAberrationPass (gfx (this w))) in A, B.
  destruct E as [_ [[C Pn] | [C Pn]]]; rewrite Pn; cbn [is_some].
  - rewrite (A Pn). cbn [settle].
    assert (N : composer (gfx (this (tick_prefix now w0))) = None).
    { pose proof (tick_prefix_fixtures now w0) as F.
      pose proof (f_equal (fun t => snd (fst t)) F) as Fc.
      cbn [fixtures fst snd] in Fc.
      change (composer (gfx (this w0))) with (composer (gfx (this w))) in Fc.
      rewrite C in Fc.
      destruct (composer (gfx (this (tick_prefix now w0)))); [discriminate|reflexivity]. }
    unfold render. rewrite N, Q1, Q3, Oc, Og, app_nil_r. repeat split; reflexivity.
  - rewrite (B _ Pn). cbn [settle]. unfold log. norm.
    rewrite Q1, Q3, Oc, Og. repeat split; reflexivity.
Qed.

(* ------------------------------------------------------------------ *)
(** ** Running engines *)

(** X3.  In a running engine whose scene was built, the renderer's size,
    the camera's aspect and the composer's size agree with the cached
    dimensions and the pixel ratio is at most 2; a resize event sets the
    cached dimensions to the window's inner size and keeps the agreement. *)
Theorem viewport_agrees_with_the_cached_dimensions w win :
  reachable w -> scene (gfx (this w)) = true ->
  consistent_viewport w
  /\ consistent_viewport (step (Resized win) w)
  /\ dimensions (this (step (Resized win) w)) = dims (innerWidth win) (innerHeight win)
  /\ is_some (renderer (gfx (this w))) = true
  /\ is_some (camera (gfx (this w))) = true.
Proof.
  intros R S.
  split; [now apply reachable_viewport|].
  split; [apply reachable_viewport; now constructor|].
  destruct (reachable_established w R) as [[(L & _ & Rn & C) | (_ & F & _)] _];
    [|congruence].
  split; [|auto]. cbn [step].
  set (w0 := upd_env (fun b => set_window b win) w).
  destruct (dispatch_window_listeners 0 0 w0 L) as (-> & _).
  exact (proj2 (on_resize_consistent w0 C Rn)).
Qed.

Lemma viewport_agrees_with_the_cached_dimensions_witness :
  dimensions (this (step (Resized (window_state 1024 768 3 0 3000)) wired_world))
  = dims 1024 768.
Proof.
  exact (proj1 (proj2 (proj2
    (viewport_agrees_with_the_cached_dimensions wired_world
       (window_state 1024 768 3 0 3000) reachable_wired_world scene_wired_world)))).
Defined.

(** X6.  In a running engine an animation frame takes its handle off the
    queue and puts exactly one new handle on it, which the engine keeps; it
    makes no call on the GPU side, and it logs the TypeError of the chromatic
    pass exactly when that pass exists. *)
Theorem every_frame_requests_the_next_one w now id rest :
  reachable w ->
  raf_pending (env w) = id :: rest ->
  raf_pending (env (step (Frame now) w)) = rest ++ [raf_next (env w)]
  /\ _animFrameId (this (step (Frame now) w)) = Some (raf_next (env w))
  /\ console (env (step (Frame now) w))
     = console (env w)
       ++ (if is_some (chromaticAberrationPass (gfx (this w)))
           then [Error set_is_not_a_function] else [])
  /\ gpu (env (step (Frame now) w)) = gpu (env w).
Proof.
  intros R. apply frame_outcome;
    [now apply reachable_invariant | now apply reachable_established].
Qed.

Lemma every_frame_requests_the_next_one_witness :
  raf_pending (env (step (Frame 16) example_world)) = [] ++ [raf_next (env example_world)].
Proof.
  refine (proj1 (every_frame_requests_the_next_one example_world 16 1%nat []
                   reachable_example_world _)).
  vm_compute. reflexivity.
Defined.

Lemma driven_wired_world : driven wired_world.
Proof.
  unfold wired_world, example_world. apply driven_step; [apply driven_new|reflexivity].
Qed.

(** X7.  As long as [_tick] is called by the constructor and by animation
    frames only, at most one frame is pending; [destroy] leaves none, and
    whatever the browser delivers afterwards none is requested again: the
    elapsed time, the clock, the camera's X and Z, the light and the particle
    system stay as [destroy] found them. *)
Theorem destroy_stops_the_render_loop w es :
  driven w ->
  forallb (fun e => negb (is_direct_tick e)) es = true ->
  (List.length (raf_pending (env w)) <= 1)%nat
  /\ raf_pending (env (destroy w)) = []
  /\ raf_pending (env (run es (destroy w))) = []
  /\ between_frames (run es (destroy w)) = between_frames (destroy w).
Proof.
  intros D F.
  pose proof (driven_on_schedule w D) as S.
  pose proof (driven_reachable w D) as R.
  pose proof (destroy_stopped w S) as St.
  assert (Rd : reachable (destroy w)) by exact (reachable_step Destroy w R).
  pose proof (stopped_run es (destroy w) Rd St F) as B.
  split; [|split; [apply St|split; [|exact B]]].
  - destruct S as [_ [-> | (id & -> & _)]]; cbn; lia.
  - apply (stopped_between _ _ B St).
Qed.

Lemma destroy_stops_the_render_loop_witness :
  raf_pending (env (run [Frame 64; MouseMoved 10 10; Frame 80; TimerFired]
                        (destroy (step (Frame 48) wired_world)))) = [].
Proof.
  refine (proj1 (proj2 (proj2
    (destroy_stops_the_render_loop (step (Frame 48) wired_world)
       [Frame 64; MouseMoved 10 10; Frame 80; TimerFired] _ _)))).
  - apply driven_step; [exact driven_wired_world | reflexivity].
  - reflexivity.
Defined.

(** X8.  The events the browser and GSAP deliver (resize, mouse move,
    scroll, the timer, trigger callbacks) never advance the time or the
    clock, never move the camera in X or Z, the light or the particle
    system, and never touch the frame queue: they only set what the next
    tick reads. *)
Theorem inputs_wait_for_the_next_frame w e :
  reachable w -> is_input e = true ->
  between_frames (step e w) = between_frames w.
Proof.
  intros R. apply between_frames_step. now apply reachable_invariant.
Qed.

Lemma inputs_wait_for_the_next_frame_witness :
  between_frames (step (MouseMoved 800 0) wired_world) = between_frames wired_world.
Proof.
  exact (inputs_wait_for_the_next_frame wired_world (MouseMoved 800 0)
           reachable_wired_world eq_refl).
Defined.



(** X12.  No sequence of events changes the scene store, [this.meshes] or
    the section groups of a running engine, assigns one of the never-assigned
    properties, or hands a tween to GSAP. *)
Theorem no_event_changes_the_scene w es :
  reachable w ->
  heap (run es w) = heap w
  /\ meshes (this (run es w)) = meshes (this w)
  /\ section_groups (run es w) = section_groups w
  /\ stale (this (run es w)) = nothing_assigned
  /\ tweens (env (run es w)) = [].
Proof.
  intros R. pose proof (core_run es w R) as C.
  destruct (reachable_invariant w R) as (S & _ & _ & T & _).
  unfold core in C.
  pose proof (f_equal (fun t => snd (fst (fst (fst (fst t))))) C) as Ch.
  pose proof (f_equal (fun t => fst (fst (fst (fst (fst t))))) C) as Cs.
  pose proof (f_equal (fun t => fst (snd (fst (fst t)))) C) as Ct.
  pose proof (f_equal (fun t => snd (fst t)) C) as Cg.
  cbn [fst snd] in Ch, Cs, Ct, Cg.
  pose proof (f_equal fst Cg) as Cg1. pose proof (f_equal snd Cg) as Cg2.
  cbn [fst snd] in Cg1, Cg2.
  rewrite Ch, Cs, Ct, Cg1, Cg2. auto.
Qed.

Lemma no_event_changes_the_scene_witness :
  heap (run [Frame 16; TriggerUpdate CameraTrigger 0.5; Resized example_window; Destroy]
            wired_world) = heap wired_world.
Proof.
  exact (proj1 (no_event_changes_the_scene wired_world
                  [Frame 16; TriggerUpdate CameraTrigger 0.5; Resized example_window; Destroy]
                  reachable_wired_world)).
Defined.

(* ------------------------------------------------------------------ *)
(** ** The guarded blocks, once their properties are assigned *)

Lemma deref_modify r f h r' :
  deref (modify r f h) r'
  = if Nat.eqb r r' then option_map f (deref h r') else deref h r'.
Proof.
  unfold deref. revert r r'.
  induction h as [|o h IH]; intros [|r] [|r']; cbn [modify nth_error Nat.eqb option_map];
    try reflexivity.
  - now destruct (Nat.eqb _ _).
  - apply IH.
Qed.

Lemma Math_max_floor a b : a <= Math_max a b.
Proof. unfold Math_max. destruct (Qlt_le_dec a b); lra. Qed.

Lemma grow_deref bar i w r o0 :
  deref (heap w) r = Some o0 ->
  exists o, deref (heap (grow_bar bar i w)) r = Some o
    /\ same_but_scale o0 o
    /\ (0.001 <= y3 (scale o0) \/ bar = r -> 0.001 <= y3 (scale o)).
Proof.
  intros D. unfold grow_bar, upd_heap. cbn [heap]. rewrite deref_modify, D.
  destruct (Nat.eqb bar r) eqn:E.
  - eexists. split; [reflexivity|]. split; [repeat split|].
    intros _. cbn [scale set_scale set_y3 y3]. apply Math_max_floor.
  - exists o0. split; [reflexivity|]. split; [repeat split|].
    intros [Q | ->]; [exact Q|]. now rewrite Nat.eqb_refl in E.
Qed.

Lemma same_but_scale_trans a b c :
  same_but_scale a b -> same_but_scale b c -> same_but_scale a c.
Proof.
  unfold same_but_scale. intros (A1 & A2 & A3 & A4) (B1 & B2 & B3 & B4).
  repeat split; congruence.
Qed.

Lemma grow_all_keeps l i w r o0 :
  deref (heap w) r = Some o0 ->
  exists o, deref (heap (forEach_from i grow_bar l w)) r = Some o
    /\ same_but_scale o0 o
    /\ (0.001 <= y3 (scale o0) -> 0.001 <= y3 (scale o)).
Proof.
  revert i w o0. induction l as [|bar l IH]; intros i w o0 D; cbn [forEach_from].
  - exists o0. repeat split; auto.
  - destruct (grow_deref bar i w r o0 D) as (o1 & D1 & S1 & Q1).
    destruct (IH (S i) _ o1 D1) as (o & Do & So & Qo).
    exists o. split; [exact Do|]. split; [exact (same_but_scale_trans _ _ _ S1 So)|].
    auto.
Qed.

Lemma grow_all_floor l i w bar o0 :
  In bar l -> deref (heap w) bar = Some o0 ->
  exists o, deref (heap (forEach_from i grow_bar l w)) bar = Some o
    /\ same_but_scale o0 o /\ 0.001 <= y3 (scale o).
Proof.
  revert i w o0. induction l as [|b l IH]; intros i w o0 Hin D; [destruct Hin|].
  cbn [forEach_from].
  destruct (grow_deref b i w bar o0 D) as (o1 & D1 & S1 & Q1).
  destruct Hin as [-> | Hin].
  - destruct (grow_all_keeps l (S i) _ bar o1 D1) as (o & Do & So & Qo).
    exists o. split; [exact Do|]. split; [exact (same_but_scale_trans _ _ _ S1 So)|].
    apply Qo, Q1. now right.
  - destruct (IH (S i) _ o1 Hin D1) as (o & Do & So & Qo).
    exists o. split; [exact Do|]. split; [exact (same_but_scale_trans _ _ _ S1 So)|].
    exact Qo.
Qed.

(** X25.  For an owner who assigns [statsBars]: after [_updateOnScroll]
    every listed bar that is in the store has a Y scale of at least 0.001,
    whatever the bar heights are and even when a bar is listed twice or is
    also the contact sphere; its position, rotation, geometry and material
    are as before. *)
Theorem bars_never_collapse w bs bar o0 :
  statsBars (stale (this w)) = Some bs ->
  In bar bs ->
  deref (heap w) bar = Some o0 ->
  exists o,
    deref (heap (_updateOnScroll w)) bar = Some o
    /\ 0.001 <= y3 (scale o)
    /\ same_but_scale o0 o.
Proof.
  intros Hb Hin D. unfold _updateOnScroll.
  set (w1 := match waveMesh (stale (this w)) with Some _ => _ | None => w end).
  assert (E1 : stale (this w1) = stale (this w) /\ heap w1 = heap w
               /\ scroll (this w1) = scroll (this w)).
  { subst w1. repeat (break_inner; norm); repeat split; reflexivity. }
  clearbody w1. destruct E1 as (S1 & H1 & C1). cbv zeta.
  set (w2 := match this_contactSphere (stale (this w1)) with Some _ => _ | None => w1 end).
  assert (E2 : stale (this w2) = stale (this w)
               /\ exists o2, deref (heap w2) bar = Some o2 /\ same_but_scale o0 o2).
  { subst w2. destruct (this_contactSphere (stale (this w1))) as [r|].
    - split; [exact S1|]. unfold upd_heap. cbn [heap]. rewrite deref_modify, H1, D.
      destruct (Nat.eqb r bar); eexists; split; try reflexivity; repeat split.
    - split; [exact S1|]. exists o0. rewrite H1. split; [exact D|repeat split]. }
  clearbody w2. destruct E2 as (S2 & o2 & D2 & R2).
  rewrite S2, Hb.
  destruct (grow_all_floor bs 0 w2 bar o2 Hin D2) as (o & Do & So & Qo).
  exists o. split; [exact Do|]. split; [exact Qo|].
  exact (same_but_scale_trans _ _ _ R2 So).
Qed.


Lemma bars_never_collapse_witness :
  exists o0 o,
    deref (heap bars_assigned) 9%nat = Some o0
    /\ deref (heap (_updateOnScroll bars_assigned)) 9%nat = Some o
    /\ 0.001 <= y3 (scale o).
Proof.
  assert (D : {o0 | deref (heap bars_assigned) 9%nat = Some o0})
    by (eexists; vm_compute; reflexivity).
  destruct D as [o0 D].
  destruct (bars_never_collapse bars_assigned [9; 10; 11; 12]%nat 9%nat o0)
    as (o & Do & Q & _).
  - vm_compute. reflexivity.
  - left. reflexivity.
  - exact D.
  - exists o0, o. exact (conj D (conj Do Q)).
Defined.

(** X24.  For an owner who assigns [featuresMeshes] with more than three
    meshes: [_initScrollAnimations] throws on the fourth, whose offset is
    undefined, after it registered the camera trigger and the first three
    feature triggers; the showcase and contact triggers are then not
    registered and the contact scale is not reset. *)
Theorem feature_wiring_throws_past_three_meshes w m0 m1 m2 m3 rest :
  featuresMeshes (stale (this w)) = Some (m0 :: m1 :: m2 :: m3 :: rest) ->
  let c := _initScrollAnimations w in
  thrown c = Some from_is_undefined
  /\ triggers (env (world_of c))
     = triggers (env w) ++ CameraTrigger :: feature_triggers [m0; m1; m2]
  /\ registered ShowcaseTrigger (world_of c) = registered ShowcaseTrigger w
  /\ registered ContactTrigger (world_of c) = registered ContactTrigger w
  /\ contactSphereScale (scroll (this (world_of c))) = contactSphereScale (scroll (this w)).
Proof.
  intros F c. subst c. unfold _initScrollAnimations.
  set (w0 := match heroMesh (stale (this w)) with Some _ => _ | None => w end).
  assert (E0 : stale (this w0) = stale (this w) /\ triggers (env w0) = triggers (env w)
               /\ scroll (this w0) = scroll (this w)).
  { subst w0. destruct (heroMesh (stale (this w))); repeat split; reflexivity. }
  clearbody w0. destruct E0 as (S0 & T0 & C0). cbv zeta.
  change (featuresMeshes (stale (this (ScrollTrigger_create CameraTrigger w0))))
    with (featuresMeshes (stale (this w0))).
  rewrite S0, F.
  cbn [List.length Nat.leb features_forEach nth_error feature_offsets andThen
       thrown world_of].
  split; [reflexivity|].
  match goal with |- triggers (env ?W) = _ /\ _ => set (wf := W) end.
  assert (T : triggers (env wf)
              = triggers (env w) ++ CameraTrigger :: feature_triggers [m0; m1; m2]).
  { subst wf. unfold ScrollTrigger_create, upd_heap, upd_env.
    cbn [env triggers set_triggers].
    rewrite T0, <- !app_assoc. reflexivity. }
  assert (C : scroll (this wf) = scroll (this w0)) by reflexivity.
  clearbody wf.
  split; [exact T|].
  unfold registered. rewrite T, !existsb_app.
  cbn [existsb Trigger_eqb feature_triggers mapi_from orb].
  rewrite !orb_false_r, C, C0. repeat split.
Qed.

Lemma feature_wiring_throws_past_three_meshes_witness :
  thrown (_initScrollAnimations four_features_assigned) = Some from_is_undefined.
Proof.
  exact (proj1 (feature_wiring_throws_past_three_meshes four_features_assigned
                  3%nat 4%nat 5%nat 7%nat [] eq_refl)).
Defined.
